(** * Form-field patchers and the console-call rewriter

    A shallow embedding of the maintenance scripts under [frontend/]:

    - [comprehensive_fix.py], [final_comprehensive_fix.py] and
      [batch_fix_inputs.py], three variants of the tag attribute patcher;
    - [enhanced_scan.py] and [fix_form_fields.py], the read-only scanners;
    - [fix_console.py], the console-call rewriter.

    Text is a list of 8-bit characters: the bytes of the text in UTF-8, the
    encoding in which the scripts read and write.  [str.strip()] knows the
    white space of Unicode in this encoding.  The character classes of the
    regular expressions ([\s], [\b]), [str.lower] and the lengths follow
    Python on ASCII text: bytes above 127 are neither space nor word
    characters there and have no case.  Several properties are stated for
    ASCII text ([Cases.ascii_text]) for this reason.  Files are read as a
    whole and split on the newline character, as the scripts do. *)

From Stdlib Require Import String Ascii DecimalString.
From stdpp Require Import base list gmap strings.
From stdpp Require Import sorting.

Set Default Proof Using "Type".
Open Scope list_scope.

Abbreviation str := (list ascii).

(** ** Python string operations *)

Module Py.

Definition lit (s : string) : str := list_ascii_of_string s.

Definition dq : ascii := "034"%char.
Definition sq : ascii := "039"%char.
Definition nl : ascii := "010"%char.

Definition chr_eqb (a b : ascii) : bool := Ascii.eqb a b.

Definition in_range (lo hi : nat) (c : ascii) : bool :=
  (lo <=? nat_of_ascii c) && (nat_of_ascii c <=? hi).

Definition is_upper (c : ascii) : bool := in_range 65 90 c.
Definition is_lower (c : ascii) : bool := in_range 97 122 c.
Definition is_digit (c : ascii) : bool := in_range 48 57 c.

(** [\w] on the ASCII range. *)
Definition is_word (c : ascii) : bool :=
  is_upper c || is_lower c || is_digit c || chr_eqb c "_"%char.

(** [\s] and [str.isspace] on the ASCII range: tab to carriage return,
    the four separators 28..31 and the space. *)
Definition is_space (c : ascii) : bool :=
  in_range 9 13 c || in_range 28 31 c || chr_eqb c " "%char.

Definition lower_chr (c : ascii) : ascii :=
  if is_upper c then ascii_of_nat (nat_of_ascii c + 32) else c.

(** [s.lower()] *)
Definition lower (s : str) : str := map lower_chr s.

(** [s.startswith(p)] *)
Fixpoint startswith (p s : str) : bool :=
  match p, s with
  | [], _ => true
  | _ :: _, [] => false
  | a :: p', b :: s' => chr_eqb a b && startswith p' s'
  end.

(** [p in s] *)
Fixpoint contains (p s : str) : bool :=
  startswith p s ||
  match s with
  | [] => false
  | _ :: s' => contains p s'
  end.

(** [s.split(c)] for a one-character separator: never empty. *)
Fixpoint split (c : ascii) (s : str) : list str :=
  match s with
  | [] => [[]]
  | a :: s' =>
      if chr_eqb a c then [] :: split c s'
      else match split c s' with
           | [] => [[a]]
           | l :: ls => (a :: l) :: ls
           end
  end.

(** [sep.join(ls)] *)
Fixpoint join (sep : str) (ls : list str) : str :=
  match ls with
  | [] => []
  | [l] => l
  | l :: ls' => l ++ sep ++ join sep ls'
  end.

(** [f.readlines()]: the lines keep their newline. *)
Fixpoint readlines (s : str) : list str :=
  match s with
  | [] => []
  | a :: s' =>
      if chr_eqb a nl then [a] :: readlines s'
      else match readlines s' with
           | [] => [[a]]
           | l :: ls => (a :: l) :: ls
           end
  end.

Fixpoint lstrip (p : ascii -> bool) (s : str) : str :=
  match s with
  | [] => []
  | a :: s' => if p a then lstrip p s' else s
  end.

Definition rstrip (p : ascii -> bool) (s : str) : str :=
  rev (lstrip p (rev s)).

(** [s.strip(chars)], the set of characters given as a predicate. *)
Definition strip (p : ascii -> bool) (s : str) : str :=
  rstrip p (lstrip p s).

(** The white space of [str.isspace] beyond ASCII, as it stands in UTF-8:
    U+0085 and U+00A0 take two bytes; U+1680, U+2000 to U+200A, U+2028,
    U+2029, U+202F, U+205F and U+3000 take three. *)
Definition byte (n : nat) (c : ascii) : bool := nat_of_ascii c =? n.

Definition space2 (a b : ascii) : bool :=
  byte 194 a && (byte 133 b || byte 160 b).

Definition space3 (a b c : ascii) : bool :=
  byte 225 a && byte 154 b && byte 128 c
  || byte 226 a && byte 128 b
     && (in_range 128 138 c || byte 168 c || byte 169 c || byte 175 c)
  || byte 226 a && byte 129 b && byte 159 c
  || byte 227 a && byte 128 b && byte 128 c.

(** The text after its leading white space, the white space of two and of
    three bytes given by [p2] and [p3]. *)
Fixpoint lstrip_wide (p2 : ascii -> ascii -> bool)
    (p3 : ascii -> ascii -> ascii -> bool) (s : str) : str :=
  match s with
  | [] => []
  | a :: s1 =>
      if is_space a then lstrip_wide p2 p3 s1
      else
        match s1 with
        | [] => s
        | b :: s2 =>
            if p2 a b then lstrip_wide p2 p3 s2
            else
              match s2 with
              | [] => s
              | c :: s3 => if p3 a b c then lstrip_wide p2 p3 s3 else s
              end
        end
  end.

Definition lstrip_space (s : str) : str := lstrip_wide space2 space3 s.

(** The same from the end: the bytes come in the reverse order. *)
Definition rstrip_space (s : str) : str :=
  rev (lstrip_wide (fun b a => space2 a b) (fun c b a => space3 a b c)
         (rev s)).

(** [s.strip()] *)
Definition strip_space (s : str) : str := rstrip_space (lstrip_space s).

(** [s.replace(old, new)] and [re.sub] of a literal pattern, for the
    non-empty patterns of the scripts: the matches are taken from the left
    and do not overlap.  [skip] counts the characters of a match that are
    still to be passed over. *)
Fixpoint replace_from (skip : nat) (old new s : str) : str :=
  match s with
  | [] => []
  | a :: s' =>
      match skip with
      | S k => replace_from k old new s'
      | O =>
          if startswith old s
          then new ++ replace_from (pred (length old)) old new s'
          else a :: replace_from 0 old new s'
      end
  end.

Definition replace (old new s : str) : str := replace_from 0 old new s.

(** [re.sub] of a one-character class [[...]]: every character of the class
    is replaced. *)
Fixpoint sub_cls (p : ascii -> bool) (new s : str) : str :=
  match s with
  | [] => []
  | a :: s' => if p a then new ++ sub_cls p new s' else a :: sub_cls p new s'
  end.

(** [re.sub] of [[...]+]: every maximal run of the class is replaced.
    [inrun] tells that the run under way has been replaced already. *)
Fixpoint sub_run_from (inrun : bool) (p : ascii -> bool) (new s : str) : str :=
  match s with
  | [] => []
  | a :: s' =>
      if p a
      then (if inrun then [] else new) ++ sub_run_from true p new s'
      else a :: sub_run_from false p new s'
  end.

Definition sub_run := sub_run_from false.

(** [str(n)] for a line number. *)
Definition str_of_nat (n : nat) : str :=
  lit (NilZero.string_of_uint (Nat.to_uint n)).

End Py.

(** ** Regular expressions

    The fragment of Python's [re] that the scripts use: literals, classes,
    sequence, alternation, greedy repetition of a class, the word boundary
    and numbered groups.  [re.search] tries every start position from the
    left and, at each, the alternatives in the order of a backtracking
    matcher. *)

Module Re.
Import Py.

Inductive re : Type :=
| Eps
| Chr (c : ascii)
| Cls (p : ascii -> bool)
| Seq (a b : re)
| Alt (a b : re)
| Star (p : ascii -> bool)
| Bnd
| Grp (n : nat) (a : re).

Definition Plus (p : ascii -> bool) : re := Seq (Cls p) (Star p).

Fixpoint Word (s : str) : re :=
  match s with
  | [] => Eps
  | c :: s' => Seq (Chr c) (Word s')
  end.

(** The matcher's position: the character before it, its offset, the text
    still to read, and the spans of the groups closed so far. *)
Record cursor : Type := Cursor {
  c_prev : option ascii;
  c_pos : nat;
  c_rest : str;
  c_grp : list (nat * (nat * nat))
}.

Definition word_opt (o : option ascii) : bool :=
  match o with
  | Some c => is_word c
  | None => false
  end.

Definition at_boundary (c : cursor) : bool :=
  xorb (word_opt (c_prev c)) (word_opt (head (c_rest c))).

Section Matcher.
Context {R : Type}.

Fixpoint star (p : ascii -> bool) (prev : option ascii) (pos : nat)
    (rest : str) (g : list (nat * (nat * nat)))
    (k : cursor -> option R) : option R :=
  match rest with
  | c :: rest' =>
      if p c then
        match star p (Some c) (S pos) rest' g k with
        | Some r => Some r
        | None => k (Cursor prev pos rest g)
        end
      else k (Cursor prev pos rest g)
  | [] => k (Cursor prev pos rest g)
  end.

Fixpoint run (r : re) (c : cursor) (k : cursor -> option R) : option R :=
  match r with
  | Eps => k c
  | Chr a =>
      match c_rest c with
      | b :: rest' =>
          if chr_eqb a b
          then k (Cursor (Some b) (S (c_pos c)) rest' (c_grp c))
          else None
      | [] => None
      end
  | Cls p =>
      match c_rest c with
      | b :: rest' =>
          if p b
          then k (Cursor (Some b) (S (c_pos c)) rest' (c_grp c))
          else None
      | [] => None
      end
  | Seq a b => run a c (fun c' => run b c' k)
  | Alt a b =>
      match run a c k with
      | Some r => Some r
      | None => run b c k
      end
  | Star p => star p (c_prev c) (c_pos c) (c_rest c) (c_grp c) k
  | Bnd => if at_boundary c then k c else None
  | Grp n a =>
      run a c (fun c' =>
        k (Cursor (c_prev c') (c_pos c') (c_rest c')
             ((n, (c_pos c, c_pos c')) :: c_grp c')))
  end.

End Matcher.

(** The character before the position reached after reading [w]. *)
Definition after (prev : option ascii) (w : str) : option ascii :=
  match last w with
  | Some x => Some x
  | None => prev
  end.

(** What the expressions mean: [matches r prev w rest] when [r] can read
    [w] in front of [rest], the character before [w] being [prev]. *)
Inductive matches : re -> option ascii -> str -> str -> Prop :=
| M_Eps prev rest : matches Eps prev [] rest
| M_Chr a prev rest : matches (Chr a) prev [a] rest
| M_Cls (p : ascii -> bool) a prev rest :
    p a = true -> matches (Cls p) prev [a] rest
| M_Seq a b prev w1 w2 rest :
    matches a prev w1 (w2 ++ rest) ->
    matches b (after prev w1) w2 rest ->
    matches (Seq a b) prev (w1 ++ w2) rest
| M_AltL a b prev w rest :
    matches a prev w rest -> matches (Alt a b) prev w rest
| M_AltR a b prev w rest :
    matches b prev w rest -> matches (Alt a b) prev w rest
| M_Star (p : ascii -> bool) prev w rest :
    Forall (fun c => p c = true) w -> matches (Star p) prev w rest
| M_Bnd prev rest :
    xorb (word_opt prev) (word_opt (head rest)) = true ->
    matches Bnd prev [] rest
| M_Grp n a prev w rest :
    matches a prev w rest -> matches (Grp n a) prev w rest.

(** A match object: [m.start()], [m.end()] and the group spans. *)
Record mtch : Type := Mtch {
  m_start : nat;
  m_end : nat;
  m_grp : list (nat * (nat * nat))
}.

Definition match_at (r : re) (prev : option ascii) (pos : nat) (s : str)
    : option mtch :=
  run r (Cursor prev pos s [])
    (fun c => Some (Mtch pos (c_pos c) (c_grp c))).

Fixpoint search_from (r : re) (prev : option ascii) (pos : nat) (s : str)
    : option mtch :=
  match match_at r prev pos s with
  | Some m => Some m
  | None =>
      match s with
      | [] => None
      | c :: s' => search_from r (Some c) (S pos) s'
      end
  end.

(** [re.search(r, s)] *)
Definition search (r : re) (s : str) : option mtch := search_from r None 0 s.

Fixpoint assoc (n : nat) (g : list (nat * (nat * nat))) : option (nat * nat) :=
  match g with
  | [] => None
  | (i, span) :: g' => if Nat.eqb i n then Some span else assoc n g'
  end.

(** [m.group(n)] of a match in [s]; the groups read here always took part
    in the match. *)
Definition group (n : nat) (s : str) (m : mtch) : str :=
  match assoc n (m_grp m) with
  | Some (i, j) => take (j - i) (drop i s)
  | None => []
  end.

(** [bool(re.search(r, s))] *)
Definition found (r : re) (s : str) : bool :=
  match search r s with
  | Some _ => true
  | None => false
  end.

(** [m.group(1) if m else default] *)
Definition group1_or (r : re) (s : str) (default : str) : str :=
  match search r s with
  | Some m => group 1 s m
  | None => default
  end.

Definition quote (c : ascii) : bool := chr_eqb c dq || chr_eqb c sq.
Definition not_quote (c : ascii) : bool := negb (quote c).
Definition not_rbrace (c : ascii) : bool := negb (chr_eqb c "}"%char).

(** [name\s*=\s*Q([^Q]+)Q], where [Q] stands for the class of the two
    quote characters. *)
Definition quoted_attr (name : string) : re :=
  Seq (Word (lit name))
   (Seq (Star is_space)
    (Seq (Chr "="%char)
     (Seq (Star is_space)
      (Seq (Cls quote)
       (Seq (Grp 1 (Plus not_quote)) (Cls quote)))))).

(** [\bname\s*=] *)
Definition has_attr (name : string) : re :=
  Seq Bnd (Seq (Word (lit name)) (Seq (Star is_space) (Chr "="%char))).

End Re.

(** ** Parts shared by the scripts: patterns, paths, tag reassembly *)

Module Common.
Import Py Re.

Definition re_type : re := quoted_attr "type".
Definition re_placeholder : re := quoted_attr "placeholder".
Definition re_class : re := quoted_attr "class".
Definition re_has_id : re := has_attr "id".
Definition re_has_name : re := has_attr "name".
Definition re_has_autocomplete : re := has_attr "autocomplete".

(** [\{([^}]+)\}] after [\s*=\s*] *)
Definition braced_value : re :=
  Seq (Star is_space)
   (Seq (Chr "="%char)
    (Seq (Star is_space)
     (Seq (Chr "{"%char)
      (Seq (Grp 1 (Plus not_rbrace)) (Chr "}"%char))))).

(** [(<input)(\s+)] *)
Definition re_input_ws : re :=
  Seq (Grp 1 (Word (lit "<input"))) (Grp 2 (Plus is_space)).

(** [<input\s+] and [<input\s*] *)
Definition re_input_plus : re := Seq (Word (lit "<input")) (Plus is_space).
Definition re_input_star : re := Seq (Word (lit "<input")) (Star is_space).

Definition marker : str := lit "<input".
Definition gt : str := lit ">".
Definition hidden : str := lit "hidden".

(** [s[:k] + ins + s[k:]] *)
Definition splice (k : nat) (ins s : str) : str := take k s ++ ins ++ drop k s.

(** [key="value"] *)
Definition attr (key : string) (value : str) : str :=
  lit key ++ lit "=" ++ [dq] ++ value ++ [dq].

Definition eqb_str (a b : str) : bool := bool_decide (a = b).

Definition mem (x : str) (l : list string) : bool :=
  existsb (fun y => eqb_str x (lit y)) l.

(** *** [pathlib]: the parts of a POSIX path, [Path.name], [Path.stem]
    and [Path.parent.name] *)

Definition parts (path : str) : list str :=
  filter (fun p => p <> [] /\ p <> lit ".") (split "/"%char path).

Definition path_name (path : str) : str := List.last (parts path) [].

Definition parent_name (path : str) : str :=
  List.last (removelast (parts path)) [].

(** [name.rfind('.')] as the number of characters before the last dot. *)
Fixpoint rfind_dot (s : str) : option nat :=
  match s with
  | [] => None
  | c :: s' =>
      match rfind_dot s' with
      | Some i => Some (S i)
      | None => if chr_eqb c "."%char then Some 0 else None
      end
  end.

Definition path_stem (path : str) : str :=
  let name := path_name path in
  match rfind_dot name with
  | Some i => if (0 <? i) && (i <? length name - 1) then take i name else name
  | None => name
  end.

(** *** The tag reassembler

    [grow acc i rest] is the inner [while] of the scripts that keep the
    lines of the tag in a list: [acc] holds the lines collected so far, [i]
    is the index of the last of them and [rest] the lines after it.  The
    loop stops at the first [>] or at the end of the file. *)
Fixpoint grow (acc : list str) (i : nat) (rest : list str) : list str * nat :=
  if contains gt (concat acc) then (acc, i)
  else match rest with
       | [] => (acc, i)
       | l :: rest' => grow (acc ++ [l]) (S i) rest'
       end.

(** The same loop in the scripts that keep the tag as one string and add
    [sep] and the next line to it: [sep] is the newline where the lines come
    from [split] and empty where they come from [readlines]. *)
Fixpoint grow_tag (sep : str) (tag : str) (i : nat) (rest : list str)
    : str * nat :=
  if contains gt tag then (tag, i)
  else match rest with
       | [] => (tag, i)
       | l :: rest' => grow_tag sep (tag ++ sep ++ l) (S i) rest'
       end.

(** A tag occurrence as the reassembler hands it on: the 1-based number of
    its first line, its text, and the index of its last line. *)
Record occurrence : Type := Occ {
  start_line : nat;
  text : str;
  last_idx : nat
}.

(** The reassembler at line [line = lines[i]], in its two forms. *)
Definition reassemble_list (lines : list str) (i : nat) (line : str)
    : occurrence :=
  let '(input_lines, j) := grow [line] i (drop (S i) lines) in
  Occ (i + 1) (join [nl] input_lines) j.

Definition reassemble (sep : str) (lines : list str) (i : nat) (line : str)
    : occurrence :=
  let '(input_tag, j) := grow_tag sep line i (drop (S i) lines) in
  Occ (i + 1) input_tag j.

(** The outer loop of the scripts,
    [while i < len(lines): line = lines[i]; ...], run at most [fuel] times:
    [line_at] gives the line at the index of a state, if the index is in
    range, and [body] is one pass.  Every pass moves the index forward, so
    the number of lines is fuel enough ([while_line_done]). *)
Fixpoint while_line {S : Type} (line_at : S -> option str)
    (body : S -> str -> S) (fuel : nat) (s : S) : S :=
  match fuel with
  | O => s
  | S fuel' =>
      match line_at s with
      | None => s
      | Some line => while_line line_at body fuel' (body s line)
      end
  end.

(** [lines[start + j] = new[j]] for every [j] with [start + j] in range. *)
Definition overwrite (start : nat) (new lines : list str) : list str :=
  list_inserts start new lines.

(** *** [sorted]

    A stable sort by insertion: [le x y] tells that [x] may stand before
    [y]; of two elements that may stand either way the one that came first
    stays first, as in Python. *)
Fixpoint insert_by {A : Type} (le : A -> A -> bool) (x : A) (l : list A)
    : list A :=
  match l with
  | [] => [x]
  | y :: l' => if le x y then x :: l else y :: insert_by le x l'
  end.

Fixpoint sort_by {A : Type} (le : A -> A -> bool) (l : list A) : list A :=
  match l with
  | [] => []
  | x :: l' => insert_by le x (sort_by le l')
  end.

(** [a <= b] on strings: character by character, a prefix first. *)
Fixpoint str_leb (a b : str) : bool :=
  match a, b with
  | [], _ => true
  | _ :: _, [] => false
  | x :: a', y :: b' =>
      if nat_of_ascii x <? nat_of_ascii y then true
      else if nat_of_ascii y <? nat_of_ascii x then false
      else str_leb a' b'
  end.

End Common.

(** ** Files, the console and exceptions *)

Module IO.

(** An exception with its message [str(e)]. *)
Inductive exn : Type := Exn (msg : string).

(** A file: its text, and the error that opening it for reading or for
    writing raises, if any. *)
Record file : Type := File {
  f_data : str;
  f_read_err : option exn;
  f_write_err : option exn
}.

(** The lines the scripts print. *)
Inductive message : Type :=
| Fixed (path : string) (count : nat)
| ErrorProcessing (path : string) (e : exn)
| BatchFile (path : string)
| BatchFixed (count : nat)
| BatchNotFound (path : string)
| ErrorFixing (path : string) (e : exn)
| ConsoleFixed (path : string).

Inductive effect : Type :=
| Wrote (path : string) (data : str)
| Printed (m : message).

Record world : Type := World {
  fs : gmap string file;
  trace : list effect
}.

(** A computation either raises or returns, and leaves a world. *)
Definition M (A : Type) : Type := world -> (exn + A) * world.

#[export] Instance M_ret : MRet M := fun A a w => (inr a, w).
#[export] Instance M_bind : MBind M := fun A B f m w =>
  match m w with
  | (inl e, w') => (inl e, w')
  | (inr a, w') => f a w'
  end.

Definition raise {A} (e : exn) : M A := fun w => (inl e, w).

(** [try: m except Exception as e: h e] *)
Definition try_except {A} (m : M A) (h : exn -> M A) : M A := fun w =>
  match m w with
  | (inl e, w') => h e w'
  | (inr a, w') => (inr a, w')
  end.

Definition no_such_file : exn := Exn "No such file or directory".

(** [open(path, 'r').read()] *)
Definition read_file (path : string) : M str := fun w =>
  match fs w !! path with
  | None => (inl no_such_file, w)
  | Some f =>
      match f_read_err f with
      | Some e => (inl e, w)
      | None => (inr (f_data f), w)
      end
  end.

(** [open(path, 'w').write(data)] *)
Definition write_file (path : string) (data : str) : M unit := fun w =>
  match fs w !! path with
  | None =>
      (inr (), World (<[path := File data None None]> (fs w))
                 (trace w ++ [Wrote path data]))
  | Some f =>
      match f_write_err f with
      | Some e => (inl e, w)
      | None =>
          (inr (), World (<[path := File data (f_read_err f) None]> (fs w))
                     (trace w ++ [Wrote path data]))
      end
  end.

Definition print (m : message) : M unit := fun w =>
  (inr (), World (fs w) (trace w ++ [Printed m])).

(** [os.path.exists(path)] *)
Definition path_exists (path : string) : M bool := fun w =>
  (inr (bool_decide (is_Some (fs w !! path))), w).

(** [for x in l: s = body(s, x)] *)
Fixpoint for_each {A S} (l : list A) (body : S -> A -> M S) (s : S) : M S :=
  match l with
  | [] => mret s
  | x :: l' => s' ← body s x; for_each l' body s'
  end.

(** [file.endswith('.svelte')] *)
Definition is_svelte (file : string) : bool :=
  Py.startswith (rev (Py.lit ".svelte")) (rev (Py.lit file)).

(** [os.path.join(root, file)] for a file name from [os.walk]. *)
Definition path_join (root file : string) : string :=
  if bool_decide (root = ""%string) then file
  else if Py.startswith [ "/"%char ] (rev (Py.lit root))
  then (root ++ file)%string
  else (root ++ "/" ++ file)%string.

(** The files of a directory tree in the order of [os.walk]: every
    directory with the names of its files. *)
Definition walked (tree : list (string * list string)) : list string :=
  flat_map (fun '(root, files) =>
    map (path_join root) (filter (fun f => is_svelte f = true) files)) tree.

End IO.

(** ** [comprehensive_fix.py] *)

Module ComprehensiveFix.
Import Py Re Common IO.

(** [bind:(?:value|checked)\s*=\s*\{([^}]+)\}] *)
Definition re_bind : re :=
  Seq (Word (lit "bind:"))
   (Seq (Alt (Word (lit "value")) (Word (lit "checked"))) braced_value).

Definition is_alnum (c : ascii) : bool :=
  is_upper c || is_lower c || is_digit c.
Definition is_lower_alnum (c : ascii) : bool := is_lower c || is_digit c.
Definition is_hyphen (c : ascii) : bool := chr_eqb c "-"%char.

(** The list [id_parts] before the fallback of line 65. *)
Definition id_parts (input_tag file_path : str) : list str :=
  let input_type := group1_or re_type input_tag (lit "text") in
  let placeholder := group1_or re_placeholder input_tag [] in
  let bind_var := strip_space (group1_or re_bind input_tag []) in
  let class_name := group1_or re_class input_tag [] in
  let file_name := path_stem file_path in
  let parent_dir := parent_name file_path in
  let context :=
    if mem parent_dir ["blog"; "courses"; "products"; "videos"; "boards"]%string
    then [parent_dir]
    else if negb (mem file_name ["page"; "layout"; "index"]%string)
    then [replace (lit "+") [] file_name]
    else [] in
  let meaning :=
    match bind_var with
    | _ :: _ =>
        let clean_var :=
          sub_cls (fun c => negb (is_alnum c)) (lit "-") bind_var in
        let clean_var :=
          strip is_hyphen (sub_run is_hyphen (lit "-") clean_var) in
        [clean_var]
    | [] =>
        match placeholder with
        | _ :: _ =>
            let clean_ph := take 30 (lower placeholder) in
            let clean_ph :=
              sub_run (fun c => negb (is_lower_alnum c)) (lit "-") clean_ph in
            let clean_ph := strip is_hyphen clean_ph in
            match clean_ph with
            | _ :: _ => [clean_ph]
            | [] => []
            end
        | [] =>
            (if contains (lit "search") (lower class_name)
                || contains (lit "search") (lower input_tag)
             then [lit "search"]
             else if contains (lit "filter") (lower class_name)
             then [lit "filter"]
             else if contains (lit "select") (lower class_name)
             then [lit "select"]
             else [])
            ++ [input_type]
        end
    end in
  context ++ meaning.

Definition generate_smart_id (input_tag file_path : str) (line_num : nat)
    : str * str :=
  let input_type := group1_or re_type input_tag (lit "text") in
  let parts :=
    match id_parts input_tag file_path with
    | [] => [input_type; str_of_nat line_num]
    | ps => ps
    end in
  let final_id := lower (join (lit "-") parts) in
  let final_id := sub_run is_hyphen (lit "-") final_id in
  let final_id := take 50 final_id in
  (final_id, final_id).

(** The state of the outer [while]: the lines, the index and the count. *)
Record st : Type := St {
  lines : list str;
  idx : nat;
  fixed_count : nat
}.

(** One pass of the outer loop body at a line [line = lines[i]]. *)
Definition step (file_path : str) (s : st) (line : str) : st :=
  let i := idx s in
  if contains marker line then
    let input_start := i in
    let o := reassemble_list (lines s) i line in
    let i := last_idx o in
    let full_input := text o in
    if contains hidden full_input then St (lines s) (S i) (fixed_count s)
    else
      let has_id := found re_has_id full_input in
      let has_name := found re_has_name full_input in
      if negb has_id && negb has_name then
        let '(id_val, name_val) :=
          generate_smart_id full_input file_path (start_line o) in
        match search re_input_ws full_input with
        | Some m =>
            let attrs :=
              attr "id" id_val ++ lit " " ++ attr "name" name_val ++ lit " " in
            let fixed_input := splice (m_end m) attrs full_input in
            let fixed_lines := split nl fixed_input in
            St (overwrite input_start fixed_lines (lines s)) (S i)
               (S (fixed_count s))
        | None => St (lines s) (S i) (fixed_count s)
        end
      else St (lines s) (S i) (fixed_count s)
  else St (lines s) (S i) (fixed_count s).

Definition loop (fuel : nat) (file_path : str) (s : st) : st :=
  while_line (fun s => lines s !! idx s) (step file_path) fuel s.

Definition fix_input_in_content (content file_path : str) : str * nat :=
  let lines := split nl content in
  let s := loop (length lines) file_path (St lines 0 0) in
  (join [nl] (ComprehensiveFix.lines s), fixed_count s).

Definition process_file (file_path : string) : M nat :=
  try_except
    (content ← read_file file_path;
     let '(fixed_content, count) :=
       fix_input_in_content content (lit file_path) in
     if 0 <? count then
       write_file file_path fixed_content;;
       print (Fixed file_path count);;
       mret count
     else mret count)
    (fun e => print (ErrorProcessing file_path e);; mret 0).

(** The loop of [scan_and_fix_directory] over the files that [os.walk]
    lists: the results (kept under the path of the file), the number of
    files changed and the number of tags patched. *)
Definition scan_and_fix_directory (tree : list (string * list string))
    : M (list (string * nat) * nat * nat) :=
  for_each (walked tree)
    (fun '(results, total_files, total_fixed) file_path =>
       count ← process_file file_path;
       if 0 <? count
       then mret (results ++ [(file_path, count)],
                  total_files + 1, total_fixed + count)
       else mret (results, total_files, total_fixed))
    ([], 0, 0).

End ComprehensiveFix.

(** ** [final_comprehensive_fix.py] *)

Module FinalFix.
Import Py Re Common IO.

(** [AUTOCOMPLETE_MAP['text']], in the order of its entries. *)
Definition AUTOCOMPLETE_MAP_text : list (string * string) :=
  [ ("username", "username"); ("name", "name"); ("first", "given-name");
    ("last", "family-name"); ("phone", "tel"); ("address", "street-address");
    ("city", "address-level2"); ("state", "address-level1");
    ("zip", "postal-code"); ("country", "country-name") ]%string.

Fixpoint first_key (table : list (string * string)) (id_lower : str) : str :=
  match table with
  | [] => []
  | (key, value) :: table' =>
      if contains (lit key) id_lower then lit value
      else first_key table' id_lower
  end.

Definition get_autocomplete_value (input_tag input_type id_val : str) : str :=
  if eqb_str input_type (lit "password") then
    if contains (lit "new") (lower input_tag)
       || contains (lit "confirm") (lower input_tag)
    then lit "new-password"
    else lit "current-password"
  else if eqb_str input_type (lit "email") then lit "email"
  else if eqb_str input_type (lit "tel") then lit "tel"
  else if eqb_str input_type (lit "text") then
    first_key AUTOCOMPLETE_MAP_text (lower id_val)
  else [].

(** [\bid\s*=\s*Q([^Q]+)Q] *)
Definition re_id_value : re := Seq Bnd (quoted_attr "id").

(** Lines 68 to 82: the attributes to add. *)
Definition attrs_to_add (input_tag : str) : list str :=
  let has_id := search re_id_value input_tag in
  let has_name := found re_has_name input_tag in
  let has_autocomplete := found re_has_autocomplete input_tag in
  let input_type := group1_or re_type input_tag (lit "text") in
  let id_val :=
    match has_id with
    | Some m => group 1 input_tag m
    | None => []
    end in
  (if negb has_name && negb (eqb_str id_val [])
   then [attr "name" id_val] else [])
  ++
  (if negb has_autocomplete
      && mem input_type ["password"; "email"; "tel"]%string
   then
     match get_autocomplete_value input_tag input_type id_val with
     | (_ :: _) as autocomplete_val => [attr "autocomplete" autocomplete_val]
     | [] => []
     end
   else []).

(** Lines 84 to 100: the splicer. *)
Definition insert_attrs (input_tag : str) (attrs : list str) : str :=
  match attrs with
  | [] => input_tag
  | _ :: _ =>
      match search re_id_value input_tag with
      | Some has_id =>
          splice (m_end has_id) (lit " " ++ join (lit " ") attrs) input_tag
      | None =>
          match search re_input_ws input_tag with
          | Some m =>
              splice (m_end m) (join (lit " ") attrs ++ lit " ") input_tag
          | None => input_tag
          end
      end
  end.

Definition fix_input_tag (input_tag : str) : str :=
  if contains hidden input_tag then input_tag
  else insert_attrs input_tag (attrs_to_add input_tag).

Record st : Type := St {
  lines : list str;
  idx : nat;
  fixed_count : nat
}.

Definition step (s : st) (line : str) : st :=
  let i := idx s in
  if contains marker line then
    let input_start := i in
    let o := reassemble_list (lines s) i line in
    let i := last_idx o in
    let full_input := text o in
    let fixed_input := fix_input_tag full_input in
    if negb (eqb_str fixed_input full_input) then
      St (overwrite input_start (split nl fixed_input) (lines s)) (S i)
         (S (fixed_count s))
    else St (lines s) (S i) (fixed_count s)
  else St (lines s) (S i) (fixed_count s).

Definition loop (fuel : nat) (s : st) : st :=
  while_line (fun s => lines s !! idx s) step fuel s.

(** Lines 109 to 137 of [process_file]: the new content and the count. *)
Definition fix_content (content : str) : str * nat :=
  let lines := split nl content in
  let s := loop (length lines) (St lines 0 0) in
  (join [nl] (FinalFix.lines s), fixed_count s).

Definition process_file (file_path : string) : M nat :=
  try_except
    (content ← read_file file_path;
     let '(fixed_content, fixed_count) := fix_content content in
     if 0 <? fixed_count then
       write_file file_path fixed_content;;
       print (Fixed file_path fixed_count);;
       mret fixed_count
     else mret fixed_count)
    (fun e => print (ErrorProcessing file_path e);; mret 0).

Definition scan_and_fix_directory (tree : list (string * list string))
    : M (nat * nat) :=
  for_each (walked tree)
    (fun '(total_files, total_fixed) file_path =>
       count ← process_file file_path;
       if 0 <? count
       then mret (total_files + 1, total_fixed + count)
       else mret (total_files, total_fixed))
    (0, 0).

End FinalFix.

(** ** [batch_fix_inputs.py] *)

Module BatchFix.
Import Py Re Common IO.

(** [bind:value\s*=\s*\{([^}]+)\}] *)
Definition re_bind : re := Seq (Word (lit "bind:value")) braced_value.

Definition id_char (c : ascii) : bool :=
  is_lower c || is_digit c || chr_eqb c "-"%char.
Definition is_hyphen (c : ascii) : bool := chr_eqb c "-"%char.

Definition generate_id_from_context (input_tag : str) (line_num : nat)
    (file_context : str) : str * str :=
  let input_type := group1_or re_type input_tag (lit "text") in
  let placeholder := group1_or re_placeholder input_tag [] in
  let bind_var := group1_or re_bind input_tag [] in
  let class_name := group1_or re_class input_tag [] in
  let n := str_of_nat line_num in
  let id_name :=
    match bind_var with
    | _ :: _ =>
        let clean_var :=
          replace (lit "]") []
            (replace (lit "[") (lit "-")
               (replace (lit ".") (lit "-") (strip_space bind_var))) in
        lit "input-" ++ clean_var
    | [] =>
        match placeholder with
        | _ :: _ =>
            let clean_placeholder :=
              take 30
                (replace (lit "...") []
                   (replace (lit " ") (lit "-") (lower placeholder))) in
            lit "input-" ++ clean_placeholder
        | [] =>
            if contains (lit "search") (lower class_name)
               || contains (lit "search") (lower input_tag)
            then lit "search-input-" ++ n
            else if contains (lit "checkbox") input_type
            then lit "checkbox-" ++ n
            else if contains (lit "radio") input_type
            then lit "radio-" ++ n
            else if contains (lit "date") input_type
            then lit "date-input-" ++ n
            else input_type ++ lit "-input-" ++ n
        end
    end in
  let id_name := sub_cls (fun c => negb (id_char c)) [] (lower id_name) in
  let id_name := sub_run is_hyphen (lit "-") id_name in
  let id_name := strip is_hyphen id_name in
  (id_name, id_name).

Definition fix_input_tag (input_tag id_name name_attr : str) : str :=
  let has_id := found re_has_id input_tag in
  let has_name := found re_has_name input_tag in
  if has_id && has_name then input_tag
  else
    let m :=
      match search re_input_plus input_tag with
      | Some m => Some m
      | None => search re_input_star input_tag
      end in
    match m with
    | Some m =>
        let insert_pos := m_end m in
        let attrs_to_add :=
          (if negb has_id then [attr "id" id_name] else [])
          ++ (if negb has_name then [attr "name" name_attr] else []) in
        let attrs_str := join (lit " ") attrs_to_add ++ lit " " in
        splice insert_pos attrs_str input_tag
    | None => input_tag
    end.

(** The state of the loop of [fix_file]: the index, the output lines and the
    count; the input lines are not changed. *)
Record st : Type := St {
  idx : nat;
  new_lines : list str;
  fixed_count : nat
}.

(** [new_lines[k] = x] if [k] is in range, [new_lines.append(x)]
    otherwise. *)
Definition put (k : nat) (x : str) (new_lines : list str) : list str :=
  if k <? length new_lines then <[k := x]> new_lines else new_lines ++ [x].

Fixpoint put_all (start : nat) (tag_lines new_lines : list str) : list str :=
  match tag_lines with
  | [] => new_lines
  | x :: tag_lines' => put_all (S start) tag_lines' (put start x new_lines)
  end.

Definition step (lines : list str) (content : str) (s : st) (line : str) : st :=
  let i := idx s in
  if contains marker line && negb (contains hidden line) then
    let o := reassemble [nl] lines i line in
    let start_line := i in
    let i := last_idx o in
    let input_tag := text o in
    let has_id := found re_has_id input_tag in
    let has_name := found re_has_name input_tag in
    if negb has_id && negb has_name then
      let '(id_name, name_attr) :=
        generate_id_from_context input_tag (Common.start_line o) content in
      let fixed_tag := fix_input_tag input_tag id_name name_attr in
      if negb (eqb_str fixed_tag input_tag) then
        let tag_lines := split nl fixed_tag in
        let i := start_line + length tag_lines - 1 in
        St (S i) (put_all start_line tag_lines (new_lines s))
           (S (fixed_count s))
      else St (S i) (new_lines s ++ [line]) (fixed_count s)
    else St (S i) (new_lines s ++ [line]) (fixed_count s)
  else St (S i) (new_lines s ++ [line]) (fixed_count s).

Definition loop (fuel : nat) (lines : list str) (content : str) (s : st) : st :=
  while_line (fun s => lines !! idx s) (step lines content) fuel s.

(** Lines 92 to 140 of [fix_file]: the text that would be written and the
    count. *)
Definition fix_content (content : str) : str * nat :=
  let lines := split nl content in
  let s := loop (length lines) lines content (St 0 [] 0) in
  (join [nl] (new_lines s), fixed_count s).

(** [fix_file]; the progress line printed for each patched tag is left
    out. *)
Definition fix_file (file_path : string) (dry_run : bool) : M nat :=
  content ← read_file file_path;
  let '(new_content, fixed_count) := fix_content content in
  if (0 <? fixed_count) && negb dry_run then
    write_file file_path new_content;;
    mret fixed_count
  else mret fixed_count.

(** The loop of the main program over a list of files. *)
Definition fix_files (files : list string) (dry_run : bool) : M nat :=
  for_each files
    (fun total_fixed file_path =>
       present ← path_exists file_path;
       if present : bool then
         print (BatchFile file_path);;
         count ← fix_file file_path dry_run;
         print (BatchFixed count);;
         mret (total_fixed + count)
       else
         print (BatchNotFound file_path);;
         mret total_fixed)
    0.

Definition priority_files : list string :=
  [ "src/routes/admin/courses/create/+page.svelte";
    "src/routes/admin/consent/settings/+page.svelte";
    "src/routes/admin/boards/settings/+page.svelte";
    "src/routes/admin/indicators/create/+page.svelte";
    "src/routes/admin/blog/categories/+page.svelte";
    "src/routes/admin/crm/settings/+page.svelte" ]%string.

Definition main (dry_run : bool) : M nat := fix_files priority_files dry_run.

End BatchFix.

(** ** [enhanced_scan.py] *)

Module EnhancedScan.
Import Py Re Common.

Record violation : Type := Violation {
  v_line : nat;
  v_tag : str;
  v_issues : list str
}.

Record st : Type := St {
  idx : nat;
  violations : list violation
}.

Definition issues_of (input_tag : str) : list str :=
  let has_id := found re_has_id input_tag in
  let has_name := found re_has_name input_tag in
  let has_autocomplete := found re_has_autocomplete input_tag in
  let input_type := group1_or re_type input_tag (lit "text") in
  (if negb has_id && negb has_name then [lit "missing_id_and_name"]
   else if negb has_id then [lit "missing_id"]
   else if negb has_name then [lit "missing_name"]
   else [])
  ++
  (if mem input_type ["password"; "email"; "tel"; "username"]%string
      && negb has_autocomplete
   then [lit "missing_autocomplete_" ++ input_type]
   else []).

Definition step (lines : list str) (s : st) (line : str) : st :=
  let i := idx s in
  if contains marker line then
    let o := reassemble [nl] lines i line in
    let input_tag := text o in
    let i := last_idx o in
    if contains hidden input_tag then St (S i) (violations s)
    else
      let violation :=
        Violation (start_line o)
          (if 100 <? length input_tag then take 100 input_tag ++ lit "..."
           else input_tag)
          (issues_of input_tag) in
      match v_issues violation with
      | _ :: _ => St (S i) (violations s ++ [violation])
      | [] => St (S i) (violations s)
      end
  else St (S i) (violations s).

Definition loop (fuel : nat) (lines : list str) (s : st) : st :=
  while_line (fun s => lines !! idx s) (step lines) fuel s.

(** [check_input_violations] on the text of the file. *)
Definition check_input_violations (content : str) : list violation :=
  let lines := split nl content in
  violations (loop (length lines) lines (St 0 [])).

Import IO.

(** [check_input_violations(file_path)] with the reading of the file; no
    error is caught. *)
Definition check_input_violations_in (file_path : string)
    : M (list violation) :=
  content ← read_file file_path;
  mret (check_input_violations content).

(** The loop of [scan_all_files] over the files that [os.walk] lists: the
    files with violations, kept under the path of the file. *)
Definition scan_all_files (tree : list (string * list string))
    : M (list (string * list violation)) :=
  for_each (walked tree)
    (fun results file_path =>
       violations ← check_input_violations_in file_path;
       match violations with
       | _ :: _ => mret (results ++ [(file_path, violations)])
       | [] => mret results
       end)
    [].

(** [issue in v['issues']] *)
Definition has_issue (issue : string) (v : violation) : bool :=
  existsb (eqb_str (lit issue)) (v_issues v).

(** The three lists of the main program. *)
Record categories : Type := Categories {
  missing_id_name : list (string * violation);
  missing_name_only : list (string * violation);
  missing_autocomplete : list (string * violation * str)
}.

(** The body of the loop over the violations of a file. *)
Definition categorize_violation (file_path : string) (c : categories)
    (v : violation) : categories :=
  let c :=
    if has_issue "missing_id_and_name" v
    then Categories (missing_id_name c ++ [(file_path, v)])
           (missing_name_only c) (missing_autocomplete c)
    else if has_issue "missing_name" v
    then Categories (missing_id_name c)
           (missing_name_only c ++ [(file_path, v)]) (missing_autocomplete c)
    else c in
  fold_left
    (fun c issue =>
       if contains (lit "missing_autocomplete") issue
       then Categories (missing_id_name c) (missing_name_only c)
              (missing_autocomplete c ++ [(file_path, v, issue)])
       else c)
    (v_issues v) c.

Definition categorize (results : list (string * list violation))
    : categories :=
  fold_left
    (fun c '(file_path, violations) =>
       fold_left (categorize_violation file_path) violations c)
    results (Categories [] [] []).

(** The number printed as [Total violations to fix]. *)
Definition total_violations (results : list (string * list violation))
    : nat :=
  let c := categorize results in
  length (missing_id_name c) + length (missing_name_only c)
  + length (missing_autocomplete c).

End EnhancedScan.

(** ** [fix_form_fields.py] *)

Module FixFormFields.
Import Py Re Common.

Record st : Type := St {
  idx : nat;
  violations : list (nat * str)
}.

Definition step (lines : list str) (s : st) (line : str) : st :=
  let i := idx s in
  if contains marker line then
    let o := reassemble [] lines i line in
    let input_tag := text o in
    let i := last_idx o in
    let has_id := found re_has_id input_tag in
    let has_name := found re_has_name input_tag in
    let is_hidden := contains hidden input_tag in
    if negb has_id && negb has_name && negb is_hidden
    then St (S i) (violations s ++ [(start_line o, strip_space input_tag)])
    else St (S i) (violations s)
  else St (S i) (violations s).

Definition loop (fuel : nat) (lines : list str) (s : st) : st :=
  while_line (fun s => lines !! idx s) (step lines) fuel s.

(** [find_inputs_without_id_name] on the text of the file. *)
Definition find_inputs_without_id_name (content : str) : list (nat * str) :=
  let lines := readlines content in
  violations (loop (length lines) lines (St 0 [])).

Import IO.

(** [find_inputs_without_id_name(file_path)] with the reading of the
    file; no error is caught. *)
Definition find_inputs_without_id_name_in (file_path : string)
    : M (list (nat * str)) :=
  content ← read_file file_path;
  mret (find_inputs_without_id_name content).

(** The loop of [scan_directory] over the files that [os.walk] lists: the
    files with violations, kept under the path of the file. *)
Definition scan_directory (tree : list (string * list string))
    : M (list (string * list (nat * str))) :=
  for_each (walked tree)
    (fun results file_path =>
       violations ← find_inputs_without_id_name_in file_path;
       match violations with
       | _ :: _ => mret (results ++ [(file_path, violations)])
       | [] => mret results
       end)
    [].

(** [c * 80] *)
Definition bar (c : ascii) : str := repeat c 80.

(** The page sign of the report in UTF-8, the encoding the report is
    written in. *)
Definition page_icon : str :=
  ["240"%char; "159"%char; "147"%char; "132"%char].

(** [input_tag[:100] + "..." if len(input_tag) > 100 else input_tag] *)
Definition preview (input_tag : str) : str :=
  if 100 <? length input_tag then take 100 input_tag ++ lit "..."
  else input_tag.

(** The order of [sorted(results.items())]: by path; no two items of a
    dictionary have the same path. *)
Definition by_path (a b : string * list (nat * str)) : bool :=
  str_leb (lit (fst a)) (lit (fst b)).

(** The list [report] of [generate_report]. *)
Definition report_lines (results : list (string * list (nat * str)))
    : list str :=
  let total_violations :=
    list_sum (map (fun '(_, v) => length v) results) in
  [ bar "="%char; lit "FORM FIELD ACCESSIBILITY VIOLATIONS REPORT";
    bar "="%char; [];
    lit "Total Files with Violations: " ++ str_of_nat (length results);
    lit "Total Input Fields Missing id/name: "
    ++ str_of_nat total_violations;
    []; bar "="%char; [] ]
  ++ flat_map
       (fun '(file_path, violations) =>
          [ [nl] ++ page_icon ++ lit " " ++ lit file_path;
            lit "   Violations: " ++ str_of_nat (length violations);
            bar "-"%char ]
          ++ flat_map
               (fun '(line_num, input_tag) =>
                  [ lit "   Line " ++ str_of_nat line_num ++ lit ":";
                    lit "   " ++ preview input_tag;
                    [] ])
               violations)
       (sort_by by_path results).

Definition generate_report (results : list (string * list (nat * str)))
    : str :=
  join [nl] (report_lines results).

(** The order of the list of priority files: more violations first. *)
Definition by_count (a b : string * list (nat * str)) : bool :=
  length (snd b) <=? length (snd a).

(** [sorted(results.items(), key=lambda x: len(x[1]), reverse=True)[:10]] *)
Definition priority_files (results : list (string * list (nat * str)))
    : list (string * list (nat * str)) :=
  take 10 (sort_by by_count results).

End FixFormFields.

(** ** [fix_console.py] *)

Module FixConsole.
Import Py Re Common IO.

Definition import_line : str :=
  lit "import { logger } from '$lib/utils/logger';".

Definition has_logger_import (content : str) : bool :=
  contains (lit "from '$lib/utils/logger'") content
  || contains (lit "from " ++ [dq] ++ lit "$lib/utils/logger" ++ [dq]) content.

(** The index of the last line that starts with [import ] once stripped. *)
Fixpoint last_import_idx (i : nat) (lines : list str) (last : option nat)
    : option nat :=
  match lines with
  | [] => last
  | line :: lines' =>
      last_import_idx (S i) lines'
        (if startswith (lit "import ") (strip_space line)
         then Some i else last)
  end.

(** [lines.insert(k, x)] for [k] within the list. *)
Definition insert_at (k : nat) (x : str) (lines : list str) : list str :=
  take k lines ++ x :: drop k lines.

Definition add_logger_import (content : str) : str :=
  let lines := split nl content in
  match last_import_idx 0 lines None with
  | Some i => join [nl] (insert_at (i + 1) import_line lines)
  | None => join [nl] (insert_at 0 import_line lines)
  end.

Definition replace_console_statements (content : str) : str :=
  let content := replace (lit "console.debug(") (lit "logger.debug(") content in
  let content := replace (lit "console.error(") (lit "logger.error(") content in
  let content := replace (lit "console.warn(") (lit "logger.warn(") content in
  let content := replace (lit "console.info(") (lit "logger.info(") content in
  let content := replace (lit "console.log(") (lit "logger.info(") content in
  content.

(** [console\.(debug|error|warn|info|log)\(] *)
Definition re_console : re :=
  Seq (Word (lit "console."))
   (Seq (Grp 1 (Alt (Word (lit "debug"))
                (Alt (Word (lit "error"))
                 (Alt (Word (lit "warn"))
                  (Alt (Word (lit "info")) (Word (lit "log")))))))
        (Chr "("%char)).

(** Lines 69 to 78 of [fix_file]: the text to write back, if any. *)
Definition rewrite (content : str) : option str :=
  if negb (found re_console content) then None
  else
    let content :=
      if negb (has_logger_import content) then add_logger_import content
      else content in
    Some (replace_console_statements content).

Definition fix_file (filepath : string) : M bool :=
  try_except
    (content ← read_file filepath;
     match rewrite content with
     | None => mret false
     | Some content =>
         write_file filepath content;;
         mret true
     end)
    (fun e => print (ErrorFixing filepath e);; mret false).

(** The loop of [main] over the files found. *)
Definition fix_all (files : list string) : M nat :=
  for_each files
    (fun fixed filepath =>
       ok ← fix_file filepath;
       if ok : bool then print (ConsoleFixed filepath);; mret (fixed + 1)
       else mret fixed)
    0.

(** The directory of the project, with which the linter starts the lines
    that name a file. *)
Definition frontend_dir : str :=
  lit "/Users/billyribeiro/Documents/Revolution-trading-pros/frontend/".

(** [files.add(x)], the set kept as a list without repetitions. *)
Definition set_add (x : str) (files : list str) : list str :=
  if bool_decide (x ∈ files) then files else files ++ [x].

(** [get_files_with_console] on what the linter has printed: the lines of
    [stdout], then those of [stderr]. *)
Definition get_files_with_console (stdout stderr : str) : M (list string) :=
  files ← for_each (split nl stdout ++ split nl stderr)
    (fun files line =>
       if startswith frontend_dir line then
         let filepath := strip_space line in
         let rel_path := replace frontend_dir [] filepath in
         match rel_path with
         | _ :: _ =>
             present ← path_exists (string_of_list_ascii rel_path);
             if present : bool then mret (set_add rel_path files)
             else mret files
         | [] => mret files
         end
       else mret files)
    [];
  mret (map string_of_list_ascii (sort_by str_leb files)).

(** [main], without the lines it prints around the loop. *)
Definition main (stdout stderr : str) : M nat :=
  files ← get_files_with_console stdout stderr;
  fix_all files.

End FixConsole.

(** ** Notions used to state the properties, and sample files *)

Module Cases.
Import Py Re Common IO.

(** [w] occurs in [s] in some mix of upper and lower case. *)
Definition occurs_nocase (w s : str) : Prop :=
  exists a m b, s = a ++ m ++ b /\ lower m = w.

(** The effects that are writes of a file. *)
Definition is_write (e : effect) : bool :=
  match e with
  | Wrote _ _ => true
  | Printed _ => false
  end.

(** A tag that is patched and, after it, a tag whose [id] stands on a
    line of its own. *)
Definition two_tags : str :=
  lit "<input type='text'>" ++ [nl]
  ++ lit "<input" ++ [nl]
  ++ lit "  id='a'" ++ [nl]
  ++ lit ">".

(** A hidden input whose [type] stands on the second line of the tag. *)
Definition hidden_on_second_line : str :=
  lit "<input" ++ [nl] ++ lit "  type='hidden' value='x'>".

(** The first of the files of [batch_fix_inputs.py] cannot be read, the
    second holds a tag to patch. *)
Definition unreadable_first : world :=
  World
    (<["src/routes/admin/courses/create/+page.svelte"%string
         := File [] (Some (Exn "Permission denied")) None]>
     (<["src/routes/admin/consent/settings/+page.svelte"%string
          := File (lit "<input type='text'>") None None]> ∅))
    [].

(** A tag whose [id] has a newline in its value, and a line after it. *)
Definition id_over_two_lines : str :=
  lit "<input id='a" ++ [nl] ++ lit "b'>" ++ [nl] ++ lit "KEEP".

(** Runs of whitespace, and text that does not go on with whitespace. *)
Definition spaces (ws : str) : Prop := Forall (fun c => is_space c = true) ws.
Definition no_space_ahead (post : str) : Prop :=
  forall c, head post = Some c -> is_space c = false.

(** [a] is an [id] attribute with a quoted, non-empty value: [id], blanks,
    [=], blanks, a quote, the value, a quote. *)
Definition id_attribute (a : str) : Prop :=
  exists ws1 ws2 q1 v q2,
    a = lit "id" ++ ws1 ++ lit "=" ++ ws2 ++ [q1] ++ v ++ [q2]
    /\ spaces ws1 /\ spaces ws2 /\ quote q1 = true /\ quote q2 = true
    /\ v <> [] /\ Forall (fun c => quote c = false) v.

(** [tag] is [pre], then the [id] attribute [a] as a word of its own, then
    [post]. *)
Definition id_attribute_at (tag pre a post : str) : Prop :=
  tag = pre ++ a ++ post /\ id_attribute a /\ word_opt (last pre) = false.

Definition has_quoted_id (tag : str) : Prop :=
  exists pre a post, id_attribute_at tag pre a post.

(** [tag] is [pre], then the opening marker and the whole run [ws] of
    whitespace after it, then [post]. *)
Definition marker_at (tag pre ws post : str) : Prop :=
  tag = pre ++ marker ++ ws ++ post /\ spaces ws /\ no_space_ahead post.

(** Some opening marker of [tag] is followed by whitespace. *)
Definition has_marker_space (tag : str) : Prop :=
  exists pre c post, tag = pre ++ marker ++ c :: post /\ is_space c = true.

(** [tag] has the attribute [name]: the name as a word of its own (or the
    end of one), blanks, [=]. *)
Definition has_attribute (name : string) (tag : str) : Prop :=
  exists pre ws post,
    tag = pre ++ lit name ++ ws ++ lit "=" ++ post
    /\ spaces ws /\ word_opt (last pre) = false.

(** The tokens that the splicer of [batch_fix_inputs.py] adds to a tag:
    an [id] and a [name], each only if the tag has none. *)
Definition batch_tokens (tag id_name name_attr : str) (toks : list str)
    : Prop :=
  (has_attribute "id" tag /\ ~ has_attribute "name" tag
   /\ toks = [attr "name" name_attr])
  \/ (~ has_attribute "id" tag /\ has_attribute "name" tag
      /\ toks = [attr "id" id_name])
  \/ (~ has_attribute "id" tag /\ ~ has_attribute "name" tag
      /\ toks = [attr "id" id_name; attr "name" name_attr]).


(** The number of places of [s] where [p] starts. *)
Fixpoint count (p s : str) : nat :=
  match s with
  | [] => 0
  | _ :: s' => (if startswith p s then 1 else 0) + count p s'
  end.

(** A line that [add_logger_import] takes for an import. *)
Definition is_import (line : str) : Prop :=
  startswith (lit "import ") (strip_space line) = true.

(** The opening parenthesis, which ends every pattern of the console-call
    rewriter and every text it puts in. *)
Definition lp : ascii := "("%char.

(** What the replacement of the word [w] by [v] makes of a chunk [u]. *)
Definition chunk_out (w v u : str) : str :=
  if decide (w `suffix_of` u) then take (length u - length w) u ++ v else u.

(** Neither word ends with the other. *)
Definition incomparable (x y : str) : Prop :=
  ~ x `suffix_of` y /\ ~ y `suffix_of` x.

(** A script with two imports and three calls of [console.log]. *)
Definition three_logs : str :=
  lit "import a from 'a';" ++ [nl]
  ++ lit "import b from 'b';" ++ [nl]
  ++ lit "console.log(1);" ++ [nl]
  ++ lit "console.log(a, b);" ++ [nl]
  ++ lit "export const f = () => console.log('f');".

(** The lines of a state are lines: as many as the file had, none with a
    newline in it. *)
Definition lines_of (n : nat) (lines : list str) : Prop :=
  length lines = n /\ Forall (fun l => nl ∉ l) lines.

(** The shape of an identifier: lowercase, no two hyphens in a row, no
    hyphen at either end. *)
Definition no_double_hyphen (s : str) : Prop := contains (lit "--") s = false.
Definition no_edge_hyphen (s : str) : Prop :=
  head s <> Some "-"%char /\ last s <> Some "-"%char.

(** A tag bound to a long expression, in a page of its own directory. *)
Definition long_binding : str :=
  lit "<input type='text' bind:value={"
  ++ lit "billingAddressFormValidationStateForCheckout.postalCode"
  ++ lit "}>".
Definition checkout_page : str := lit "src/routes/checkout/+page.svelte".

(** A tag whose [type] has a newline in its value, and a line after it. *)
Definition type_over_two_lines : str :=
  lit "<input type='a" ++ [nl] ++ lit "b'>" ++ [nl] ++ lit "KEEP".

(** A file whose only tag has its [id] and [name]. *)
Definition compliant_file : world :=
  World
    (<["src/routes/login/+page.svelte"%string
         := File (lit "<input id='user' name='user' type='text'>")
              None None]> ∅)
    [].

(** The number of lines that have the opening marker. *)
Definition marker_lines (lines : list str) : nat :=
  length (filter (fun l => contains marker l = true) lines).

(** What holds of a reported line number [n]: it is the number of a line
    of the file that has the marker. *)
Definition marker_line_number (lines : list str) (n : nat) : Prop :=
  1 <= n /\ exists l, lines !! (n - 1) = Some l /\ contains marker l = true.

(** What a scan has reported when it stands at the index [idx]: line
    numbers behind the index, in the order of the lines, at most one for a
    line with the marker. *)
Definition scanned (lines : list str) (idx : nat) (ns : list nat) : Prop :=
  Forall (fun n => n <= idx /\ marker_line_number lines n) ns
  /\ StronglySorted lt ns
  /\ length ns <= marker_lines (take idx lines).

(** The paths of the files written, in the order of the writes. *)
Fixpoint written (t : list effect) : list string :=
  match t with
  | [] => []
  | Wrote path _ :: t' => path :: written t'
  | Printed _ :: t' => written t'
  end.

(** The counts of the lines [... Fixed n inputs] printed by the two
    directory scans. *)
Fixpoint fixed_counts (t : list effect) : list nat :=
  match t with
  | [] => []
  | Printed (Fixed _ count) :: t' => count :: fixed_counts t'
  | _ :: t' => fixed_counts t'
  end.

(** The paths of the lines [Fixed: ...] printed by [fix_console.py]. *)
Fixpoint console_fixed (t : list effect) : list string :=
  match t with
  | [] => []
  | Printed (ConsoleFixed path) :: t' => path :: console_fixed t'
  | _ :: t' => console_fixed t'
  end.

(** From [w] to [w'] no file was created or removed, and no file but
    [path] has changed. *)
Definition touches_only (path : string) (w w' : world) : Prop :=
  dom (fs w') = dom (fs w)
  /\ forall p, p <> path -> fs w' !! p = fs w !! p.

(** A template without input tags. *)
Definition plain_form : str := lit "<form>" ++ [nl] ++ lit "</form>".

(** Four lines of a template, the tag on the last three. *)
Definition tag_on_three_lines : list str :=
  [lit "<form>"; lit "<input"; lit "  type='text'"; lit "  class='a'>"].

(** A tag that starts on the line closes on it. *)
Definition closes_on_line (l : str) : Prop :=
  contains marker l = true -> contains gt l = true.

(** What the loop of [batch_fix_inputs.py] makes of the line of index [i]
    when the tag closes on the line: the patched line, if it patches.  The
    text of the file, which the synthesizer is given and does not read, is
    left empty. *)
Definition batch_line (i : nat) (l : str) : option str :=
  if contains marker l && negb (contains hidden l) then
    if negb (found re_has_id l) && negb (found re_has_name l) then
      let '(id_name, name_attr) :=
        BatchFix.generate_id_from_context l (i + 1) [] in
      let fixed_tag := BatchFix.fix_input_tag l id_name name_attr in
      if negb (eqb_str fixed_tag l) then Some fixed_tag else None
    else None
  else None.

(** The lines and the count that come of the lines [ls], the first of
    which has the index [i]. *)
Fixpoint batch_lines (i : nat) (ls : list str) : list str * nat :=
  match ls with
  | [] => ([], 0)
  | l :: ls' =>
      let '(out, count) := batch_lines (S i) ls' in
      match batch_line i l with
      | Some fixed_tag => (fixed_tag :: out, S count)
      | None => (l :: out, count)
      end
  end.

(** A template whose only tag closes on its line. *)
Definition closed_tags : str :=
  lit "<form>" ++ [nl] ++ lit "<input type='text'>" ++ [nl] ++ lit "</form>".

(** A tag without any attribute, one of the type that only the scan knows,
    and one that lacks a [name] and an [autocomplete]. *)
Definition bare_input : str := lit "<input>".
Definition username_field : str := lit "<input id='user' type='username'>".
Definition email_field : str := lit "<input id='mail' type='email'>".

(** The file at [path] can be read in [w]. *)
Definition readable (w : world) (path : string) : Prop :=
  exists content, read_file path w = (inr content, w).

(** The number of issues in the results of a scan, and the number of
    violations among them that have the issue [missing_id]. *)
Definition issues_reported
    (results : list (string * list EnhancedScan.violation)) : nat :=
  list_sum
    (map (fun '(_, vs) =>
            list_sum (map (fun v => length (EnhancedScan.v_issues v)) vs))
       results).

Definition only_id_missing
    (results : list (string * list EnhancedScan.violation)) : nat :=
  list_sum
    (map (fun '(_, vs) =>
            length
              (filter (fun v => EnhancedScan.has_issue "missing_id" v = true)
                 vs))
       results).

(** A file whose only tag has a [name] and no [id]. *)
Definition name_only_tree : list (string * list string) :=
  [("src/routes"%string, ["+page.svelte"%string])].
Definition name_only_file : world :=
  World
    (<["src/routes/+page.svelte"%string
         := File (lit "<input name='q' type='text'>") None None]> ∅)
    [].

(** The issues that the main program puts into its third list. *)
Definition autocomplete_issues (issues : list str) : nat :=
  length (filter (fun i => contains (lit "missing_autocomplete") i = true)
            issues).

(** Two files with violations, the second with more. *)
Definition two_reports : list (string * list (nat * str)) :=
  [ ("src/routes/b/+page.svelte"%string, [(3, lit "<input type='text'>")]);
    ("src/routes/a/+page.svelte"%string,
     [(1, lit "<input>"); (7, lit "<input type='checkbox'>")]) ].

(** The files gathered from the lines: none twice, none empty, all there. *)
Definition gathered (w : world) (files : list str) : Prop :=
  NoDup files
  /\ Forall (fun p => p <> [] /\ is_Some (fs w !! string_of_list_ascii p))
       files.

(** A page of the blog. *)
Definition blog_page : str := lit "src/routes/blog/+page.svelte".

(** Text of ASCII characters only.  On such text the character classes of
    the regular expressions, [str.lower] and the lengths are those of
    Python. *)
Definition is_ascii (c : ascii) : bool := nat_of_ascii c <? 128.
Definition ascii_text (s : str) : Prop := forallb is_ascii s = true.




(** What [comprehensive_fix.py] makes of the tag [full_input] that starts
    at the line of number [line_num]: the patched tag, if it patches. *)
Definition comprehensive_patch (full_input file_path : str) (line_num : nat)
    : option str :=
  if contains hidden full_input then None
  else if negb (found re_has_id full_input)
          && negb (found re_has_name full_input)
  then
    let '(id_val, name_val) :=
      ComprehensiveFix.generate_smart_id full_input file_path line_num in
    match search re_input_ws full_input with
    | Some m =>
        Some (splice (m_end m)
                (attr "id" id_val ++ lit " " ++ attr "name" name_val
                 ++ lit " ")
                full_input)
    | None => None
    end
  else None.





End Cases.

(** * Properties *)

(** ** Facts about the string operations *)

Module PyFacts.
Import Py Cases.

Lemma chr_eqb_eq (a b : ascii) : chr_eqb a b = true <-> a = b.
Proof. apply Ascii.eqb_eq. Qed.

Lemma chr_eqb_refl (a : ascii) : chr_eqb a a = true.
Proof. apply Ascii.eqb_refl. Qed.

Lemma chr_eqb_neq (a b : ascii) : chr_eqb a b = false <-> a <> b.
Proof. apply Ascii.eqb_neq. Qed.

Lemma startswith_spec (p s : str) :
  startswith p s = true <-> exists b, s = p ++ b.
Proof.
  revert s. induction p as [|a p IH]; intros s; simpl.
  - split; eauto.
  - destruct s as [|c s]; simpl.
    + split; [discriminate | intros [b Hb]; discriminate].
    + rewrite andb_true_iff, chr_eqb_eq, IH. split.
      * intros [-> [b ->]]. eauto.
      * intros [b Hb]. injection Hb as -> ->. eauto.
Qed.

Lemma startswith_app (p b : str) : startswith p (p ++ b) = true.
Proof. apply startswith_spec. eauto. Qed.

Lemma startswith_length (p s : str) :
  startswith p s = true -> length p <= length s.
Proof.
  intros [b ->]%startswith_spec. rewrite length_app. lia.
Qed.

Lemma contains_spec (p s : str) :
  contains p s = true <-> exists a b, s = a ++ p ++ b.
Proof.
  induction s as [|c s IH]; simpl.
  - rewrite orb_false_r, startswith_spec. split.
    + intros [b Hb]. exists [], b. exact Hb.
    + intros (a & b & Hab). destruct a; simpl in Hab; [eauto | discriminate].
  - rewrite orb_true_iff, startswith_spec, IH. split.
    + intros [[b Hb] | (a & b & ->)].
      * exists [], b. exact Hb.
      * exists (c :: a), b. reflexivity.
    + intros (a & b & Hab). destruct a as [|c' a]; simpl in Hab.
      * left. eauto.
      * right. injection Hab as -> ->. eauto.
Qed.

Lemma contains_app_l (p a b : str) :
  contains p a = true -> contains p (a ++ b) = true.
Proof.
  rewrite !contains_spec. intros (x & y & ->).
  exists x, (y ++ b). by rewrite <- !app_assoc.
Qed.

Lemma contains_app_r (p a b : str) :
  contains p b = true -> contains p (a ++ b) = true.
Proof.
  rewrite !contains_spec. intros (x & y & ->).
  exists (a ++ x), y. by rewrite <- !app_assoc.
Qed.

(** A one-character pattern is in a concatenation exactly when it is in one
    of the two parts. *)
Lemma contains_chr_app (c : ascii) (a b : str) :
  contains [c] (a ++ b) = contains [c] a || contains [c] b.
Proof.
  induction a as [|x a IH]; simpl.
  - destruct b; reflexivity.
  - rewrite IH. rewrite !andb_true_r. by rewrite orb_assoc.
Qed.

Lemma contains_chr_cons (c x : ascii) (a : str) :
  contains [c] (x :: a) = chr_eqb c x || contains [c] a.
Proof. simpl. by rewrite andb_true_r. Qed.

Lemma contains_lower (w s : str) :
  contains w (lower s) = true <-> occurs_nocase w s.
Proof.
  rewrite contains_spec. unfold occurs_nocase, lower. split.
  - intros (a & b & H).
    apply map_eq_app in H as (a' & r & -> & <- & H).
    apply map_eq_app in H as (m & b' & -> & <- & <-).
    exists a', m, b'. done.
  - intros (a & m & b & -> & <-).
    exists (map lower_chr a), (map lower_chr b). by rewrite !map_app.
Qed.

(** On ASCII text [s.strip()] strips the whitespace of ASCII. *)
Lemma space2_ascii (a b : ascii) : is_ascii a = true -> space2 a b = false.
Proof.
  destruct a as [[] [] [] [] [] [] [] []]; intros H;
    first [reflexivity | discriminate H].
Qed.

Lemma space3_ascii (a b c : ascii) :
  is_ascii a = true -> space3 a b c = false.
Proof.
  destruct a as [[] [] [] [] [] [] [] []]; intros H;
    first [reflexivity | discriminate H].
Qed.

Lemma lstrip_wide_ascii p2 p3 (s : str) :
  (forall a b, is_ascii a = true -> is_ascii b = true ->
     p2 a b = false) ->
  (forall a b c, is_ascii a = true -> is_ascii c = true ->
     p3 a b c = false) ->
  ascii_text s -> lstrip_wide p2 p3 s = lstrip is_space s.
Proof.
  intros H2 H3. unfold ascii_text.
  induction s as [|a s IH]; [reflexivity|]. cbn [forallb lstrip_wide lstrip].
  intros [Ha Hs]%andb_prop. destruct (is_space a); [by apply IH|].
  destruct s as [|b s]; [reflexivity|].
  cbn [forallb] in Hs. apply andb_prop in Hs as [Hb Hs].
  rewrite (H2 a b Ha Hb). destruct s as [|c s]; [reflexivity|].
  cbn [forallb] in Hs. apply andb_prop in Hs as [Hc Hs].
  by rewrite (H3 a b c Ha Hc).
Qed.

Lemma strip_space_ascii (s : str) :
  ascii_text s -> strip_space s = strip is_space s.
Proof.
  intros Hs. unfold strip_space, strip, lstrip_space, rstrip_space, rstrip.
  rewrite (lstrip_wide_ascii space2 space3 s); [| | |exact Hs].
  - rewrite lstrip_wide_ascii; [reflexivity| | |].
    + intros a b _ Hb. by apply space2_ascii.
    + intros a b c _ Hc. by apply space3_ascii.
    + unfold ascii_text in *. rewrite forallb_forall in *.
      intros c Hc%in_rev. apply Hs. clear Hs.
      induction s as [|a s IH]; [done|]. simpl in *.
      destruct (is_space a); [right; by apply IH | exact Hc].
  - intros a b Ha _. by apply space2_ascii.
  - intros a b c Ha _. by apply space3_ascii.
Qed.

End PyFacts.

(** ** The autocomplete resolver *)

Module ResolverFacts.
Import Py Re Common FinalFix Cases PyFacts.

(** C3.  For type [password] the resolver returns [new-password] exactly
    when [new] or [confirm] occurs in the tag in any mix of case, and
    [current-password] otherwise; for [email] it returns [email] and for
    [tel] it returns [tel]. *)
Theorem resolver_password_email_tel (input_tag id_val : str) :
  (get_autocomplete_value input_tag (lit "password") id_val = lit "new-password"
     <-> occurs_nocase (lit "new") input_tag
         \/ occurs_nocase (lit "confirm") input_tag)
  /\ (get_autocomplete_value input_tag (lit "password") id_val
        = lit "current-password"
     <-> ~ (occurs_nocase (lit "new") input_tag
            \/ occurs_nocase (lit "confirm") input_tag))
  /\ get_autocomplete_value input_tag (lit "email") id_val = lit "email"
  /\ get_autocomplete_value input_tag (lit "tel") id_val = lit "tel".
Proof.
  rewrite <- !contains_lower.
  unfold get_autocomplete_value.
  change (eqb_str (lit "password") (lit "password")) with true.
  change (eqb_str (lit "email") (lit "password")) with false.
  change (eqb_str (lit "email") (lit "email")) with true.
  change (eqb_str (lit "tel") (lit "password")) with false.
  change (eqb_str (lit "tel") (lit "email")) with false.
  change (eqb_str (lit "tel") (lit "tel")) with true.
  cbv iota.
  destruct (contains (lit "new") (lower input_tag));
    destruct (contains (lit "confirm") (lower input_tag)); simpl;
    (split; [|split; [|split]]); try reflexivity;
    (split; [intros H | intros H]); try reflexivity; try discriminate H;
    try (left; reflexivity); try (right; reflexivity);
    try (intros [H'|H']; discriminate H');
    try (exfalso; apply H; auto; fail);
    try (destruct H as [H|H]; discriminate H).
Qed.

(** The two tags of the specification. *)
Example resolver_confirm_password :
  get_autocomplete_value
    (lit "<input type='password' bind:value={confirmPassword}>")
    (lit "password") [] = lit "new-password".
Proof. reflexivity. Qed.

Example resolver_plain_password :
  get_autocomplete_value
    (lit "<input type='password' bind:value={password}>")
    (lit "password") [] = lit "current-password".
Proof. reflexivity. Qed.

End ResolverFacts.

(** ** The tag reassembler *)

Module ReassemblerFacts.
Import Py Re Common PyFacts.

Lemma gt_in_app (a b : str) :
  contains gt (a ++ b) = contains gt a || contains gt b.
Proof. apply contains_chr_app. Qed.

Lemma gt_not_nl : contains gt [nl] = false.
Proof. reflexivity. Qed.




Lemma grow_tag_stop (sep tag : str) (i : nat) (rest : list str) :
  contains gt tag = true -> grow_tag sep tag i rest = (tag, i).
Proof. intros H. destruct rest; simpl; by rewrite H. Qed.



(** Lines without the marker are passed over one by one, so a scanner
    comes to the first line that has the marker. *)
Lemma enhanced_scan_skips (lines : list str) (n i : nat) vs :
  (forall j l, i <= j < i + n -> lines !! j = Some l ->
     contains marker l = false) ->
  i + n <= length lines ->
  EnhancedScan.loop n lines (EnhancedScan.St i vs) = EnhancedScan.St (i + n) vs.
Proof.
  unfold EnhancedScan.loop. revert i.
  induction n as [|n IH]; intros i Hfree Hlen; simpl.
  - by rewrite Nat.add_0_r.
  - destruct (lookup_lt_is_Some_2 lines i) as [l Hl]; [lia|]. rewrite Hl.
    unfold EnhancedScan.step at 2. simpl.
    rewrite (Hfree i l) by (done || lia).
    replace (i + S n) with (S i + n) by lia. apply IH; [|lia].
    intros j l' Hj. apply Hfree. lia.
Qed.

Lemma form_fields_scan_skips (lines : list str) (n i : nat) vs :
  (forall j l, i <= j < i + n -> lines !! j = Some l ->
     contains marker l = false) ->
  i + n <= length lines ->
  FixFormFields.loop n lines (FixFormFields.St i vs)
  = FixFormFields.St (i + n) vs.
Proof.
  unfold FixFormFields.loop. revert i.
  induction n as [|n IH]; intros i Hfree Hlen; simpl.
  - by rewrite Nat.add_0_r.
  - destruct (lookup_lt_is_Some_2 lines i) as [l Hl]; [lia|]. rewrite Hl.
    unfold FixFormFields.step at 2. simpl.
    rewrite (Hfree i l) by (done || lia).
    replace (i + S n) with (S i + n) by lia. apply IH; [|lia].
    intros j l' Hj. apply Hfree. lia.
Qed.

End ReassemblerFacts.

(** ** Runs of the patchers on given files *)

Module Runs.
Import Py Re Common IO Cases.

(** C1.  [batch_fix_inputs.py] is not idempotent: the first run over
    [two_tags] patches the first tag and writes only the first line of the
    second one, so the second run finds a tag without [id] and [name] and
    patches again. *)
Theorem batch_second_run_patches :
  let first := BatchFix.fix_content two_tags in
  let second := BatchFix.fix_content (fst first) in
  fst first
    = lit "<input id=" ++ [dq] ++ lit "text-input-1" ++ [dq]
      ++ lit " name=" ++ [dq] ++ lit "text-input-1" ++ [dq]
      ++ lit " type='text'>" ++ [nl] ++ lit "<input"
  /\ snd first = 1
  /\ snd second = 1
  /\ fst second <> fst first.
Proof. vm_compute. repeat split. discriminate. Qed.

(** C2.  [batch_fix_inputs.py] looks for [hidden] on the first line of the
    tag only and patches a tag that has it further down; the two other
    patchers leave the tag as it is. *)
Theorem batch_patches_hidden_tag :
  contains hidden
    (text (reassemble [nl] (split nl hidden_on_second_line) 0 (lit "<input")))
    = true
  /\ BatchFix.fix_content hidden_on_second_line
     = (lit "<input" ++ [nl]
        ++ lit "  id=" ++ [dq] ++ lit "hidden-input-1" ++ [dq]
        ++ lit " name=" ++ [dq] ++ lit "hidden-input-1" ++ [dq]
        ++ lit " type='hidden' value='x'>", 1)
  /\ ComprehensiveFix.fix_input_in_content hidden_on_second_line
       (lit "src/routes/+page.svelte") = (hidden_on_second_line, 0)
  /\ FinalFix.fix_content hidden_on_second_line = (hidden_on_second_line, 0).
Proof. vm_compute. repeat split. Qed.

(** C4.  The main loop of [batch_fix_inputs.py] does not catch: the error of
    the first file ends the run, and the second file is neither patched nor
    reported. *)
Theorem batch_run_aborts :
  let '(r, w) := BatchFix.main false unreadable_first in
  r = inl (Exn "Permission denied")
  /\ f_data <$> fs w !! "src/routes/admin/consent/settings/+page.svelte"%string
     = Some (lit "<input type='text'>")
  /\ trace w
     = [Printed (BatchFile "src/routes/admin/courses/create/+page.svelte")].
Proof. vm_compute. repeat split. Qed.

(** C10.  The [name] that [final_comprehensive_fix.py] adds repeats the
    value of [id]; with a newline in it the patched tag has one line more
    than the tag had, and the line after the tag is overwritten.  The same
    happens in [comprehensive_fix.py] with a newline in the value of
    [type], which goes into the identifier. *)
Theorem final_overwrites_next_line :
  split nl id_over_two_lines !! 2 = Some (lit "KEEP")
  /\ split nl (fst (FinalFix.fix_content id_over_two_lines)) !! 2
     = Some (lit "b" ++ [dq] ++ lit ">")
  /\ fst (FinalFix.fix_content id_over_two_lines)
     = lit "<input id='a" ++ [nl]
       ++ lit "b' name=" ++ [dq] ++ lit "a" ++ [nl]
       ++ lit "b" ++ [dq] ++ lit ">"
  /\ split nl type_over_two_lines !! 2 = Some (lit "KEEP")
  /\ split nl (fst (ComprehensiveFix.fix_input_in_content type_over_two_lines
                      (lit "src/routes/+page.svelte"))) !! 2
     = Some (lit "b" ++ [dq] ++ lit " type='a").
Proof. vm_compute. repeat split. Qed.

End Runs.

(** ** Writing and failing *)

Module FileFacts.
Import Py Re Common IO Cases.

Lemma read_file_world (path : string) (w w' : world) r :
  read_file path w = (r, w') -> w' = w.
Proof.
  unfold read_file. intros H.
  destruct (fs w !! path) as [f|]; [destruct (f_read_err f)|];
    by injection H as _ <-.
Qed.

(** C8.  A file that was read and in which no tag changed is not written:
    the three patchers return 0 and leave the files and the trace of
    effects as they were.  Whatever the patchers write, they write after a
    count above zero. *)
Theorem unchanged_file_not_rewritten (path : string) (w : world)
    (content : str) :
  read_file path w = (inr content, w) ->
  (snd (ComprehensiveFix.fix_input_in_content content (lit path)) = 0 ->
     ComprehensiveFix.process_file path w = (inr 0, w))
  /\ (snd (FinalFix.fix_content content) = 0 ->
        FinalFix.process_file path w = (inr 0, w))
  /\ (forall dry_run,
        snd (BatchFix.fix_content content) = 0 ->
        BatchFix.fix_file path dry_run w = (inr 0, w))
  /\ (forall e,
        In e (trace (snd (ComprehensiveFix.process_file path w))) ->
        is_write e = true ->
        In e (trace w)
        \/ 0 < snd (ComprehensiveFix.fix_input_in_content content (lit path)))
  /\ (forall e,
        In e (trace (snd (FinalFix.process_file path w))) ->
        is_write e = true ->
        In e (trace w) \/ 0 < snd (FinalFix.fix_content content))
  /\ (forall dry_run e,
        In e (trace (snd (BatchFix.fix_file path dry_run w))) ->
        is_write e = true ->
        In e (trace w)
        \/ (0 < snd (BatchFix.fix_content content) /\ dry_run = false)).
Proof.
  intros Hr.
  unfold ComprehensiveFix.process_file, FinalFix.process_file,
    BatchFix.fix_file, try_except, mbind, M_bind, mret, M_ret.
  rewrite Hr.
  destruct (ComprehensiveFix.fix_input_in_content content (lit path))
    as [c1 n1].
  destruct (FinalFix.fix_content content) as [c2 n2].
  destruct (BatchFix.fix_content content) as [c3 n3].
  simpl. repeat split.
  - by intros ->.
  - by intros ->.
  - by intros dry_run ->.
  - intros e He _. destruct n1; [left; exact He | right; lia].
  - intros e He _. destruct n2; [left; exact He | right; lia].
  - intros dry_run e He _. destruct n3; [left; exact He|].
    destruct dry_run; [left; exact He | right; split; [lia | reflexivity]].
Qed.

Lemma unchanged_file_not_rewritten_witness :
  ComprehensiveFix.process_file "src/routes/login/+page.svelte" compliant_file
  = (inr 0, compliant_file).
Proof.
  apply (unchanged_file_not_rewritten "src/routes/login/+page.svelte"
           compliant_file (lit "<input id='user' name='user' type='text'>"));
    reflexivity.
Defined.

(** [process_file] of [comprehensive_fix.py] never raises, and a file that
    cannot be read is reported with its path and the error, counted as 0
    and left alone. *)
Lemma comprehensive_process_file_returns (path : string) (w : world) :
  exists n w', ComprehensiveFix.process_file path w = (inr n, w').
Proof.
  unfold ComprehensiveFix.process_file, try_except, mbind, M_bind, mret, M_ret,
    read_file, write_file, print.
  destruct (fs w !! path) as [f|] eqn:Hf; [|eauto].
  destruct (f_read_err f); [eauto|].
  destruct (ComprehensiveFix.fix_input_in_content _ _) as [c n].
  destruct (0 <? n); [|eauto]. simpl. rewrite Hf.
  destruct (f_write_err f); eauto.
Qed.

Lemma final_process_file_returns (path : string) (w : world) :
  exists n w', FinalFix.process_file path w = (inr n, w').
Proof.
  unfold FinalFix.process_file, try_except, mbind, M_bind, mret, M_ret,
    read_file, write_file, print.
  destruct (fs w !! path) as [f|] eqn:Hf; [|eauto].
  destruct (f_read_err f); [eauto|].
  destruct (FinalFix.fix_content _) as [c n].
  destruct (0 <? n); [|eauto]. simpl. rewrite Hf.
  destruct (f_write_err f); eauto.
Qed.

Lemma comprehensive_read_error (path : string) (w : world) (f : file)
    (e : exn) :
  fs w !! path = Some f -> f_read_err f = Some e ->
  ComprehensiveFix.process_file path w
  = (inr 0, World (fs w) (trace w ++ [Printed (ErrorProcessing path e)])).
Proof.
  intros Hf He.
  unfold ComprehensiveFix.process_file, try_except, mbind, M_bind, mret, M_ret,
    read_file, print.
  by rewrite Hf, He.
Qed.

(** A loop whose body never raises runs over the whole list. *)
Lemma for_each_returns {A S} (body : S -> A -> M S) (l : list A) :
  (forall s x w, exists s' w', body s x w = (inr s', w')) ->
  forall s w, exists s' w', for_each l body s w = (inr s', w').
Proof.
  intros Hb. induction l as [|x l IH]; intros s w; simpl.
  - unfold mret, M_ret. eauto.
  - unfold mbind, M_bind. destruct (Hb s x w) as (s' & w' & ->). apply IH.
Qed.

Lemma for_each_app {A S} (body : S -> A -> M S) (l1 l2 : list A) s w :
  for_each (l1 ++ l2) body s w
  = match for_each l1 body s w with
    | (inl e, w') => (inl e, w')
    | (inr s', w') => for_each l2 body s' w'
    end.
Proof.
  revert s w. induction l1 as [|x l1 IH]; intros s w; simpl.
  - reflexivity.
  - unfold mbind, M_bind. destruct (body s x w) as [[e|s'] w']; [reflexivity|].
    apply IH.
Qed.

(** The directory scans of [comprehensive_fix.py] and
    [final_comprehensive_fix.py] never raise: every file of the tree is
    processed, whatever happened with the files before it. *)
Lemma comprehensive_scan_returns (tree : list (string * list string))
    (w : world) :
  exists r w', ComprehensiveFix.scan_and_fix_directory tree w = (inr r, w').
Proof.
  unfold ComprehensiveFix.scan_and_fix_directory.
  apply for_each_returns. intros [[results total_files] total_fixed] path w0.
  unfold mbind, M_bind, mret, M_ret.
  destruct (comprehensive_process_file_returns path w0) as (n & w' & ->).
  destruct (0 <? n); eauto.
Qed.

Lemma final_scan_returns (tree : list (string * list string)) (w : world) :
  exists r w', FinalFix.scan_and_fix_directory tree w = (inr r, w').
Proof.
  unfold FinalFix.scan_and_fix_directory.
  apply for_each_returns. intros [total_files total_fixed] path w0.
  unfold mbind, M_bind, mret, M_ret.
  destruct (final_process_file_returns path w0) as (n & w' & ->).
  destruct (0 <? n); eauto.
Qed.

(** X5.  The directory scans of [comprehensive_fix.py] and
    [final_comprehensive_fix.py] go through every file: neither raises,
    and a file that cannot be read is reported with its path and the
    error, counted as 0 and left alone. *)
Theorem scans_never_abort (tree : list (string * list string)) (w : world) :
  (exists r w', ComprehensiveFix.scan_and_fix_directory tree w = (inr r, w'))
  /\ (exists r w', FinalFix.scan_and_fix_directory tree w = (inr r, w'))
  /\ (forall path f e,
        fs w !! path = Some f -> f_read_err f = Some e ->
        ComprehensiveFix.process_file path w
        = (inr 0, World (fs w) (trace w ++ [Printed (ErrorProcessing path e)]))
        /\ FinalFix.process_file path w
           = (inr 0,
              World (fs w) (trace w ++ [Printed (ErrorProcessing path e)]))).
Proof.
  split; [apply comprehensive_scan_returns|].
  split; [apply final_scan_returns|].
  intros path f e Hf He. split; [by apply (comprehensive_read_error path w f)|].
  unfold FinalFix.process_file, try_except, mbind, M_bind, mret, M_ret,
    read_file, print.
  by rewrite Hf, He.
Qed.

End FileFacts.

(** ** The identifier synthesizer *)

Module IdFacts.
Import Py Re Common Cases PyFacts.

Lemma lower_chr_not_upper (c : ascii) : is_upper (lower_chr c) = false.
Proof. destruct c as [[] [] [] [] [] [] [] []]; reflexivity. Qed.

Lemma lower_fixed (s : str) :
  lower s = s <-> Forall (fun c => is_upper c = false) s.
Proof.
  unfold lower. induction s as [|c s IH]; simpl.
  - split; [constructor | reflexivity].
  - split.
    + intros H. injection H as Hc Hs. constructor; [|by apply IH].
      rewrite <- Hc. apply lower_chr_not_upper.
    + intros H. inversion H as [|? ? Hc Hs]; subst. f_equal; [|by apply IH].
      unfold lower_chr. by rewrite Hc.
Qed.

Lemma lower_is_lower (s : str) : Forall (fun c => is_upper c = false) (lower s).
Proof.
  unfold lower. induction s; simpl; constructor; auto using lower_chr_not_upper.
Qed.

Lemma sub_run_from_Forall (P : ascii -> Prop) b p new s :
  Forall P new -> Forall P s -> Forall P (sub_run_from b p new s).
Proof.
  intros Hn Hs. revert b. induction Hs as [|c s Hc Hs IH]; intros b; simpl.
  - constructor.
  - destruct (p c).
    + apply Forall_app.
      split; [destruct b; [constructor | exact Hn] | apply IH].
    + constructor; [exact Hc | apply IH].
Qed.

Lemma sub_cls_Forall (p : ascii -> bool) s :
  Forall (fun c => p c = false) (sub_cls p [] s).
Proof.
  induction s as [|c s IH]; simpl; [constructor|].
  destruct (p c) eqn:E; [exact IH | by constructor].
Qed.

(** After [re.sub] of [-+] by one hyphen no two hyphens are left in a
    row. *)
Lemma collapse_head (p : ascii -> bool) (new s : str) (c : ascii) :
  head (sub_run_from true p new s) = Some c -> p c = false.
Proof.
  induction s as [|a s IH]; simpl; [discriminate|].
  destruct (p a) eqn:E; simpl; [exact IH | by intros [= <-]].
Qed.

Lemma collapse_no_double b (s : str) :
  no_double_hyphen
    (sub_run_from b (fun c => chr_eqb c "-"%char) (lit "-") s).
Proof.
  unfold no_double_hyphen.
  change (lit "--") with ["-"%char; "-"%char].
  change (lit "-") with ["-"%char].
  revert b. induction s as [|a s IH]; intros b; [reflexivity|].
  cbn [sub_run_from]. destruct (chr_eqb a "-") eqn:E.
  - destruct b; [apply IH|].
    cbn [app contains startswith]. rewrite (IH true).
    destruct (sub_run_from true _ _ s) as [|c r] eqn:Er; [reflexivity|].
    assert (Hc : chr_eqb c "-" = false).
    { apply (collapse_head (fun c => chr_eqb c "-"%char) ["-"%char] s c).
      by rewrite Er. }
    unfold chr_eqb in *. rewrite Ascii.eqb_sym in Hc. rewrite Hc.
    reflexivity.
  - cbn [contains startswith]. rewrite (IH false).
    unfold chr_eqb in *. rewrite Ascii.eqb_sym, E. reflexivity.
Qed.

Lemma contains_take (p s : str) (n : nat) :
  contains p (take n s) = true -> contains p s = true.
Proof.
  intros H. rewrite <- (take_drop n s). by apply contains_app_l.
Qed.

(** [strip]: what is left is a part of the text, and no stripped character
    stands at either end of it. *)
Lemma lstrip_suffix p (s : str) : exists a, s = a ++ lstrip p s.
Proof.
  induction s as [|c s [a IH]]; simpl; [by exists []|].
  destruct (p c); [exists (c :: a); simpl; by f_equal | by exists []].
Qed.

Lemma lstrip_head p (s : str) c : head (lstrip p s) = Some c -> p c = false.
Proof.
  induction s as [|a s IH]; simpl; [discriminate|].
  destruct (p a) eqn:E; [exact IH | simpl; by intros [= <-]].
Qed.

Lemma rstrip_prefix p (s : str) : exists b, s = rstrip p s ++ b.
Proof.
  unfold rstrip. destruct (lstrip_suffix p (rev s)) as [a Ha].
  exists (rev a). rewrite <- rev_app_distr, <- Ha. by rewrite rev_involutive.
Qed.

Lemma last_rev (s : str) : last (rev s) = head s.
Proof. destruct s as [|a s]; [reflexivity|]. simpl. apply last_snoc. Qed.

Lemma rstrip_last p (s : str) c : last (rstrip p s) = Some c -> p c = false.
Proof.
  unfold rstrip. rewrite last_rev. apply lstrip_head.
Qed.

Lemma strip_infix p (s : str) : exists a b, s = a ++ strip p s ++ b.
Proof.
  unfold strip. destruct (lstrip_suffix p s) as [a Ha].
  destruct (rstrip_prefix p (lstrip p s)) as [b Hb].
  exists a, b. by rewrite <- Hb.
Qed.

Lemma strip_head p (s : str) c : head (strip p s) = Some c -> p c = false.
Proof.
  unfold strip. destruct (rstrip_prefix p (lstrip p s)) as [b Hb].
  intros H. apply (lstrip_head p s). rewrite Hb.
  destruct (rstrip p (lstrip p s)); [discriminate | exact H].
Qed.

Lemma strip_last p (s : str) c : last (strip p s) = Some c -> p c = false.
Proof. apply rstrip_last. Qed.

Lemma strip_Forall (P : ascii -> Prop) p (s : str) :
  Forall P s -> Forall P (strip p s).
Proof.
  destruct (strip_infix p s) as (a & b & H). intros Hs. rewrite H in Hs.
  apply Forall_app in Hs as [_ Hs]. by apply Forall_app in Hs as [Hs _].
Qed.

Lemma strip_no_double p (s : str) :
  no_double_hyphen s -> no_double_hyphen (strip p s).
Proof.
  unfold no_double_hyphen. destruct (strip_infix p s) as (a & b & H).
  intros Hs. destruct (contains _ (strip p s)) eqn:E; [|reflexivity].
  rewrite H in Hs. rewrite contains_app_r in Hs; [discriminate|].
  by apply contains_app_l.
Qed.

Lemma id_char_not_upper (c : ascii) :
  BatchFix.id_char c = true -> is_upper c = false.
Proof.
  destruct c as [[] [] [] [] [] [] [] []]; intros H;
    first [reflexivity | discriminate H].
Qed.

(** The identifier of [batch_fix_inputs.py]: lowercase letters, digits and
    single hyphens, none at either end. *)
Lemma batch_id_shape (input_tag : str) (line_num : nat) (file_context : str) :
  let id := fst (BatchFix.generate_id_from_context input_tag line_num
                   file_context) in
  Forall (fun c => BatchFix.id_char c = true) id
  /\ lower id = id /\ no_double_hyphen id /\ no_edge_hyphen id.
Proof.
  unfold BatchFix.generate_id_from_context. cbv zeta.
  match goal with
  | |- context [sub_cls ?p [] (lower ?x)] => generalize x
  end.
  intros x. cbn [fst].
  assert (H1 : Forall (fun c => BatchFix.id_char c = true)
                 (sub_cls (fun c => negb (BatchFix.id_char c)) [] (lower x))).
  { eapply Forall_impl; [apply sub_cls_Forall|].
    intros c Hc. by apply negb_false_iff. }
  assert (H2 : Forall (fun c => BatchFix.id_char c = true)
                 (strip BatchFix.is_hyphen
                    (sub_run BatchFix.is_hyphen (lit "-")
                       (sub_cls (fun c => negb (BatchFix.id_char c)) []
                          (lower x))))).
  { apply strip_Forall. apply sub_run_from_Forall; [|exact H1].
    by repeat constructor. }
  split; [exact H2|]. split; [|split].
  - apply lower_fixed. eapply Forall_impl; [exact H2|].
    intros c. apply id_char_not_upper.
  - apply strip_no_double. apply collapse_no_double.
  - split.
    + intros H. apply strip_head in H. discriminate H.
    + intros H. apply strip_last in H. discriminate H.
Qed.

(** The identifier of [comprehensive_fix.py]: lowercase, no two hyphens in
    a row, at most 50 characters. *)
Lemma comprehensive_id_shape (input_tag file_path : str) (line_num : nat) :
  let id := fst (ComprehensiveFix.generate_smart_id input_tag file_path
                   line_num) in
  lower id = id /\ no_double_hyphen id /\ length id <= 50.
Proof.
  unfold ComprehensiveFix.generate_smart_id. cbv zeta. cbn [fst].
  match goal with
  | |- context [lower (join ?a ?b)] => generalize (join a b)
  end.
  intros x. split; [|split].
  - apply lower_fixed. apply Forall_take. apply sub_run_from_Forall.
    + by repeat constructor.
    + apply lower_is_lower.
  - unfold no_double_hyphen.
    destruct (contains _ (take 50 _)) eqn:E; [|reflexivity].
    apply contains_take in E.
    pose proof (collapse_no_double false (lower x)) as H.
    exact (eq_trans (eq_sym E) H).
  - rewrite length_take. lia.
Qed.

(** C9, as amended.  Both synthesizers return a lowercase identifier with
    no two hyphens in a row.  The identifier of [batch_fix_inputs.py] has no
    hyphen at either end; the one of [comprehensive_fix.py] is cut to 50
    characters. *)
Theorem synthesized_id_shape (input_tag file_path file_context : str)
    (line_num : nat) :
  let b := fst (BatchFix.generate_id_from_context input_tag line_num
                  file_context) in
  let c := fst (ComprehensiveFix.generate_smart_id input_tag file_path
                  line_num) in
  (lower b = b /\ no_double_hyphen b /\ no_edge_hyphen b)
  /\ (lower c = c /\ no_double_hyphen c /\ length c <= 50).
Proof.
  cbv zeta. split.
  - apply batch_id_shape.
  - apply comprehensive_id_shape.
Qed.

(** C9, as stated, fails for [comprehensive_fix.py]: the cut at 50
    characters falls right after a hyphen. *)
Lemma truncated_id_ends_with_hyphen :
  fst (ComprehensiveFix.generate_smart_id long_binding checkout_page 1)
  = lit "page-billingaddressformvalidationstateforcheckout-"
  /\ ~ no_edge_hyphen
        (fst (ComprehensiveFix.generate_smart_id long_binding checkout_page 1)).
Proof.
  split; [reflexivity|]. intros [_ H]. apply H. reflexivity.
Qed.

End IdFacts.

(** ** The matcher and what the expressions mean *)

Module ReFacts.
Import Py Re Common Cases PyFacts.

Lemma after_nil prev : after prev [] = prev.
Proof. reflexivity. Qed.

Lemma after_cons prev a w : after prev (a :: w) = after (Some a) w.
Proof. unfold after. rewrite last_cons. by destruct (last w). Qed.

Lemma after_app prev w1 w2 : after prev (w1 ++ w2) = after (after prev w1) w2.
Proof.
  unfold after. rewrite last_app. by destruct (last w2), (last w1).
Qed.

Section Engine.
Context {R : Type}.
Implicit Types (k : cursor -> option R) (c : cursor).

Lemma star_sound p prev pos rest g k x :
  star p prev pos rest g k = Some x ->
  exists w rest',
    rest = w ++ rest' /\ Forall (fun a => p a = true) w
    /\ k (Cursor (after prev w) (pos + length w) rest' g) = Some x.
Proof.
  revert prev pos. induction rest as [|a rest IH]; intros prev pos; simpl.
  - intros H. exists [], []. rewrite Nat.add_0_r. by repeat split.
  - destruct (p a) eqn:Ea.
    + destruct (star p (Some a) (S pos) rest g k) as [y|] eqn:Es.
      * intros [= <-]. apply IH in Es as (w & rest' & -> & Hw & Hk).
        exists (a :: w), rest'. rewrite after_cons. simpl.
        replace (pos + S (length w)) with (S pos + length w) by lia.
        repeat split; [by constructor | exact Hk].
      * intros H. exists [], (a :: rest). rewrite Nat.add_0_r.
        by repeat split.
    + intros H. exists [], (a :: rest). rewrite Nat.add_0_r. by repeat split.
Qed.

Lemma star_complete p w rest prev pos g k :
  Forall (fun a => p a = true) w ->
  k (Cursor (after prev w) (pos + length w) rest g) <> None ->
  star p prev pos (w ++ rest) g k <> None.
Proof.
  intros Hw. revert prev pos.
  induction Hw as [|a w Ha Hw IH]; intros prev pos Hk.
  - simpl in *. rewrite Nat.add_0_r in Hk.
    destruct rest as [|b rest]; simpl; [exact Hk|].
    destruct (p b); [|exact Hk]. by destruct (star p _ _ rest g k).
  - simpl. rewrite Ha.
    destruct (star p (Some a) (S pos) (w ++ rest) g k) eqn:Es; [done|].
    exfalso. revert Es. apply IH. rewrite after_cons in Hk. simpl in Hk.
    by replace (S pos + length w) with (pos + S (length w)) by lia.
Qed.

Lemma run_sound r : forall c k x,
  run r c k = Some x ->
  exists w rest g,
    c_rest c = w ++ rest /\ matches r (c_prev c) w rest
    /\ k (Cursor (after (c_prev c) w) (c_pos c + length w) rest g) = Some x.
Proof.
  induction r as [|a|p|a IHa b IHb|a IHa b IHb|p| |n a IHa];
    intros [prev pos rest g] k x; simpl.
  - intros H. exists [], rest, g. rewrite Nat.add_0_r.
    repeat split; [constructor | exact H].
  - destruct rest as [|b rest]; [discriminate|].
    destruct (chr_eqb a b) eqn:E; [|discriminate].
    apply chr_eqb_eq in E as <-. intros H. exists [a], rest, g.
    replace (pos + length [a]) with (S pos) by (simpl; lia).
    repeat split; [constructor | exact H].
  - destruct rest as [|b rest]; [discriminate|].
    destruct (p b) eqn:E; [|discriminate].
    intros H. exists [b], rest, g.
    replace (pos + length [b]) with (S pos) by (simpl; lia).
    repeat split; [by constructor | exact H].
  - intros H. apply IHa in H as (w1 & rest1 & g1 & Hr1 & Hm1 & H).
    apply IHb in H as (w2 & rest2 & g2 & Hr2 & Hm2 & H). simpl in *.
    subst. exists (w1 ++ w2), rest2, g2.
    rewrite after_app, length_app, Nat.add_assoc, <- app_assoc.
    repeat split; [by constructor | exact H].
  - destruct (run a _ k) as [y|] eqn:Ea.
    + intros [= <-]. apply IHa in Ea as (w & rest' & g' & ? & ? & ?).
      exists w, rest', g'. repeat split; [done | by apply M_AltL | done].
    + intros H. apply IHb in H as (w & rest' & g' & ? & ? & ?).
      exists w, rest', g'. repeat split; [done | by apply M_AltR | done].
  - intros H. apply star_sound in H as (w & rest' & -> & Hw & H).
    exists w, rest', g. repeat split; [by constructor | exact H].
  - unfold at_boundary. simpl.
    destruct (xorb _ _) eqn:E; [|discriminate].
    intros H. exists [], rest, g. rewrite Nat.add_0_r.
    repeat split; [by constructor | exact H].
  - intros H. apply IHa in H as (w & rest' & g' & ? & ? & H). simpl in *.
    eexists w, rest', _. repeat split; [done | by constructor | exact H].
Qed.

Lemma run_complete r prev w rest :
  matches r prev w rest ->
  forall pos g k,
    (forall g', k (Cursor (after prev w) (pos + length w) rest g') <> None) ->
    run r (Cursor prev pos (w ++ rest) g) k <> None.
Proof.
  induction 1 as [prev rest|a prev rest|p a prev rest Ha
                 |a b prev w1 w2 rest _ IHa _ IHb
                 |a b prev w rest _ IHa|a b prev w rest _ IHb
                 |p prev w rest Hw|prev rest Hb|n a prev w rest _ IHa];
    intros pos g k Hk; simpl.
  - specialize (Hk g). by rewrite Nat.add_0_r in Hk.
  - rewrite chr_eqb_refl. specialize (Hk g).
    by replace (pos + length [a]) with (S pos) in Hk by (simpl; lia).
  - rewrite Ha. specialize (Hk g).
    by replace (pos + length [a]) with (S pos) in Hk by (simpl; lia).
  - rewrite <- app_assoc. apply IHa. intros g1. apply IHb. intros g2.
    specialize (Hk g2).
    by rewrite after_app, length_app, Nat.add_assoc in Hk.
  - specialize (IHa pos g k Hk). by destruct (run a _ k).
  - destruct (run a _ k); [done|]. by apply IHb.
  - by apply star_complete.
  - unfold at_boundary. simpl. rewrite Hb. specialize (Hk g).
    by rewrite Nat.add_0_r in Hk.
  - apply IHa. intros g'. apply Hk.
Qed.

End Engine.

(** A match at a position reads some text that the expression matches and
    ends after it; where the expression matches, the matcher finds a
    match. *)
Lemma match_at_sound r prev pos s m :
  match_at r prev pos s = Some m ->
  exists w rest,
    s = w ++ rest /\ matches r prev w rest
    /\ m_start m = pos /\ m_end m = pos + length w.
Proof.
  unfold match_at. intros H.
  apply run_sound in H as (w & rest & g & Hs & Hm & [= <-]). simpl in *.
  by exists w, rest.
Qed.

Lemma match_at_complete r prev pos w rest :
  matches r prev w rest -> match_at r prev pos (w ++ rest) <> None.
Proof.
  intros H. unfold match_at. by apply (run_complete r prev w rest H).
Qed.

(** [re.search] returns the match at the first position that has one. *)
Lemma search_from_sound r : forall s prev pos m,
  search_from r prev pos s = Some m ->
  exists a b,
    s = a ++ b /\ match_at r (after prev a) (pos + length a) b = Some m
    /\ forall a' b', s = a' ++ b' -> length a' < length a ->
         match_at r (after prev a') (pos + length a') b' = None.
Proof.
  induction s as [|c s IH]; intros prev pos m; simpl.
  - destruct (match_at r prev pos []) as [m'|] eqn:E; [|discriminate].
    intros [= <-]. exists [], []. rewrite Nat.add_0_r.
    repeat split; [exact E|]. intros a' b' _ Hl. simpl in Hl. lia.
  - destruct (match_at r prev pos (c :: s)) as [m'|] eqn:E.
    + intros [= <-]. exists [], (c :: s). rewrite Nat.add_0_r.
      repeat split; [exact E|]. intros a' b' _ Hl. simpl in Hl. lia.
    + intros H. apply IH in H as (a & b & -> & Hm & Hfirst).
      exists (c :: a), b. rewrite after_cons. simpl.
      replace (pos + S (length a)) with (S pos + length a) by lia.
      repeat split; [exact Hm|].
      intros a' b' Hs Hl. destruct a' as [|c' a']; simpl in *.
      * subst b'. by rewrite Nat.add_0_r.
      * injection Hs as <- Hs. rewrite after_cons.
        replace (pos + S (length a')) with (S pos + length a') by lia.
        apply Hfirst; [exact Hs | lia].
Qed.

Lemma search_from_none r : forall s prev pos,
  search_from r prev pos s = None ->
  forall a b, s = a ++ b ->
    match_at r (after prev a) (pos + length a) b = None.
Proof.
  induction s as [|c s IH]; intros prev pos; simpl.
  - destruct (match_at r prev pos []) eqn:E; [discriminate|].
    intros _ a b Hs. symmetry in Hs. apply app_eq_nil in Hs as [-> ->].
    by rewrite Nat.add_0_r.
  - destruct (match_at r prev pos (c :: s)) eqn:E; [discriminate|].
    intros H a b Hs. destruct a as [|c' a]; simpl in *.
    + subst b. by rewrite Nat.add_0_r.
    + injection Hs as <- Hs. rewrite after_cons.
      replace (pos + S (length a)) with (S pos + length a) by lia.
      by apply (IH _ _ H).
Qed.

(** [re.search] in declarative terms. *)
Lemma search_sound r s m :
  search r s = Some m ->
  exists a w rest,
    s = a ++ w ++ rest /\ matches r (last a) w rest
    /\ m_start m = length a /\ m_end m = length a + length w
    /\ forall a' w' rest', s = a' ++ w' ++ rest' ->
         matches r (last a') w' rest' -> length a <= length a'.
Proof.
  unfold search. intros H.
  apply search_from_sound in H as (a & b & -> & Hm & Hfirst).
  apply match_at_sound in Hm as (w & rest & -> & Hm & Hs & He).
  exists a, w, rest.
  assert (Ha : forall x : str, after None x = last x).
  { intros x. unfold after. by destruct (last x). }
  rewrite Ha in Hm. simpl in *. repeat split; try done.
  intros a' w' rest' Hs' Hm'.
  destruct (decide (length a' < length a)) as [Hl|]; [|lia].
  exfalso. specialize (Hfirst a' (w' ++ rest') Hs' Hl).
  revert Hfirst. apply match_at_complete. by rewrite Ha.
Qed.

Lemma search_none r s :
  search r s = None ->
  forall a w rest, s = a ++ w ++ rest -> ~ matches r (last a) w rest.
Proof.
  unfold search. intros H a w rest Hs Hm.
  pose proof (search_from_none r s None 0 H a (w ++ rest) Hs) as Hn.
  revert Hn. apply match_at_complete.
  unfold after. by destruct (last a).
Qed.

End ReFacts.

(** ** The patterns of the patchers in declarative terms *)

Module PatternFacts.
Import Py Re Common Cases PyFacts ReFacts.

Lemma M_Seq' a b prev w1 w2 w rest :
  w = w1 ++ w2 ->
  matches a prev w1 (w2 ++ rest) ->
  matches b (after prev w1) w2 rest ->
  matches (Seq a b) prev w rest.
Proof. intros ->. apply M_Seq. Qed.

Lemma matches_Word w prev x rest : matches (Word w) prev x rest <-> x = w.
Proof.
  revert prev x. induction w as [|a w IH]; intros prev x; simpl.
  - split; [by inversion 1 | intros ->; constructor].
  - split.
    + inversion 1 as [| | |? ? ? w1 w2 ? H1 H2| | | | |]; subst.
      inversion H1; subst. apply IH in H2 as ->. reflexivity.
    + intros ->. apply (M_Seq' _ _ _ [a] w); [reflexivity | constructor|].
      by apply IH.
Qed.

Ltac inv_matches :=
  repeat match goal with
  | H : matches (Word _) _ _ _ |- _ => apply matches_Word in H; subst
  | H : matches (Seq _ _) _ _ _ |- _ => inversion H; subst; clear H
  | H : matches (Chr _) _ _ _ |- _ => inversion H; subst; clear H
  | H : matches (Cls _) _ _ _ |- _ => inversion H; subst; clear H
  | H : matches (Star _) _ _ _ |- _ => inversion H; subst; clear H
  | H : matches (Grp _ _) _ _ _ |- _ => inversion H; subst; clear H
  | H : matches Bnd _ _ _ |- _ => inversion H; subst; clear H
  | H : matches Eps _ _ _ |- _ => inversion H; subst; clear H
  end.

Lemma not_quote_false c : not_quote c = true <-> quote c = false.
Proof. unfold not_quote. by destruct (quote c). Qed.

(** [\bid\s*=\s*Q([^Q]+)Q] matches the [id] attributes that are words of
    their own. *)
Lemma matches_id_value prev x rest :
  matches FinalFix.re_id_value prev x rest
  <-> word_opt prev = false /\ id_attribute x.
Proof.
  unfold FinalFix.re_id_value, quoted_attr, Plus, id_attribute, spaces. split.
  - intros H. inv_matches.
    match goal with
    | Hb : xorb _ _ = true |- _ => simpl in Hb
    end.
    split; [by destruct (word_opt prev)|].
    match goal with
    | H1 : Forall _ ?ws1, H2 : Forall _ ?ws2, H3 : Forall _ ?v,
      Hq1 : quote ?q1 = true, Hq2 : quote ?q2 = true,
      Hc : not_quote ?c = true |- _ =>
        exists ws1, ws2, q1, (c :: v), q2
    end.
    repeat split; try done.
    constructor; [by apply not_quote_false|].
    eapply Forall_impl; [eassumption|]. intros ?. apply not_quote_false.
  - intros [Hp (ws1 & ws2 & q1 & v & q2 & -> & H1 & H2 & Hq1 & Hq2 & Hv & Hnq)].
    destruct v as [|c v]; [done|]. inversion Hnq as [|? ? Hc Hnq']; subst.
    apply (M_Seq' _ _ _ [] (lit "id" ++ ws1 ++ lit "=" ++ ws2 ++ [q1]
                              ++ (c :: v) ++ [q2])); [reflexivity| |].
    { constructor. simpl. by rewrite Hp. }
    eapply M_Seq'; [reflexivity | by apply matches_Word |].
    eapply M_Seq'; [reflexivity | by constructor |].
    eapply M_Seq'; [reflexivity | constructor |].
    eapply M_Seq'; [reflexivity | by constructor |].
    eapply M_Seq'; [reflexivity | by constructor |].
    apply (M_Seq' _ _ _ (c :: v) [q2]); [reflexivity| |by constructor].
    constructor. apply (M_Seq' _ _ _ [c] v); [reflexivity| |].
    + constructor. by apply not_quote_false.
    + constructor. eapply Forall_impl; [eassumption|].
      intros ?. apply not_quote_false.
Qed.

(** [\bname\s*=] matches the name as a word of its own, blanks and [=]. *)
Lemma matches_has_attr (name : string) prev x rest :
  word_opt (head (lit name)) = true ->
  matches (has_attr name) prev x rest
  <-> word_opt prev = false
      /\ exists ws, x = lit name ++ ws ++ lit "=" /\ spaces ws.
Proof.
  intros Hn. unfold has_attr, spaces.
  assert (Hh : forall y : str, head (lit name ++ y) = head (lit name)).
  { intros y. destruct (lit name); [discriminate Hn | reflexivity]. }
  split.
  - intros H. inv_matches.
    match goal with
    | Hb : xorb _ _ = true |- _ =>
        simpl in Hb; rewrite <- !app_assoc, Hh, Hn in Hb
    end.
    split; [by destruct (word_opt prev)|].
    match goal with
    | H1 : Forall _ ?ws |- _ => exists ws
    end.
    split; [reflexivity | done].
  - intros [Hp (ws & -> & Hws)].
    apply (M_Seq' _ _ _ [] (lit name ++ ws ++ lit "=")); [reflexivity| |].
    { constructor. simpl. rewrite <- !app_assoc, Hh, Hn, Hp. reflexivity. }
    eapply M_Seq'; [reflexivity | by apply matches_Word |].
    eapply M_Seq'; [reflexivity | by constructor | constructor].
Qed.

(** [re.search] of the two patterns. *)
Lemma found_has_attr (name : string) (tag : str) :
  word_opt (head (lit name)) = true ->
  found (has_attr name) tag = true <-> has_attribute name tag.
Proof.
  intros Hn. unfold found, has_attribute.
  destruct (search (has_attr name) tag) as [m|] eqn:E.
  - split; [intros _ | done].
    apply search_sound in E as (a & w & rest & -> & Hm & _).
    apply (matches_has_attr name _ _ _ Hn) in Hm as [Hp (ws & -> & Hws)].
    exists a, ws, rest. by rewrite <- !app_assoc.
  - split; [done|]. intros (pre & ws & post & -> & Hws & Hp). exfalso.
    apply (search_none _ _ E pre (lit name ++ ws ++ lit "=") post).
    + by rewrite <- !app_assoc.
    + apply (matches_has_attr name _ _ _ Hn). eauto.
Qed.

Lemma search_id_value (tag : str) :
  match search FinalFix.re_id_value tag with
  | Some m =>
      exists pre a post,
        id_attribute_at tag pre a post
        /\ m_end m = length (pre ++ a)
        /\ forall pre' a' post',
             id_attribute_at tag pre' a' post' -> length pre <= length pre'
  | None => ~ has_quoted_id tag
  end.
Proof.
  destruct (search FinalFix.re_id_value tag) as [m|] eqn:E.
  - apply search_sound in E as (a & w & rest & -> & Hm & _ & He & Hfirst).
    apply matches_id_value in Hm as [Hp Hw].
    exists a, w, rest. rewrite length_app. repeat split; try done.
    intros pre' a' post' (Ht & Ha & Hp'). apply (Hfirst pre' a' post' Ht).
    by apply matches_id_value.
  - intros (pre & a & post & -> & Ha & Hp).
    apply (search_none _ _ E pre a post eq_refl).
    by apply matches_id_value.
Qed.

(** A greedy repetition in front of a continuation that always succeeds
    reads the whole run. *)
Lemma star_greedy {R} p (k : cursor -> option R) g :
  (forall c, k c <> None) ->
  forall rest prev pos x,
    star p prev pos rest g k = Some x ->
    exists w rest',
      rest = w ++ rest' /\ Forall (fun a => p a = true) w
      /\ (forall c, head rest' = Some c -> p c = false)
      /\ k (Cursor (after prev w) (pos + length w) rest' g) = Some x.
Proof.
  intros Hk. induction rest as [|a rest IH]; intros prev pos x; simpl.
  - intros H. exists [], []. rewrite Nat.add_0_r. by repeat split.
  - destruct (p a) eqn:Ea.
    + destruct (star p (Some a) (S pos) rest g k) as [y|] eqn:Es.
      * intros [= <-]. apply IH in Es as (w & rest' & -> & Hw & Hh & Hx).
        exists (a :: w), rest'. rewrite after_cons. simpl.
        replace (pos + S (length w)) with (S pos + length w) by lia.
        repeat split; [by constructor | exact Hh | exact Hx].
      * exfalso. revert Es.
        apply (star_complete p [] rest (Some a) (S pos) g k);
          [constructor | apply Hk].
    + intros H. exists [], (a :: rest). rewrite Nat.add_0_r.
      repeat split; [constructor | by intros c [= <-] | exact H].
Qed.

Lemma run_Word {R} w : forall c (k : cursor -> option R),
  run (Word w) c k
  = if startswith w (c_rest c)
    then k (Cursor (after (c_prev c) w) (c_pos c + length w)
              (drop (length w) (c_rest c)) (c_grp c))
    else None.
Proof.
  induction w as [|a w IH]; intros [prev pos rest g] k; simpl.
  - by rewrite Nat.add_0_r.
  - destruct rest as [|b rest]; [reflexivity|].
    destruct (chr_eqb a b) eqn:E; [|reflexivity]. simpl.
    apply chr_eqb_eq in E as <-. rewrite IH. simpl.
    rewrite after_cons.
    by replace (pos + S (length w)) with (S pos + length w) by lia.
Qed.

(** The three patterns for the opening marker: the match ends after the
    marker and the whole run of whitespace that follows it. *)
Lemma match_at_input_star prev pos s m :
  match_at re_input_star prev pos s = Some m ->
  exists ws post,
    s = marker ++ ws ++ post /\ spaces ws /\ no_space_ahead post
    /\ m_end m = pos + length (marker ++ ws).
Proof.
  unfold match_at, re_input_star. cbn [run]. rewrite run_Word. cbn [c_rest].
  destruct (startswith (lit "<input") s) eqn:E; [|discriminate].
  apply startswith_spec in E as [t ->]. rewrite drop_app_length. cbn.
  intros H. apply star_greedy in H as (w & post & -> & Hw & Hh & [= <-]);
    [|done].
  exists w, post. cbn. repeat split; try done. lia.
Qed.

Lemma match_at_input_plus prev pos s m :
  match_at re_input_plus prev pos s = Some m ->
  exists ws post,
    s = marker ++ ws ++ post /\ spaces ws /\ no_space_ahead post
    /\ ws <> [] /\ m_end m = pos + length (marker ++ ws).
Proof.
  unfold match_at, re_input_plus, Plus. cbn [run]. rewrite run_Word.
  cbn [c_rest].
  destruct (startswith (lit "<input") s) eqn:E; [|discriminate].
  apply startswith_spec in E as [t ->]. rewrite drop_app_length. cbn.
  destruct t as [|c t]; [discriminate|].
  destruct (is_space c) eqn:Ec; [|discriminate].
  intros H. apply star_greedy in H as (w & post & -> & Hw & Hh & [= <-]);
    [|done].
  exists (c :: w), post. cbn.
  repeat split; try done; [by constructor | lia].
Qed.

Lemma match_at_input_ws prev pos s m :
  match_at re_input_ws prev pos s = Some m ->
  exists ws post,
    s = marker ++ ws ++ post /\ spaces ws /\ no_space_ahead post
    /\ ws <> [] /\ m_end m = pos + length (marker ++ ws).
Proof.
  unfold match_at, re_input_ws, Plus. cbn [run]. rewrite run_Word.
  cbn [c_rest].
  destruct (startswith (lit "<input") s) eqn:E; [|discriminate].
  apply startswith_spec in E as [t ->]. rewrite drop_app_length. cbn.
  destruct t as [|c t]; [discriminate|].
  destruct (is_space c) eqn:Ec; [|discriminate].
  intros H. apply star_greedy in H as (w & post & -> & Hw & Hh & [= <-]);
    [|done].
  exists (c :: w), post. cbn.
  repeat split; try done; [by constructor | lia].
Qed.

Lemma matches_input_ws prev c post :
  is_space c = true -> matches re_input_ws prev (marker ++ [c]) post.
Proof.
  intros Hc. unfold re_input_ws, Plus.
  eapply M_Seq'; [reflexivity | constructor; by apply matches_Word |].
  constructor. apply (M_Seq' _ _ _ [c] []); [reflexivity | by constructor|].
  by repeat constructor.
Qed.

Lemma matches_input_plus prev c post :
  is_space c = true -> matches re_input_plus prev (marker ++ [c]) post.
Proof.
  intros Hc. unfold re_input_plus, Plus.
  eapply M_Seq'; [reflexivity | by apply matches_Word |].
  apply (M_Seq' _ _ _ [c] []); [reflexivity | by constructor|].
  by repeat constructor.
Qed.

Lemma matches_input_star prev post :
  matches re_input_star prev (marker ++ []) post.
Proof.
  unfold re_input_star.
  eapply M_Seq'; [reflexivity | by apply matches_Word |].
  by repeat constructor.
Qed.

Lemma after_None (a : str) : after None a = last a.
Proof. unfold after. by destruct (last a). Qed.

(** [re.search] of the marker followed by whitespace. *)
Lemma search_input_ws (tag : str) :
  match search re_input_ws tag with
  | Some m =>
      exists pre ws post,
        marker_at tag pre ws post /\ ws <> []
        /\ m_end m = length (pre ++ marker ++ ws)
        /\ forall pre' c post',
             tag = pre' ++ marker ++ c :: post' -> is_space c = true ->
             length pre <= length pre'
  | None => ~ has_marker_space tag
  end.
Proof.
  destruct (search re_input_ws tag) as [m|] eqn:E.
  - apply search_from_sound in E as (a & b & -> & Hm & Hfirst).
    apply match_at_input_ws in Hm as (ws & post & -> & Hws & Hp & Hne & He).
    exists a, ws, post. repeat split; try done.
    + rewrite He, !length_app. simpl. lia.
    + intros pre' c post' Ht Hc.
      destruct (decide (length pre' < length a)) as [Hl|]; [|lia].
      exfalso. specialize (Hfirst pre' (marker ++ c :: post') Ht Hl).
      revert Hfirst.
      apply (match_at_complete _ _ _ (marker ++ [c]) post').
      by apply matches_input_ws.
  - intros (pre & c & post & -> & Hc).
    pose proof (search_from_none _ _ _ _ E pre (marker ++ c :: post) eq_refl)
      as Hn.
    revert Hn. apply (match_at_complete _ _ _ (marker ++ [c]) post).
    by apply matches_input_ws.
Qed.

(** The search of [batch_fix_inputs.py]: the marker followed by whitespace
    or, if there is none, the marker. *)
Lemma search_input_batch (tag : str) :
  match
    match search re_input_plus tag with
    | Some m => Some m
    | None => search re_input_star tag
    end
  with
  | Some m =>
      exists pre ws post,
        marker_at tag pre ws post /\ m_end m = length (pre ++ marker ++ ws)
  | None => contains marker tag = false
  end.
Proof.
  destruct (search re_input_plus tag) as [m|] eqn:E.
  - apply search_from_sound in E as (a & b & -> & Hm & _).
    apply match_at_input_plus in Hm as (ws & post & -> & Hws & Hp & _ & He).
    exists a, ws, post. repeat split; try done.
    rewrite He, !length_app. simpl. lia.
  - clear E. destruct (search re_input_star tag) as [m|] eqn:E.
    + apply search_from_sound in E as (a & b & -> & Hm & _).
      apply match_at_input_star in Hm as (ws & post & -> & Hws & Hp & He).
      exists a, ws, post. repeat split; try done.
      rewrite He, !length_app. simpl. lia.
    + destruct (contains marker tag) eqn:Ec; [|reflexivity]. exfalso.
      apply contains_spec in Ec as (a & b & ->).
      pose proof (search_from_none _ _ _ _ E a (marker ++ b) eq_refl) as Hn.
      revert Hn. apply (match_at_complete _ _ _ (marker ++ []) b).
      apply matches_input_star.
Qed.

(** The two searches one by one: each finds the leftmost place. *)
Lemma search_input_plus (tag : str) :
  match search re_input_plus tag with
  | Some m =>
      exists pre ws post,
        marker_at tag pre ws post /\ ws <> []
        /\ m_end m = length (pre ++ marker ++ ws)
        /\ forall pre' c post',
             tag = pre' ++ marker ++ c :: post' -> is_space c = true ->
             length pre <= length pre'
  | None => ~ has_marker_space tag
  end.
Proof.
  destruct (search re_input_plus tag) as [m|] eqn:E.
  - apply search_from_sound in E as (a & b & -> & Hm & Hfirst).
    apply match_at_input_plus in Hm as (ws & post & -> & Hws & Hp & Hne & He).
    exists a, ws, post. repeat split; try done.
    + rewrite He, !length_app. simpl. lia.
    + intros pre' c post' Ht Hc.
      destruct (decide (length pre' < length a)) as [Hl|]; [|lia].
      exfalso. specialize (Hfirst pre' (marker ++ c :: post') Ht Hl).
      revert Hfirst.
      apply (match_at_complete _ _ _ (marker ++ [c]) post').
      by apply matches_input_plus.
  - intros (pre & c & post & -> & Hc).
    pose proof (search_from_none _ _ _ _ E pre (marker ++ c :: post) eq_refl)
      as Hn.
    revert Hn. apply (match_at_complete _ _ _ (marker ++ [c]) post).
    by apply matches_input_plus.
Qed.

Lemma search_input_star (tag : str) :
  match search re_input_star tag with
  | Some m =>
      exists pre ws post,
        marker_at tag pre ws post
        /\ m_end m = length (pre ++ marker ++ ws)
        /\ forall pre' post',
             tag = pre' ++ marker ++ post' -> length pre <= length pre'
  | None => contains marker tag = false
  end.
Proof.
  destruct (search re_input_star tag) as [m|] eqn:E.
  - apply search_from_sound in E as (a & b & -> & Hm & Hfirst).
    apply match_at_input_star in Hm as (ws & post & -> & Hws & Hp & He).
    exists a, ws, post. repeat split; try done.
    + rewrite He, !length_app. simpl. lia.
    + intros pre' post' Ht.
      destruct (decide (length pre' < length a)) as [Hl|]; [|lia].
      exfalso. specialize (Hfirst pre' (marker ++ post') Ht Hl).
      revert Hfirst.
      apply (match_at_complete _ _ _ (marker ++ []) post').
      apply matches_input_star.
  - destruct (contains marker tag) eqn:Ec; [|reflexivity]. exfalso.
    apply contains_spec in Ec as (a & b & ->).
    pose proof (search_from_none _ _ _ _ E a (marker ++ b) eq_refl) as Hn.
    revert Hn. apply (match_at_complete _ _ _ (marker ++ []) b).
    apply matches_input_star.
Qed.

(** The search of [batch_fix_inputs.py] with the place it finds: the
    leftmost marker that whitespace follows, with the whole run of it, or,
    where no marker is followed by whitespace, the leftmost marker. *)
Lemma search_input_batch_first (tag : str) :
  match
    match search re_input_plus tag with
    | Some m => Some m
    | None => search re_input_star tag
    end
  with
  | Some m =>
      exists pre ws post,
        marker_at tag pre ws post /\ m_end m = length (pre ++ marker ++ ws)
        /\ ((ws <> []
             /\ forall pre' c post',
                  tag = pre' ++ marker ++ c :: post' -> is_space c = true ->
                  length pre <= length pre')
            \/ (ws = [] /\ ~ has_marker_space tag
                /\ forall pre' post',
                     tag = pre' ++ marker ++ post' ->
                     length pre <= length pre'))
  | None => contains marker tag = false
  end.
Proof.
  pose proof (search_input_plus tag) as Hp.
  destruct (search re_input_plus tag) as [m|].
  - destruct Hp as (pre & ws & post & Hat & Hne & He & Hfirst).
    exists pre, ws, post. split; [exact Hat|]. split; [exact He|]. by left.
  - pose proof (search_input_star tag) as Hs.
    destruct (search re_input_star tag) as [m|]; [|exact Hs].
    destruct Hs as (pre & ws & post & Hat & He & Hfirst).
    exists pre, ws, post. split; [exact Hat|]. split; [exact He|]. right.
    split; [|split; [exact Hp | exact Hfirst]].
    destruct ws as [|c ws]; [reflexivity|]. exfalso. apply Hp.
    destruct Hat as (-> & Hws & _). exists pre, c, (ws ++ post).
    split; [reflexivity|]. by inversion Hws.
Qed.

End PatternFacts.

(** ** The tag splicer *)

Module SplicerFacts.
Import Py Re Common Cases PyFacts ReFacts PatternFacts IdFacts.

Lemma splice_app (x ins y : str) :
  splice (length x) ins (x ++ y) = x ++ ins ++ y.
Proof. unfold splice. by rewrite take_app_length, drop_app_length. Qed.

Lemma word_head_id : word_opt (head (lit "id")) = true.
Proof. reflexivity. Qed.
Lemma word_head_name : word_opt (head (lit "name")) = true.
Proof. reflexivity. Qed.

Lemma found_false_iff (name : string) (tag : str) :
  word_opt (head (lit name)) = true ->
  found (has_attr name) tag = false <-> ~ has_attribute name tag.
Proof.
  intros Hn. rewrite <- (found_has_attr name tag Hn).
  by destruct (found (has_attr name) tag).
Qed.

(** The splicer of [final_comprehensive_fix.py]. *)
Lemma final_after_id (tag : str) (attrs : list str) :
  attrs <> [] -> has_quoted_id tag ->
  exists pre a post,
    id_attribute_at tag pre a post
    /\ (forall pre' a' post',
          id_attribute_at tag pre' a' post' -> length pre <= length pre')
    /\ FinalFix.insert_attrs tag attrs
       = pre ++ a ++ lit " " ++ join (lit " ") attrs ++ post.
Proof.
  intros Ha Hid. unfold FinalFix.insert_attrs.
  destruct attrs as [|t attrs]; [done|].
  pose proof (search_id_value tag) as Hs.
  destruct (search FinalFix.re_id_value tag) as [m|]; [|done].
  destruct Hs as (pre & a & post & Hat & He & Hfirst).
  exists pre, a, post. split; [exact Hat|]. split; [exact Hfirst|].
  destruct Hat as (-> & _ & _). rewrite He, app_assoc, splice_app.
  by rewrite <- !app_assoc.
Qed.

Lemma final_after_marker (tag : str) (attrs : list str) :
  attrs <> [] -> ~ has_quoted_id tag -> has_marker_space tag ->
  exists pre ws post,
    marker_at tag pre ws post /\ ws <> []
    /\ (forall pre' c post',
          tag = pre' ++ marker ++ c :: post' -> is_space c = true ->
          length pre <= length pre')
    /\ FinalFix.insert_attrs tag attrs
       = pre ++ marker ++ ws ++ join (lit " ") attrs ++ lit " " ++ post.
Proof.
  intros Ha Hid Hm. unfold FinalFix.insert_attrs.
  destruct attrs as [|t attrs]; [done|].
  pose proof (search_id_value tag) as Hs.
  destruct (search FinalFix.re_id_value tag) as [m|].
  { destruct Hs as (pre & a & post & Hat & _). exfalso. apply Hid.
    by exists pre, a, post. }
  clear Hs. pose proof (search_input_ws tag) as Hs.
  destruct (search re_input_ws tag) as [m|]; [|done].
  destruct Hs as (pre & ws & post & Hat & Hne & He & Hfirst).
  exists pre, ws, post.
  split; [exact Hat|]. split; [exact Hne|]. split; [exact Hfirst|].
  destruct Hat as (-> & _ & _).
  rewrite He, !app_assoc, splice_app. by rewrite <- !app_assoc.
Qed.

Lemma final_unchanged (tag : str) (attrs : list str) :
  ~ has_quoted_id tag -> ~ has_marker_space tag ->
  FinalFix.insert_attrs tag attrs = tag.
Proof.
  intros Hid Hm. unfold FinalFix.insert_attrs.
  destruct attrs as [|t attrs]; [done|].
  pose proof (search_id_value tag) as Hs.
  destruct (search FinalFix.re_id_value tag) as [m|].
  { destruct Hs as (pre & a & post & Hat & _). exfalso. apply Hid.
    by exists pre, a, post. }
  clear Hs. pose proof (search_input_ws tag) as Hs.
  destruct (search re_input_ws tag) as [m|]; [|done].
  destruct Hs as (pre & ws & post & (-> & Hws & _) & Hne & _).
  exfalso. apply Hm. destruct ws as [|c ws]; [done|].
  inversion Hws; subst. exists pre, c, (ws ++ post). by split.
Qed.



Lemma batch_after_marker (tag id_name name_attr : str) :
  ~ (has_attribute "id" tag /\ has_attribute "name" tag) ->
  contains marker tag = true ->
  exists pre ws post toks,
    marker_at tag pre ws post
    /\ batch_tokens tag id_name name_attr toks
    /\ BatchFix.fix_input_tag tag id_name name_attr
       = pre ++ marker ++ ws ++ join (lit " ") toks ++ lit " " ++ post.
Proof.
  intros Hboth Hm. unfold BatchFix.fix_input_tag, batch_tokens.
  pose proof (found_has_attr "id" tag word_head_id) as Hi.
  pose proof (found_has_attr "name" tag word_head_name) as Hn.
  pose proof (found_false_iff "id" tag word_head_id) as Hi'.
  pose proof (found_false_iff "name" tag word_head_name) as Hn'.
  fold re_has_id in Hi, Hi'. fold re_has_name in Hn, Hn'.
  pose proof (search_input_batch tag) as Hs.
  destruct (match search re_input_plus tag with
            | Some m => Some m
            | None => search re_input_star tag
            end) as [m|]; [|congruence].
  destruct Hs as (pre & ws & post & Hat & He).
  assert (Hsp : forall toks : str,
            splice (m_end m) toks tag = pre ++ marker ++ ws ++ toks ++ post).
  { intros toks. destruct Hat as (-> & _ & _).
    rewrite He, !app_assoc, splice_app. by rewrite <- !app_assoc. }
  destruct (found re_has_id tag) eqn:Ei, (found re_has_name tag) eqn:En;
    cbn [negb andb app].
  - exfalso. apply Hboth. split; [by apply Hi | by apply Hn].
  - exists pre, ws, post, [attr "name" name_attr].
    split; [exact Hat|]. split.
    + left. repeat split; [by apply Hi | by apply Hn'].
    + rewrite Hsp. by rewrite <- !app_assoc.
  - exists pre, ws, post, [attr "id" id_name].
    split; [exact Hat|]. split.
    + right. left. repeat split; [by apply Hi' | by apply Hn].
    + rewrite Hsp. by rewrite <- !app_assoc.
  - exists pre, ws, post, [attr "id" id_name; attr "name" name_attr].
    split; [exact Hat|]. split.
    + right. right. repeat split; [by apply Hi' | by apply Hn'].
    + rewrite Hsp. by rewrite <- !app_assoc.
Qed.

Lemma batch_after_marker_first (tag id_name name_attr : str) :
  ~ (has_attribute "id" tag /\ has_attribute "name" tag) ->
  contains marker tag = true ->
  exists pre ws post toks,
    marker_at tag pre ws post
    /\ ((ws <> []
         /\ forall pre' c post',
              tag = pre' ++ marker ++ c :: post' -> is_space c = true ->
              length pre <= length pre')
        \/ (ws = [] /\ ~ has_marker_space tag
            /\ forall pre' post',
                 tag = pre' ++ marker ++ post' -> length pre <= length pre'))
    /\ batch_tokens tag id_name name_attr toks
    /\ BatchFix.fix_input_tag tag id_name name_attr
       = pre ++ marker ++ ws ++ join (lit " ") toks ++ lit " " ++ post.
Proof.
  intros Hboth Hm. unfold BatchFix.fix_input_tag, batch_tokens.
  pose proof (found_has_attr "id" tag word_head_id) as Hi.
  pose proof (found_has_attr "name" tag word_head_name) as Hn.
  pose proof (found_false_iff "id" tag word_head_id) as Hi'.
  pose proof (found_false_iff "name" tag word_head_name) as Hn'.
  fold re_has_id in Hi, Hi'. fold re_has_name in Hn, Hn'.
  pose proof (search_input_batch_first tag) as Hs.
  destruct (match search re_input_plus tag with
            | Some m => Some m
            | None => search re_input_star tag
            end) as [m|]; [|congruence].
  destruct Hs as (pre & ws & post & Hat & He & Hfirst).
  assert (Hsp : forall toks : str,
            splice (m_end m) toks tag = pre ++ marker ++ ws ++ toks ++ post).
  { intros toks. destruct Hat as (-> & _ & _).
    rewrite He, !app_assoc, splice_app. by rewrite <- !app_assoc. }
  destruct (found re_has_id tag) eqn:Ei, (found re_has_name tag) eqn:En;
    cbn [negb andb app].
  - exfalso. apply Hboth. split; [by apply Hi | by apply Hn].
  - exists pre, ws, post, [attr "name" name_attr].
    split; [exact Hat|]. split; [exact Hfirst|]. split.
    + left. repeat split; [by apply Hi | by apply Hn'].
    + rewrite Hsp. by rewrite <- !app_assoc.
  - exists pre, ws, post, [attr "id" id_name].
    split; [exact Hat|]. split; [exact Hfirst|]. split.
    + right. left. repeat split; [by apply Hi' | by apply Hn].
    + rewrite Hsp. by rewrite <- !app_assoc.
  - exists pre, ws, post, [attr "id" id_name; attr "name" name_attr].
    split; [exact Hat|]. split; [exact Hfirst|]. split.
    + right. right. repeat split; [by apply Hi' | by apply Hn'].
    + rewrite Hsp. by rewrite <- !app_assoc.
Qed.





End SplicerFacts.

(** ** Literal replacement, chunk by chunk

    Every pattern that [replace_console_statements] looks for is a word
    followed by an opening parenthesis, and so is every text it puts in.
    Cut at its parentheses, a text falls into chunks, and a replacement
    touches a chunk only where the chunk ends with the word. *)

Module ReplaceFacts.
Import Py Re Common Cases PyFacts.

Lemma startswith_elem (p s : str) (x : ascii) :
  startswith p s = true -> x ∈ p -> x ∈ s.
Proof.
  intros [b ->]%startswith_spec Hx. apply elem_of_app. by left.
Qed.

Lemma replace_from_skip (old new x y : str) :
  replace_from (length x) old new (x ++ y) = replace_from 0 old new y.
Proof.
  induction x as [|c x IH]; simpl; [|exact IH].
  by destruct y.
Qed.

(** The first parenthesis of a text cuts it in one way only. *)
Lemma cut_unique (u u' t t' : str) :
  lp ∉ u -> lp ∉ u' -> u ++ lp :: t = u' ++ lp :: t' -> u = u' /\ t = t'.
Proof.
  revert u'. induction u as [|c u IH]; intros [|c' u'] Hu Hu' H; simpl in H.
  - by injection H as ->.
  - injection H as <- _. exfalso. apply Hu'. by left.
  - injection H as -> _. exfalso. apply Hu. by left.
  - injection H as -> H.
    apply not_elem_of_cons in Hu as [_ Hu].
    apply not_elem_of_cons in Hu' as [_ Hu'].
    destruct (IH u' Hu Hu' H) as [-> ->]. done.
Qed.

Lemma suffix_cons_case (x u : str) (c : ascii) :
  x `suffix_of` c :: u -> x = c :: u \/ x `suffix_of` u.
Proof.
  intros [[|c' k] Hk]; simpl in Hk; [by left|].
  right. injection Hk as _ ->. by exists k.
Qed.

Lemma chunk_ind (P : str -> Prop) :
  (forall s, lp ∉ s -> P s) ->
  (forall u t, lp ∉ u -> P t -> P (u ++ lp :: t)) ->
  forall s, P s.
Proof.
  intros Hfree Hcut s.
  assert (H : forall u, lp ∉ u -> P (u ++ s)).
  { induction s as [|c s IH]; intros u Hu.
    - rewrite app_nil_r. by apply Hfree.
    - destruct (decide (c = lp)) as [->|Hc].
      + apply Hcut; [exact Hu|]. apply (IH []). apply not_elem_of_nil.
      + change (c :: s) with ([c] ++ s). rewrite app_assoc. apply IH.
        intros [H|H]%elem_of_app; [by apply Hu|].
        apply list_elem_of_singleton in H. by apply Hc. }
  apply (H []). apply not_elem_of_nil.
Qed.

Section Words.
(** [w] is looked for, [v] is put in, [q] is counted. *)
Variables w v q : str.
Hypothesis w_word : lp ∉ w.
Hypothesis q_word : lp ∉ q.
Hypothesis w_some : w <> [].
Hypothesis q_some : q <> [].

Lemma old_not_at_paren (t : str) : startswith (w ++ [lp]) (lp :: t) = false.
Proof using w_word w_some.
  destruct w as [|c w']; [done|]. simpl.
  destruct (chr_eqb c lp) eqn:E; [|reflexivity].
  apply chr_eqb_eq in E as ->. exfalso. apply w_word. by left.
Qed.

Lemma old_starts (u t : str) :
  lp ∉ u -> startswith (w ++ [lp]) (u ++ lp :: t) = true -> u = w.
Proof using w_word.
  intros Hu [b Hb]%startswith_spec.
  rewrite <- app_assoc in Hb. simpl in Hb.
  by destruct (cut_unique _ _ _ _ Hu w_word Hb).
Qed.

Lemma replace_free (s : str) :
  lp ∉ s -> replace (w ++ [lp]) (v ++ [lp]) s = s.
Proof using w_word.
  unfold replace. induction s as [|c s IH]; intros Hs; [reflexivity|].
  simpl. destruct (startswith (w ++ [lp]) (c :: s)) eqn:E.
  - exfalso. apply Hs. apply (startswith_elem (w ++ [lp]) _ lp E).
    apply elem_of_app. right. by left.
  - f_equal. apply IH. by apply not_elem_of_cons in Hs as [_ Hs].
Qed.

Lemma replace_chunk (u t : str) :
  lp ∉ u ->
  replace (w ++ [lp]) (v ++ [lp]) (u ++ lp :: t)
  = chunk_out w v u ++ lp :: replace (w ++ [lp]) (v ++ [lp]) t.
Proof using w_word w_some.
  unfold replace, chunk_out. induction u as [|c u IH]; intros Hu.
  - change ([] ++ lp :: t) with (lp :: t). cbn [replace_from].
    rewrite old_not_at_paren.
    destruct (decide (w `suffix_of` [])) as [Hs|]; [|reflexivity].
    apply suffix_nil_inv in Hs. done.
  - change ((c :: u) ++ lp :: t) with (c :: u ++ lp :: t).
    cbn [replace_from].
    destruct (startswith (w ++ [lp]) (c :: u ++ lp :: t)) eqn:E.
    + apply (old_starts (c :: u) t Hu) in E.
      destruct (decide (w `suffix_of` c :: u)) as [_|Hn];
        [|exfalso; apply Hn; by rewrite E].
      rewrite <- E, Nat.sub_diag. simpl take.
      rewrite <- app_assoc. simpl. do 2 f_equal.
      replace (pred (length (w ++ [lp]))) with (length (u ++ [lp])).
      * change (u ++ lp :: t) with (u ++ [lp] ++ t). rewrite app_assoc.
        apply replace_from_skip.
      * rewrite <- E, !length_app. simpl. lia.
    + apply not_elem_of_cons in Hu as [Hc Hu]. rewrite (IH Hu).
      destruct (decide (w `suffix_of` u)) as [Hs|Hs].
      * destruct (decide (w `suffix_of` c :: u)) as [_|Hn];
          [|exfalso; apply Hn; by apply suffix_cons_r].
        pose proof (suffix_length _ _ Hs).
        replace (length (c :: u) - length w) with (S (length u - length w))
          by (simpl; lia).
        reflexivity.
      * destruct (decide (w `suffix_of` c :: u)) as [Hs'|]; [|reflexivity].
        exfalso. apply suffix_cons_case in Hs' as [Hw|Hs']; [|done].
        rewrite Hw in E.
        change (c :: u ++ lp :: t) with ((c :: u) ++ [lp] ++ t) in E.
        rewrite app_assoc, startswith_app in E. discriminate.
Qed.

Lemma count_free (s : str) : lp ∉ s -> count (q ++ [lp]) s = 0.
Proof using Type.
  induction s as [|c s IH]; intros Hs; [reflexivity|].
  cbn [count]. destruct (startswith (q ++ [lp]) (c :: s)) eqn:E.
  - exfalso. apply Hs. apply (startswith_elem _ _ lp E).
    apply elem_of_app. right. by left.
  - rewrite IH; [reflexivity|]. by apply not_elem_of_cons in Hs as [_ Hs].
Qed.

Lemma count_chunk (u t : str) :
  lp ∉ u ->
  count (q ++ [lp]) (u ++ lp :: t)
  = (if decide (q `suffix_of` u) then 1 else 0) + count (q ++ [lp]) t.
Proof using q_word q_some.
  induction u as [|c u IH]; intros Hu.
  - change ([] ++ lp :: t) with (lp :: t). cbn [count].
    destruct (decide (q `suffix_of` [])) as [Hs|].
    { apply suffix_nil_inv in Hs. done. }
    destruct q as [|c q']; [done|]. simpl.
    destruct (chr_eqb c lp) eqn:E; [|reflexivity].
    apply chr_eqb_eq in E as ->. exfalso. apply q_word. by left.
  - change ((c :: u) ++ lp :: t) with (c :: u ++ lp :: t). cbn [count].
    apply not_elem_of_cons in Hu as [Hc Hu].
    rewrite (IH Hu).
    destruct (startswith (q ++ [lp]) (c :: u ++ lp :: t)) eqn:E.
    + apply startswith_spec in E as [b Hb]. rewrite <- app_assoc in Hb.
      simpl in Hb.
      assert (Hcu : lp ∉ c :: u) by (by apply not_elem_of_cons).
      change (c :: u ++ lp :: t) with ((c :: u) ++ lp :: t) in Hb.
      destruct (cut_unique _ _ _ _ Hcu q_word Hb) as [Hq _].
      destruct (decide (q `suffix_of` c :: u)) as [_|Hn];
        [|exfalso; apply Hn; by rewrite Hq].
      destruct (decide (q `suffix_of` u)) as [Hs|]; [|reflexivity].
      exfalso. apply suffix_length in Hs. rewrite <- Hq in Hs. simpl in Hs. lia.
    + destruct (decide (q `suffix_of` u)) as [Hs|Hs].
      * destruct (decide (q `suffix_of` c :: u)) as [_|Hn]; [reflexivity|].
        exfalso. apply Hn. by apply suffix_cons_r.
      * destruct (decide (q `suffix_of` c :: u)) as [Hs'|]; [|reflexivity].
        exfalso. apply suffix_cons_case in Hs' as [Hw|Hs']; [|done].
        rewrite Hw in E.
        change (c :: u ++ lp :: t) with ((c :: u) ++ [lp] ++ t) in E.
        rewrite app_assoc, startswith_app in E. discriminate.
Qed.

End Words.

Section Counting.
(** [w] is looked for, [v] is put in, [q] is counted. *)
Variables w v q : str.
Hypothesis w_word : lp ∉ w.
Hypothesis v_word : lp ∉ v.
Hypothesis q_word : lp ∉ q.
Hypothesis w_some : w <> [].
Hypothesis q_some : q <> [].

Lemma chunk_out_word (u : str) : lp ∉ u -> lp ∉ chunk_out w v u.
Proof using v_word.
  unfold chunk_out. intros Hu. destruct (decide _); [|exact Hu].
  intros [H|H]%elem_of_app; [|by apply v_word].
  apply Hu. rewrite <- (take_drop (length u - length w) u).
  apply elem_of_app. by left.
Qed.

Lemma chunk_out_end (u : str) :
  w `suffix_of` u -> q `suffix_of` chunk_out w v u ->
  q `suffix_of` v \/ v `suffix_of` q.
Proof using Type.
  unfold chunk_out. intros Hw Hq. destruct (decide _); [|done].
  apply (suffix_weak_total _ _ _ Hq). by apply suffix_app_r.
Qed.

(** A replacement leaves the count of another word as it was, when the
    word is neither the one replaced nor at the end of the one put in. *)
Lemma count_replace_other (s : str) :
  incomparable w q -> incomparable v q ->
  count (q ++ [lp]) (replace (w ++ [lp]) (v ++ [lp]) s) = count (q ++ [lp]) s.
Proof using w_word v_word q_word w_some q_some.
  intros [Hwq Hqw] [Hvq Hqv]. induction s as [s Hs|u t Hu IH] using chunk_ind.
  - by rewrite replace_free.
  - rewrite replace_chunk by done.
    rewrite !count_chunk by auto using chunk_out_word. rewrite IH. f_equal.
    destruct (decide (w `suffix_of` u)) as [Hw|Hw].
    + destruct (decide (q `suffix_of` chunk_out w v u)) as [Hq|_].
      { apply (chunk_out_end u Hw) in Hq. tauto. }
      destruct (decide (q `suffix_of` u)) as [Hq|_]; [|reflexivity].
      destruct (suffix_weak_total _ _ _ Hw Hq); tauto.
    + unfold chunk_out. destruct (decide (w `suffix_of` u)); [done|].
      reflexivity.
Qed.

(** A replacement by the counted word adds the places of the word
    replaced. *)
Lemma count_replace_into (s : str) :
  incomparable w q -> q `suffix_of` v ->
  count (q ++ [lp]) (replace (w ++ [lp]) (v ++ [lp]) s)
  = count (q ++ [lp]) s + count (w ++ [lp]) s.
Proof using w_word v_word q_word w_some q_some.
  intros [Hwq Hqw] Hqv. induction s as [s Hs|u t Hu IH] using chunk_ind.
  - rewrite replace_free by done. rewrite (count_free w) by done. lia.
  - rewrite replace_chunk by done.
    rewrite !count_chunk by auto using chunk_out_word. rewrite IH.
    destruct (decide (w `suffix_of` u)) as [Hw|Hw].
    + destruct (decide (q `suffix_of` chunk_out w v u)) as [_|Hq].
      2:{ exfalso. apply Hq. unfold chunk_out.
          destruct (decide (w `suffix_of` u)); [|done]. by apply suffix_app_r. }
      destruct (decide (q `suffix_of` u)) as [Hq|_]; [|lia].
      destruct (suffix_weak_total _ _ _ Hw Hq); tauto.
    + unfold chunk_out. destruct (decide (w `suffix_of` u)); [done|].
      destruct (decide (q `suffix_of` u)); lia.
Qed.

End Counting.

(** A replacement leaves no place of the word replaced, when neither that
    word nor the word put in ends with the other. *)
Lemma count_replace_gone (w v s : str) :
  lp ∉ w -> lp ∉ v -> w <> [] -> incomparable v w ->
  count (w ++ [lp]) (replace (w ++ [lp]) (v ++ [lp]) s) = 0.
Proof.
  intros Hw Hv Hne [Hvw Hwv]. induction s as [s Hs|u t Hu IH] using chunk_ind.
  - rewrite replace_free by done. by apply count_free.
  - rewrite replace_chunk by done.
    rewrite count_chunk by auto using chunk_out_word. rewrite IH.
    destruct (decide (w `suffix_of` chunk_out w v u)) as [Hq|_]; [|reflexivity].
    exfalso. destruct (decide (w `suffix_of` u)) as [Hs|Hs].
    + apply (chunk_out_end w v w u Hs) in Hq. tauto.
    + unfold chunk_out in Hq. by destruct (decide (w `suffix_of` u)).
Qed.

End ReplaceFacts.

(** ** Lines *)

Module LinesFacts.
Import Py Re Common Cases PyFacts.

Lemma split_not_nil c (s : str) : split c s <> [].
Proof.
  destruct s as [|a s]; simpl; [done|].
  destruct (chr_eqb a c); [done|]. by destruct (split c s).
Qed.

Lemma join_split c (s : str) : join [c] (split c s) = s.
Proof.
  induction s as [|a s IH]; [reflexivity|]. simpl.
  destruct (chr_eqb a c) eqn:E.
  - apply chr_eqb_eq in E as ->.
    pose proof (split_not_nil c s). destruct (split c s) as [|l ls]; [done|].
    simpl in *. by rewrite IH.
  - destruct (split c s) as [|l ls] eqn:Es; [by destruct (split_not_nil c s)|].
    rewrite <- IH. by destruct ls.
Qed.

Lemma split_free c (s : str) : Forall (fun l => c ∉ l) (split c s).
Proof.
  induction s as [|a s IH]; simpl.
  - constructor; [apply not_elem_of_nil | constructor].
  - destruct (chr_eqb a c) eqn:E.
    + constructor; [apply not_elem_of_nil | exact IH].
    + apply chr_eqb_neq in E.
      destruct (split c s) as [|l ls].
      * constructor; [|constructor].
        apply not_elem_of_cons. split; [congruence | apply not_elem_of_nil].
      * inversion IH as [|? ? Hl Hls]; subst. constructor; [|exact Hls].
        apply not_elem_of_cons. split; [congruence | exact Hl].
Qed.

Lemma split_free_line c (l : str) : c ∉ l -> split c l = [l].
Proof.
  induction l as [|a l IH]; intros Hl; [reflexivity|]. simpl.
  apply not_elem_of_cons in Hl as [Ha Hl].
  destruct (chr_eqb a c) eqn:E; [apply chr_eqb_eq in E; by subst|].
  by rewrite (IH Hl).
Qed.

Lemma split_app_sep c (l rest : str) :
  c ∉ l -> split c (l ++ c :: rest) = l :: split c rest.
Proof.
  induction l as [|a l IH]; intros Hl; simpl.
  - by rewrite chr_eqb_refl.
  - apply not_elem_of_cons in Hl as [Ha Hl].
    destruct (chr_eqb a c) eqn:E; [apply chr_eqb_eq in E; by subst|].
    by rewrite (IH Hl).
Qed.

Lemma split_join c (ls : list str) :
  ls <> [] -> Forall (fun l => c ∉ l) ls -> split c (join [c] ls) = ls.
Proof.
  induction ls as [|l ls IH]; intros Hne Hls; [done|].
  inversion Hls as [|? ? Hl Hls']; subst.
  destruct ls as [|l' ls]; [by apply split_free_line|].
  cbn [join]. change ([c] ++ ?x) with (c :: x).
  rewrite split_app_sep by exact Hl. f_equal. by apply IH.
Qed.

Lemma join_cons sep (l l' : str) (ls : list str) :
  join sep (l :: l' :: ls) = l ++ sep ++ join sep (l' :: ls).
Proof. reflexivity. Qed.

(** A text is in the whole of which it is a line. *)
Lemma contains_join_elem (p sep l : str) (ls : list str) :
  In l ls -> contains p l = true -> contains p (join sep ls) = true.
Proof.
  induction ls as [|l0 ls IH]; intros Hin Hp; [done|].
  destruct ls as [|l1 ls].
  - destruct Hin as [->|[]]. exact Hp.
  - rewrite join_cons. destruct Hin as [->|Hin].
    + by apply contains_app_l.
    + apply contains_app_r, contains_app_r. by apply IH.
Qed.

(** A pattern without the separator starts in a line or not at all. *)
Lemma startswith_app_sep (p l rest : str) c :
  c ∉ p -> startswith p (l ++ c :: rest) = startswith p l.
Proof.
  revert l. induction p as [|a p IH]; intros l Hp; [by destruct l|].
  apply not_elem_of_cons in Hp as [Ha Hp].
  destruct l as [|b l]; simpl.
  - destruct (chr_eqb a c) eqn:E; [|reflexivity].
    apply chr_eqb_eq in E. by subst.
  - by rewrite (IH l Hp).
Qed.

Lemma startswith_at_sep (p rest : str) c :
  c ∉ p -> p <> [] -> startswith p (c :: rest) = false.
Proof.
  intros Hp Hne. pose proof (startswith_app_sep p [] rest c Hp) as H.
  simpl in H. rewrite H. by destruct p.
Qed.

Lemma startswith_cons_sep (p l rest : str) b c :
  c ∉ p -> startswith p (b :: l ++ c :: rest) = startswith p (b :: l).
Proof. apply (startswith_app_sep p (b :: l)). Qed.

Lemma count_app_sep (p l rest : str) c :
  c ∉ p -> p <> [] ->
  count p (l ++ c :: rest) = count p l + count p rest.
Proof.
  intros Hp Hne. induction l as [|b l IH].
  - change ([] ++ c :: rest) with (c :: rest). cbn [count].
    by rewrite startswith_at_sep.
  - change ((b :: l) ++ c :: rest) with (b :: l ++ c :: rest). cbn [count].
    rewrite IH, startswith_cons_sep by done. lia.
Qed.

Lemma count_join (p : str) c (ls : list str) :
  c ∉ p -> p <> [] ->
  count p (join [c] ls) = list_sum (map (count p) ls).
Proof.
  intros Hp Hne. induction ls as [|l ls IH]; [reflexivity|].
  destruct ls as [|l' ls]; [simpl; lia|].
  rewrite join_cons. change ([c] ++ ?x) with (c :: x).
  rewrite count_app_sep by done. rewrite IH. reflexivity.
Qed.

(** A literal replacement works line by line. *)
Lemma replace_from_app_sep (old new l rest : str) c k :
  c ∉ old -> old <> [] -> k <= length l ->
  replace_from k old new (l ++ c :: rest)
  = replace_from k old new l ++ c :: replace_from 0 old new rest.
Proof.
  intros Ho Hne. revert k. induction l as [|b l IH]; intros k Hk.
  - simpl in Hk. replace k with 0 by lia.
    change ([] ++ c :: rest) with (c :: rest). cbn [replace_from].
    by rewrite startswith_at_sep.
  - change ((b :: l) ++ c :: rest) with (b :: l ++ c :: rest).
    cbn [replace_from]. destruct k as [|k].
    + rewrite startswith_cons_sep by done.
      destruct (startswith old (b :: l)) eqn:E.
      * apply startswith_length in E. simpl in E.
        rewrite IH by lia. by rewrite <- app_assoc.
      * by rewrite IH by lia.
    + simpl in Hk. apply IH. lia.
Qed.

Lemma replace_app_sep (old new l rest : str) c :
  c ∉ old -> old <> [] ->
  replace old new (l ++ c :: rest)
  = replace old new l ++ c :: replace old new rest.
Proof.
  intros Ho Hne. unfold replace. apply replace_from_app_sep; [done|done|lia].
Qed.

Lemma replace_from_free (old new s : str) c k :
  c ∉ new -> c ∉ s -> c ∉ replace_from k old new s.
Proof.
  intros Hn. revert k. induction s as [|b s IH]; intros k Hs; [done|].
  apply not_elem_of_cons in Hs as [Hb Hs]. cbn [replace_from].
  destruct k as [|k]; [|by apply IH].
  destruct (startswith old (b :: s)).
  - intros [H|H]%elem_of_app; [by apply Hn | by apply (IH _ Hs) in H].
  - apply not_elem_of_cons. split; [exact Hb | by apply IH].
Qed.

End LinesFacts.

(** ** The console-call rewriter *)

Module ConsoleFacts.
Import Py Re Common Cases PyFacts ReFacts PatternFacts ReplaceFacts LinesFacts.
Import FixConsole.

Ltac decided := apply (bool_decide_unpack _); vm_compute; exact I.

Lemma incomparable_sym (x y : str) : incomparable x y -> incomparable y x.
Proof. intros [H1 H2]. by split. Qed.

(** The counts of [console.log(], [console.info(] and [logger.info(] along
    the five replacements. *)
Lemma replaced_counts (s : str) :
  count (lit "console.log(") (replace_console_statements s) = 0
  /\ count (lit "logger.info(") (replace_console_statements s)
     = count (lit "logger.info(") s + count (lit "console.info(") s
       + count (lit "console.log(") s.
Proof.
  unfold replace_console_statements.
  change (lit "console.debug(") with (lit "console.debug" ++ [lp]).
  change (lit "console.error(") with (lit "console.error" ++ [lp]).
  change (lit "console.warn(") with (lit "console.warn" ++ [lp]).
  change (lit "console.info(") with (lit "console.info" ++ [lp]).
  change (lit "console.log(") with (lit "console.log" ++ [lp]).
  change (lit "logger.debug(") with (lit "logger.debug" ++ [lp]).
  change (lit "logger.error(") with (lit "logger.error" ++ [lp]).
  change (lit "logger.warn(") with (lit "logger.warn" ++ [lp]).
  change (lit "logger.info(") with (lit "logger.info" ++ [lp]).
  split.
  - apply count_replace_gone; decided.
  - rewrite count_replace_into by decided.
    rewrite count_replace_into by decided.
    rewrite !count_replace_other by decided.
    lia.
Qed.

Lemma count_pos_contains (p s : str) : 0 < count p s -> contains p s = true.
Proof.
  induction s as [|c s IH]; cbn [count contains]; [lia|].
  destruct (startswith p (c :: s)); [reflexivity|]. exact IH.
Qed.

(** A call of [console.log] is found by the pattern of [fix_file]. *)
Lemma matches_console_log prev rest :
  matches re_console prev (lit "console.log(") rest.
Proof.
  unfold re_console.
  apply (M_Seq' _ _ _ (lit "console.") (lit "log("));
    [reflexivity | by apply matches_Word |].
  apply (M_Seq' _ _ _ (lit "log") (lit "(")); [reflexivity | | constructor].
  constructor. do 4 apply M_AltR. by apply matches_Word.
Qed.

Lemma console_log_found (content : str) :
  0 < count (lit "console.log(") content -> found re_console content = true.
Proof.
  intros H. apply count_pos_contains, contains_spec in H as (a & b & ->).
  unfold found. destruct (search re_console _) eqn:E; [reflexivity|].
  exfalso. apply (search_none _ _ E a (lit "console.log(") b eq_refl).
  apply matches_console_log.
Qed.

(** Where [add_logger_import] puts its line. *)
Lemma last_import_idx_spec (lines : list str) : forall i acc,
  match last_import_idx i lines acc with
  | Some k =>
      (acc = Some k /\ Forall (fun l => ~ is_import l) lines)
      \/ exists body last post,
           lines = body ++ last :: post /\ k = i + length body
           /\ is_import last /\ Forall (fun l => ~ is_import l) post
  | None => acc = None /\ Forall (fun l => ~ is_import l) lines
  end.
Proof.
  unfold is_import. induction lines as [|l ls IH]; intros i acc.
  - simpl. destruct acc; [left|]; by split.
  - cbn [last_import_idx].
    specialize (IH (S i)
      (if startswith (lit "import ") (strip_space l) then Some i else acc)).
    destruct (last_import_idx (S i) ls _) as [k|].
    + destruct IH as [[Ha Hls]|(body & last & post & -> & -> & Hl & Hp)].
      * destruct (startswith (lit "import ") (strip_space l)) eqn:E.
        -- injection Ha as <-. right. exists [], l, ls.
           rewrite Nat.add_0_r. by repeat split.
        -- left. split; [exact Ha|]. constructor; [congruence | exact Hls].
      * right. exists (l :: body), last, post. simpl.
        repeat split; [lia | exact Hl | exact Hp].
    + destruct IH as [Ha Hls].
      destruct (startswith (lit "import ") (strip_space l)) eqn:E;
        [discriminate|].
      split; [exact Ha|]. constructor; [congruence | exact Hls].
Qed.

Lemma add_logger_import_spec (content : str) :
  exists pre post,
    split nl content = pre ++ post
    /\ add_logger_import content = join [nl] (pre ++ import_line :: post)
    /\ ((exists body last, pre = body ++ [last] /\ is_import last) \/ pre = [])
    /\ Forall (fun l => ~ is_import l) post.
Proof.
  unfold add_logger_import, insert_at.
  pose proof (last_import_idx_spec (split nl content) 0 None) as H.
  destruct (last_import_idx 0 (split nl content) None) as [k|].
  - destruct H as [[H _]|(body & last & post & Hs & -> & Hl & Hp)];
      [discriminate|].
    exists (body ++ [last]), post. rewrite Hs. simpl.
    replace (body ++ last :: post) with ((body ++ [last]) ++ post)
      by (by rewrite <- app_assoc).
    replace (length body + 1) with (length (body ++ [last]))
      by (rewrite length_app; simpl; lia).
    rewrite take_app_length, drop_app_length.
    repeat split; [| exact Hp]. left. by exists body, last.
  - destruct H as [_ Hp]. exists [], (split nl content).
    rewrite take_0, drop_0. repeat split; [by right | exact Hp].
Qed.

(** The five replacements work line by line, keep a line a line, keep the
    parentheses, and leave a line without parentheses as it is. *)
Lemma rcs_app_sep (l rest : str) :
  replace_console_statements (l ++ nl :: rest)
  = replace_console_statements l ++ nl :: replace_console_statements rest.
Proof.
  unfold replace_console_statements. by rewrite !replace_app_sep by decided.
Qed.

Lemma rcs_join (ls : list str) :
  replace_console_statements (join [nl] ls)
  = join [nl] (map replace_console_statements ls).
Proof.
  induction ls as [|l ls IH]; [reflexivity|].
  destruct ls as [|l' ls]; [reflexivity|].
  rewrite join_cons. change ([nl] ++ ?x) with (nl :: x).
  rewrite rcs_app_sep, IH. reflexivity.
Qed.

Lemma rcs_line (l : str) : nl ∉ l -> nl ∉ replace_console_statements l.
Proof.
  intros H. unfold replace_console_statements, replace.
  repeat (apply replace_from_free; [decided|]). exact H.
Qed.

Lemma replace_keeps_paren (w v s : str) :
  lp ∉ w -> w <> [] -> lp ∈ s -> lp ∈ replace (w ++ [lp]) (v ++ [lp]) s.
Proof.
  intros Hw Hne (u & t & -> & Hu)%list_elem_of_split_l.
  rewrite replace_chunk by done. apply elem_of_app. right. by left.
Qed.

Lemma rcs_keeps_paren (l : str) :
  lp ∈ l -> lp ∈ replace_console_statements l.
Proof.
  intros H. unfold replace_console_statements.
  change (lit "console.debug(") with (lit "console.debug" ++ [lp]).
  change (lit "console.error(") with (lit "console.error" ++ [lp]).
  change (lit "console.warn(") with (lit "console.warn" ++ [lp]).
  change (lit "console.info(") with (lit "console.info" ++ [lp]).
  change (lit "console.log(") with (lit "console.log" ++ [lp]).
  change (lit "logger.debug(") with (lit "logger.debug" ++ [lp]).
  change (lit "logger.error(") with (lit "logger.error" ++ [lp]).
  change (lit "logger.warn(") with (lit "logger.warn" ++ [lp]).
  change (lit "logger.info(") with (lit "logger.info" ++ [lp]).
  repeat (apply replace_keeps_paren; [decided | decided |]). exact H.
Qed.

Lemma rcs_free (l : str) : lp ∉ l -> replace_console_statements l = l.
Proof.
  intros H. unfold replace_console_statements.
  change (lit "console.debug(") with (lit "console.debug" ++ [lp]).
  change (lit "console.error(") with (lit "console.error" ++ [lp]).
  change (lit "console.warn(") with (lit "console.warn" ++ [lp]).
  change (lit "console.info(") with (lit "console.info" ++ [lp]).
  change (lit "console.log(") with (lit "console.log" ++ [lp]).
  change (lit "logger.debug(") with (lit "logger.debug" ++ [lp]).
  change (lit "logger.error(") with (lit "logger.error" ++ [lp]).
  change (lit "logger.warn(") with (lit "logger.warn" ++ [lp]).
  change (lit "logger.info(") with (lit "logger.info" ++ [lp]).
  rewrite (replace_free (lit "console.debug") _ ltac:(decided) l H).
  rewrite (replace_free (lit "console.error") _ ltac:(decided) l H).
  rewrite (replace_free (lit "console.warn") _ ltac:(decided) l H).
  rewrite (replace_free (lit "console.info") _ ltac:(decided) l H).
  by rewrite (replace_free (lit "console.log") _ ltac:(decided) l H).
Qed.

(** No line of a file without the import becomes the import line. *)
Lemma rcs_not_import (content l : str) :
  has_logger_import content = false -> In l (split nl content) ->
  replace_console_statements l <> import_line.
Proof.
  intros Hi Hl Heq.
  assert (Hp : lp ∉ l).
  { intros H%rcs_keeps_paren. rewrite Heq in H. revert H. decided. }
  rewrite (rcs_free l Hp) in Heq. subst l.
  unfold has_logger_import in Hi. apply orb_false_iff in Hi as [Hi _].
  rewrite <- (join_split nl content) in Hi.
  rewrite (contains_join_elem _ _ import_line _ Hl) in Hi; [discriminate|].
  reflexivity.
Qed.

Lemma list_sum_import (p : str) (pre post : list str) :
  count p import_line = 0 ->
  list_sum (map (count p) (pre ++ import_line :: post))
  = list_sum (map (count p) (pre ++ post)).
Proof.
  intros H. rewrite !map_app, !list_sum_app. cbn [map].
  change (list_sum (?x :: ?l)) with (x + list_sum l). rewrite H. lia.
Qed.

Lemma filter_none (ls : list str) (x : str) :
  (forall l, In l ls -> l <> x) -> filter (fun l => l = x) ls = [].
Proof.
  induction ls as [|l ls IH]; intros H; [reflexivity|].
  rewrite filter_cons. destruct (decide (l = x)) as [E|_].
  - exfalso. apply (H l); [by left | exact E].
  - apply IH. intros l' Hl'. apply H. by right.
Qed.

(** C6.  A file with exactly three [console.log(] and no logger import is
    rewritten: the import line is put in once, right after the last line
    that is an import or at the top when there is none, the other lines
    come out of the five replacements in their order, no [console.log(] is
    left, and [logger.info(] stands at three places more, besides those of
    the calls of [console.info] that were replaced too. *)
Theorem rewriter_three_calls (content : str) :
  count (lit "console.log(") content = 3 ->
  has_logger_import content = false ->
  exists out pre post,
    rewrite content = Some out
    /\ split nl content = pre ++ post
    /\ split nl out
       = map replace_console_statements pre
         ++ import_line :: map replace_console_statements post
    /\ ((exists body last, pre = body ++ [last] /\ is_import last)
        \/ pre = [])
    /\ Forall (fun l => ~ is_import l) post
    /\ length (filter (fun l => l = import_line) (split nl out)) = 1
    /\ count (lit "console.log(") out = 0
    /\ count (lit "logger.info(") out
       = count (lit "logger.info(") content
         + count (lit "console.info(") content + 3.
Proof.
  intros H3 Hi.
  destruct (add_logger_import_spec content)
    as (pre & post & Hs & Ha & Hpos & Hp).
  exists (replace_console_statements (add_logger_import content)), pre, post.
  assert (Hout : replace_console_statements (add_logger_import content)
                 = join [nl] (map replace_console_statements pre
                              ++ import_line
                                 :: map replace_console_statements post)).
  { rewrite Ha, rcs_join, map_app. reflexivity. }
  assert (Hlines : split nl (replace_console_statements
                              (add_logger_import content))
                   = map replace_console_statements pre
                     ++ import_line :: map replace_console_statements post).
  { rewrite Hout. apply split_join; [by destruct (map _ pre)|].
    pose proof (split_free nl content) as Hf. rewrite Hs in Hf.
    apply Forall_app in Hf as [Hf1 Hf2].
    apply Forall_app. split; [|constructor; [decided|]].
    - apply Forall_map. eapply Forall_impl; [exact Hf1|]. apply rcs_line.
    - apply Forall_map. eapply Forall_impl; [exact Hf2|]. apply rcs_line. }
  split.
  { unfold rewrite. rewrite console_log_found by lia. by rewrite Hi. }
  split; [exact Hs|]. split; [exact Hlines|]. split; [exact Hpos|].
  split; [exact Hp|]. split.
  { rewrite Hlines, filter_app, filter_cons.
    destruct (decide (import_line = import_line)) as [_|]; [|done].
    rewrite !filter_none; [reflexivity | |].
    - intros l (l0 & <- & Hl0)%in_map_iff.
      apply (rcs_not_import content l0 Hi). rewrite Hs.
      apply in_or_app. by right.
    - intros l (l0 & <- & Hl0)%in_map_iff.
      apply (rcs_not_import content l0 Hi). rewrite Hs.
      apply in_or_app. by left. }
  assert (Hc : forall p : str,
            nl ∉ p -> p <> [] -> count p import_line = 0 ->
            count p (add_logger_import content) = count p content).
  { intros p Hn Hne H0. rewrite Ha. rewrite <- (join_split nl content).
    rewrite !count_join by done. rewrite Hs. by apply list_sum_import. }
  destruct (replaced_counts (add_logger_import content)) as [Hgone Hinfo].
  split; [exact Hgone|]. rewrite Hinfo.
  rewrite !Hc; [lia | decided | decided | reflexivity
               | decided | decided | reflexivity
               | decided | decided | reflexivity].
Qed.

Lemma rewriter_three_calls_witness :
  exists out pre post,
    rewrite three_logs = Some out
    /\ split nl three_logs = pre ++ post
    /\ split nl out
       = map replace_console_statements pre
         ++ import_line :: map replace_console_statements post
    /\ ((exists body last, pre = body ++ [last] /\ is_import last)
        \/ pre = [])
    /\ Forall (fun l => ~ is_import l) post
    /\ length (filter (fun l => l = import_line) (split nl out)) = 1
    /\ count (lit "console.log(") out = 0
    /\ count (lit "logger.info(") out
       = count (lit "logger.info(") three_logs
         + count (lit "console.info(") three_logs + 3.
Proof.
  apply (rewriter_three_calls three_logs); reflexivity.
Defined.

(** The rewritten script. *)
Example three_logs_rewritten :
  rewrite three_logs
  = Some (lit "import a from 'a';" ++ [nl]
          ++ lit "import b from 'b';" ++ [nl]
          ++ import_line ++ [nl]
          ++ lit "logger.info(1);" ++ [nl]
          ++ lit "logger.info(a, b);" ++ [nl]
          ++ lit "export const f = () => logger.info('f');").
Proof. reflexivity. Qed.

(** The line of an import may start with white space of any kind, as
    with the no-break space U+00A0. *)
Example import_after_no_break_space :
  is_import (["194"%char; "160"%char] ++ lit "import b from 'b';")
  /\ rewrite (["194"%char; "160"%char] ++ lit "import b from 'b';" ++ [nl]
              ++ lit "console.log(b);")
     = Some (["194"%char; "160"%char] ++ lit "import b from 'b';" ++ [nl]
             ++ import_line ++ [nl] ++ lit "logger.info(b);").
Proof. split; reflexivity. Qed.

End ConsoleFacts.

(** ** The loops run to their end *)

Module LoopFacts.
Import Py Re Common Cases PyFacts.

Lemma while_line_done {S : Type} (line_at : S -> option str)
    (body : S -> str -> S) (measure : S -> nat) :
  (forall s line, line_at s = Some line -> measure (body s line) < measure s) ->
  forall fuel s,
    measure s <= fuel -> line_at (while_line line_at body fuel s) = None.
Proof.
  intros Hb. induction fuel as [|fuel IH]; intros s Hm; simpl.
  - destruct (line_at s) as [line|] eqn:E; [|reflexivity].
    specialize (Hb s line E). lia.
  - destruct (line_at s) as [line|] eqn:E; [|exact E].
    apply IH. specialize (Hb s line E). lia.
Qed.


Lemma grow_idx (rest acc : list str) (i : nat) : i <= snd (grow acc i rest).
Proof.
  revert acc i. induction rest as [|l rest IH]; intros acc i; simpl.
  - by destruct (contains gt (concat acc)).
  - destruct (contains gt (concat acc)); [simpl; lia|].
    specialize (IH (acc ++ [l]) (S i)). lia.
Qed.

Lemma grow_tag_idx (sep : str) (rest : list str) (tag : str) (i : nat) :
  i <= snd (grow_tag sep tag i rest).
Proof.
  revert tag i. induction rest as [|l rest IH]; intros tag i; simpl.
  - by destruct (contains gt tag).
  - destruct (contains gt tag); [simpl; lia|].
    specialize (IH (tag ++ sep ++ l) (S i)). lia.
Qed.

Lemma reassemble_list_idx (lines : list str) (i : nat) (line : str) :
  i <= last_idx (reassemble_list lines i line).
Proof.
  unfold reassemble_list.
  pose proof (grow_idx (drop (S i) lines) [line] i) as H.
  by destruct (grow [line] i (drop (S i) lines)).
Qed.

Lemma reassemble_idx (sep : str) (lines : list str) (i : nat) (line : str) :
  i <= last_idx (reassemble sep lines i line).
Proof.
  unfold reassemble.
  pose proof (grow_tag_idx sep (drop (S i) lines) line i) as H.
  by destruct (grow_tag sep line i (drop (S i) lines)).
Qed.

(** One pass of each loop moves the index forward, and the passes of the
    two patchers that write into [lines] keep the number of lines. *)
Lemma comprehensive_step (file_path : str) (s : ComprehensiveFix.st) line :
  ComprehensiveFix.idx s
  < ComprehensiveFix.idx (ComprehensiveFix.step file_path s line)
  /\ length (ComprehensiveFix.lines (ComprehensiveFix.step file_path s line))
     = length (ComprehensiveFix.lines s).
Proof.
  unfold ComprehensiveFix.step.
  pose proof (reassemble_list_idx (ComprehensiveFix.lines s)
                (ComprehensiveFix.idx s) line) as Hi.
  destruct (contains marker line); [|simpl; lia].
  destruct (contains hidden _); [simpl; lia|].
  destruct (negb _ && negb _); [|simpl; lia].
  destruct (ComprehensiveFix.generate_smart_id _ _ _) as [id_val name_val].
  destruct (search re_input_ws _); simpl; [|lia].
  unfold overwrite. rewrite length_inserts. lia.
Qed.

Lemma final_step (s : FinalFix.st) line :
  FinalFix.idx s < FinalFix.idx (FinalFix.step s line)
  /\ length (FinalFix.lines (FinalFix.step s line)) = length (FinalFix.lines s).
Proof.
  unfold FinalFix.step.
  pose proof (reassemble_list_idx (FinalFix.lines s) (FinalFix.idx s) line)
    as Hi.
  destruct (contains marker line); [|simpl; lia].
  destruct (negb _); simpl; [|lia].
  unfold overwrite. rewrite length_inserts. lia.
Qed.

Lemma batch_step (lines : list str) (content : str) (s : BatchFix.st) line :
  BatchFix.idx s < BatchFix.idx (BatchFix.step lines content s line).
Proof.
  unfold BatchFix.step.
  pose proof (reassemble_idx [nl] lines (BatchFix.idx s) line) as Hi.
  destruct (contains marker line && _); [|simpl; lia].
  destruct (negb _ && negb _); [|simpl; lia].
  destruct (BatchFix.generate_id_from_context _ _ _) as [id_name name_attr].
  destruct (negb _); simpl; [|lia].
  pose proof (LinesFacts.split_not_nil nl
                (BatchFix.fix_input_tag
                   (text (reassemble [nl] lines (BatchFix.idx s) line))
                   id_name name_attr)) as Hn.
  destruct (split nl _); [done | simpl; lia].
Qed.

Lemma enhanced_step (lines : list str) (s : EnhancedScan.st) line :
  EnhancedScan.idx s < EnhancedScan.idx (EnhancedScan.step lines s line).
Proof.
  unfold EnhancedScan.step.
  pose proof (reassemble_idx [nl] lines (EnhancedScan.idx s) line) as Hi.
  destruct (contains marker line); [|simpl; lia].
  destruct (contains hidden _); [simpl; lia|]. cbn [EnhancedScan.v_issues].
  destruct (EnhancedScan.issues_of _); simpl; lia.
Qed.

Lemma form_fields_step (lines : list str) (s : FixFormFields.st) line :
  FixFormFields.idx s < FixFormFields.idx (FixFormFields.step lines s line).
Proof.
  unfold FixFormFields.step.
  pose proof (reassemble_idx [] lines (FixFormFields.idx s) line) as Hi.
  destruct (contains marker line); [|simpl; lia].
  destruct (_ && _); simpl; lia.
Qed.

(** X1.  With the number of lines as fuel, each of the five loops stops because
    its index has left the lines, not because the fuel has run out. *)
Theorem loops_run_to_end (content file_path : str) :
  let lines := split nl content in
  (let s := ComprehensiveFix.loop (length lines) file_path
              (ComprehensiveFix.St lines 0 0) in
   ComprehensiveFix.lines s !! ComprehensiveFix.idx s = None)
  /\ (let s := FinalFix.loop (length lines) (FinalFix.St lines 0 0) in
      FinalFix.lines s !! FinalFix.idx s = None)
  /\ (let s := BatchFix.loop (length lines) lines content
                (BatchFix.St 0 [] 0) in
      lines !! BatchFix.idx s = None)
  /\ (let s := EnhancedScan.loop (length lines) lines (EnhancedScan.St 0 []) in
      lines !! EnhancedScan.idx s = None)
  /\ (let lines := readlines content in
      let s := FixFormFields.loop (length lines) lines
                 (FixFormFields.St 0 []) in
      lines !! FixFormFields.idx s = None).
Proof.
  cbv zeta. repeat split.
  - unfold ComprehensiveFix.loop.
    apply (while_line_done
             (fun s => ComprehensiveFix.lines s !! ComprehensiveFix.idx s)
             (ComprehensiveFix.step file_path)
             (fun s => length (ComprehensiveFix.lines s)
                       - ComprehensiveFix.idx s));
      [|simpl; lia].
    intros s line Hl. apply lookup_lt_Some in Hl.
    destruct (comprehensive_step file_path s line) as [Hi Hn]. lia.
  - unfold FinalFix.loop.
    apply (while_line_done
             (fun s => FinalFix.lines s !! FinalFix.idx s) FinalFix.step
             (fun s => length (FinalFix.lines s) - FinalFix.idx s));
      [|simpl; lia].
    intros s line Hl. apply lookup_lt_Some in Hl.
    destruct (final_step s line) as [Hi Hn]. lia.
  - unfold BatchFix.loop.
    apply (while_line_done
             (fun s => split nl content !! BatchFix.idx s)
             (BatchFix.step (split nl content) content)
             (fun s => length (split nl content) - BatchFix.idx s));
      [|simpl; lia].
    intros s line Hl. apply lookup_lt_Some in Hl.
    pose proof (batch_step (split nl content) content s line). lia.
  - unfold EnhancedScan.loop.
    apply (while_line_done
             (fun s => split nl content !! EnhancedScan.idx s)
             (EnhancedScan.step (split nl content))
             (fun s => length (split nl content) - EnhancedScan.idx s));
      [|simpl; lia].
    intros s line Hl. apply lookup_lt_Some in Hl.
    pose proof (enhanced_step (split nl content) s line). lia.
  - unfold FixFormFields.loop.
    apply (while_line_done
             (fun s => readlines content !! FixFormFields.idx s)
             (FixFormFields.step (readlines content))
             (fun s => length (readlines content) - FixFormFields.idx s));
      [|simpl; lia].
    intros s line Hl. apply lookup_lt_Some in Hl.
    pose proof (form_fields_step (readlines content) s line). lia.
Qed.

End LoopFacts.

(** ** What the patchers keep *)

Module FrameFacts.
Import Py Re Common Cases PyFacts ReFacts PatternFacts LinesFacts LoopFacts.

Lemma while_line_inv {S : Type} (line_at : S -> option str)
    (body : S -> str -> S) (P : S -> Prop) :
  (forall s line, line_at s = Some line -> P s -> P (body s line)) ->
  forall fuel s, P s -> P (while_line line_at body fuel s).
Proof.
  intros Hb. induction fuel as [|fuel IH]; intros s Hs; simpl; [exact Hs|].
  destruct (line_at s) as [line|] eqn:E; [|exact Hs].
  apply IH. by apply Hb.
Qed.

Lemma overwrite_Forall (P : str -> Prop) (new lines : list str) (start : nat) :
  Forall P new -> Forall P lines -> Forall P (overwrite start new lines).
Proof.
  unfold overwrite. intros Hn Hl. revert start.
  induction Hn as [|x new Hx Hn IH]; intros start; simpl; [exact Hl|].
  apply Forall_insert; [apply IH | exact Hx].
Qed.

Lemma lines_of_join (n : nat) (lines : list str) :
  0 < n -> lines_of n lines -> length (split nl (join [nl] lines)) = n.
Proof.
  intros Hn [Hl Hf]. rewrite split_join; [exact Hl | | exact Hf].
  destruct lines; [simpl in Hl; lia | done].
Qed.

Lemma comprehensive_step_lines (file_path : str) n
    (s : ComprehensiveFix.st) line :
  lines_of n (ComprehensiveFix.lines s) ->
  lines_of n (ComprehensiveFix.lines (ComprehensiveFix.step file_path s line)).
Proof.
  intros [Hl Hf]. split.
  - destruct (comprehensive_step file_path s line) as [_ ->]. exact Hl.
  - unfold ComprehensiveFix.step.
    destruct (contains marker line); [|exact Hf].
    destruct (contains hidden _); [exact Hf|].
    destruct (negb _ && negb _); [|exact Hf].
    destruct (ComprehensiveFix.generate_smart_id _ _ _) as [id_val name_val].
    destruct (search re_input_ws _); [|exact Hf]. simpl.
    apply overwrite_Forall; [apply split_free | exact Hf].
Qed.

Lemma final_step_lines n (s : FinalFix.st) line :
  lines_of n (FinalFix.lines s) ->
  lines_of n (FinalFix.lines (FinalFix.step s line)).
Proof.
  intros [Hl Hf]. split.
  - destruct (final_step s line) as [_ ->]. exact Hl.
  - unfold FinalFix.step.
    destruct (contains marker line); [|exact Hf].
    destruct (negb _); [|exact Hf]. simpl.
    apply overwrite_Forall; [apply split_free | exact Hf].
Qed.

(** X2.  The patch of [comprehensive_fix.py] and of
    [final_comprehensive_fix.py] gives a text of as many lines as it was
    given. *)
Theorem line_count_kept (content file_path : str) :
  length
    (split nl (fst (ComprehensiveFix.fix_input_in_content content file_path)))
  = length (split nl content)
  /\ length (split nl (fst (FinalFix.fix_content content)))
     = length (split nl content).
Proof.
  assert (Hn : 0 < length (split nl content)).
  { pose proof (split_not_nil nl content). destruct (split nl content);
      [done | simpl; lia]. }
  assert (H0 : lines_of (length (split nl content)) (split nl content)).
  { split; [reflexivity | apply split_free]. }
  split.
  - unfold ComprehensiveFix.fix_input_in_content, ComprehensiveFix.loop. simpl.
    apply (lines_of_join _ _ Hn).
    apply (while_line_inv _ _
             (fun s => lines_of (length (split nl content))
                         (ComprehensiveFix.lines s))); [|exact H0].
    intros s line _. apply comprehensive_step_lines.
  - unfold FinalFix.fix_content, FinalFix.loop. simpl.
    apply (lines_of_join _ _ Hn).
    apply (while_line_inv _ _
             (fun s => lines_of (length (split nl content))
                         (FinalFix.lines s))); [|exact H0].
    intros s line _. apply final_step_lines.
Qed.

Lemma space_not_word (c : ascii) : is_space c = true -> is_word c = false.
Proof.
  destruct c as [[] [] [] [] [] [] [] []]; intros H;
    first [reflexivity | discriminate H].
Qed.

Lemma last_spaces_not_word (x ws : str) :
  ws <> [] -> spaces ws -> word_opt (last (x ++ ws)) = false.
Proof.
  intros Hne Hws. destruct (last ws) as [c|] eqn:E.
  - rewrite last_app, E. simpl. apply space_not_word.
    apply last_Some in E as [ws' ->].
    apply Forall_app in Hws as [_ Hc]. by inversion Hc.
  - apply last_None in E. done.
Qed.

(** The attributes that [comprehensive_fix.py] puts in are found by its
    own patterns. *)
Lemma spliced_has_id_and_name (full_input id_val name_val : str) (m : mtch) :
  search re_input_ws full_input = Some m ->
  let fixed_input :=
    splice (m_end m)
      (attr "id" id_val ++ lit " " ++ attr "name" name_val ++ lit " ")
      full_input in
  found re_has_id fixed_input = true /\ found re_has_name fixed_input = true.
Proof.
  intros E. pose proof (search_input_ws full_input) as H. rewrite E in H.
  destruct H as (pre & ws & post & (-> & Hws & _) & Hne & He & _). cbv zeta.
  rewrite He, !app_assoc, SplicerFacts.splice_app.
  split.
  - apply (found_has_attr "id"); [reflexivity|].
    exists ((pre ++ marker) ++ ws), [],
      ([dq] ++ id_val ++ [dq] ++ lit " " ++ attr "name" name_val ++ lit " "
       ++ post).
    split; [|split; [constructor | by apply last_spaces_not_word]].
    unfold attr. by rewrite <- !app_assoc.
  - apply (found_has_attr "name"); [reflexivity|].
    exists (((pre ++ marker) ++ ws) ++ attr "id" id_val ++ lit " "), [],
      ([dq] ++ name_val ++ [dq] ++ lit " " ++ post).
    split; [|split; [constructor|]].
    + unfold attr. by rewrite <- !app_assoc.
    + by rewrite !last_app.
Qed.

(** One pass of the loop of [comprehensive_fix.py] at a line with the
    marker, by what becomes of the tag. *)
Lemma comprehensive_step_patch (file_path : str) (s : ComprehensiveFix.st)
    (line : str) :
  contains marker line = true ->
  let o :=
    reassemble_list (ComprehensiveFix.lines s) (ComprehensiveFix.idx s) line in
  ComprehensiveFix.step file_path s line
  = match
      comprehensive_patch (text o) file_path (ComprehensiveFix.idx s + 1)
    with
    | Some fixed_input =>
        ComprehensiveFix.St
          (overwrite (ComprehensiveFix.idx s) (split nl fixed_input)
             (ComprehensiveFix.lines s))
          (S (last_idx o)) (S (ComprehensiveFix.fixed_count s))
    | None =>
        ComprehensiveFix.St (ComprehensiveFix.lines s) (S (last_idx o))
          (ComprehensiveFix.fixed_count s)
    end.
Proof.
  intros Hm. cbv zeta. unfold ComprehensiveFix.step, comprehensive_patch.
  rewrite Hm.
  assert (Hn : start_line
                 (reassemble_list (ComprehensiveFix.lines s)
                    (ComprehensiveFix.idx s) line)
               = ComprehensiveFix.idx s + 1).
  { unfold reassemble_list. by destruct (grow _ _ _). }
  rewrite Hn.
  destruct (contains hidden _); [reflexivity|].
  destruct (negb _ && negb _); [|reflexivity].
  destruct (ComprehensiveFix.generate_smart_id _ _ _) as [id_val name_val].
  by destruct (search re_input_ws _).
Qed.

(** X3.  When a pass of the loop of [comprehensive_fix.py] patches a tag
    of ASCII text, it writes over the lines of the tag the lines of a text
    in which its own patterns find an [id] and a [name]: a pass that meets
    this text as a tag leaves the lines and the count as they are. *)
Theorem patched_tag_has_id_and_name (file_path : str)
    (s : ComprehensiveFix.st) (line : str) :
  let o :=
    reassemble_list (ComprehensiveFix.lines s) (ComprehensiveFix.idx s) line in
  ascii_text (text o) ->
  ascii_text file_path ->
  ComprehensiveFix.fixed_count (ComprehensiveFix.step file_path s line)
    <> ComprehensiveFix.fixed_count s ->
  exists fixed_input,
    comprehensive_patch (text o) file_path (ComprehensiveFix.idx s + 1)
      = Some fixed_input
    /\ ComprehensiveFix.step file_path s line
       = ComprehensiveFix.St
           (overwrite (ComprehensiveFix.idx s) (split nl fixed_input)
              (ComprehensiveFix.lines s))
           (S (last_idx o)) (S (ComprehensiveFix.fixed_count s))
    /\ found re_has_id fixed_input = true
    /\ found re_has_name fixed_input = true
    /\ forall file_path' s' line',
         text (reassemble_list (ComprehensiveFix.lines s')
                 (ComprehensiveFix.idx s') line') = fixed_input ->
         ComprehensiveFix.lines (ComprehensiveFix.step file_path' s' line')
           = ComprehensiveFix.lines s'
         /\ ComprehensiveFix.fixed_count
              (ComprehensiveFix.step file_path' s' line')
            = ComprehensiveFix.fixed_count s'.
Proof.
  cbv zeta. intros _ _ Hc.
  destruct (contains marker line) eqn:Hm.
  2:{ exfalso. apply Hc. unfold ComprehensiveFix.step. by rewrite Hm. }
  pose proof (comprehensive_step_patch file_path s line Hm) as Hs.
  cbv zeta in Hs. rewrite Hs in Hc |- *.
  destruct (comprehensive_patch _ _ _) as [fixed_input|] eqn:Ep;
    [|by exfalso; apply Hc].
  exists fixed_input. split; [reflexivity|]. split; [reflexivity|].
  assert (Hf : found re_has_id fixed_input = true
               /\ found re_has_name fixed_input = true).
  { unfold comprehensive_patch in Ep.
    destruct (contains hidden _); [discriminate Ep|].
    destruct (negb _ && negb _); [|discriminate Ep].
    destruct (ComprehensiveFix.generate_smart_id _ _ _) as [id_val name_val].
    destruct (search re_input_ws _) as [m|] eqn:E; [|discriminate Ep].
    injection Ep as <-. by apply spliced_has_id_and_name. }
  destruct Hf as [Hi Hn]. split; [exact Hi|]. split; [exact Hn|].
  intros file_path' s' line' Ht. unfold ComprehensiveFix.step.
  destruct (contains marker line'); [|done]. rewrite Ht.
  destruct (contains hidden fixed_input); [done|]. by rewrite Hi, Hn.
Qed.

(** A tag on a line of its own, in the page of a route. *)
Lemma patched_tag_has_id_and_name_witness :
  let s := ComprehensiveFix.St [lit "<input type='text'>"] 0 0 in
  exists fixed_input,
    ComprehensiveFix.step (lit "src/routes/+page.svelte") s
      (lit "<input type='text'>")
    = ComprehensiveFix.St [fixed_input] 1 1
    /\ found re_has_id fixed_input = true
    /\ found re_has_name fixed_input = true.
Proof.
  cbv zeta.
  destruct (patched_tag_has_id_and_name (lit "src/routes/+page.svelte")
              (ComprehensiveFix.St [lit "<input type='text'>"] 0 0)
              (lit "<input type='text'>"))
    as (fixed_input & Hp & Hs & Hi & Hn & _);
    [reflexivity | reflexivity | vm_compute; discriminate |].
  exists fixed_input. rewrite Hs. injection Hp as <-.
  split; [reflexivity|]. split; [exact Hi | exact Hn].
Defined.

(** X4.  A tag with [hidden] anywhere in its text is left as it is by
    [comprehensive_fix.py] and [final_comprehensive_fix.py]. *)
Theorem hidden_tags_skipped (file_path : str) :
  (forall tag, contains hidden tag = true -> FinalFix.fix_input_tag tag = tag)
  /\ (forall s line,
        contains hidden
          (text (reassemble_list (ComprehensiveFix.lines s)
                   (ComprehensiveFix.idx s) line)) = true ->
        ComprehensiveFix.lines (ComprehensiveFix.step file_path s line)
          = ComprehensiveFix.lines s
        /\ ComprehensiveFix.fixed_count (ComprehensiveFix.step file_path s line)
           = ComprehensiveFix.fixed_count s)
  /\ (forall s line,
        contains hidden
          (text (reassemble_list (FinalFix.lines s) (FinalFix.idx s) line))
          = true ->
        FinalFix.lines (FinalFix.step s line) = FinalFix.lines s
        /\ FinalFix.fixed_count (FinalFix.step s line)
           = FinalFix.fixed_count s).
Proof.
  split; [|split].
  - intros tag H. unfold FinalFix.fix_input_tag. by rewrite H.
  - intros s line H. unfold ComprehensiveFix.step.
    destruct (contains marker line); [|done]. by rewrite H.
  - intros s line H. unfold FinalFix.step, FinalFix.fix_input_tag.
    destruct (contains marker line); [|done]. rewrite H.
    unfold eqb_str. rewrite bool_decide_eq_true_2 by reflexivity. done.
Qed.

End FrameFacts.

(** ** The reassembler in general *)

Module ReassemblerSpecFacts.
Import Py Re Common Cases PyFacts LinesFacts ReassemblerFacts.

Lemma gt_concat_join (acc : list str) :
  contains gt (concat acc) = contains gt (join [nl] acc).
Proof.
  induction acc as [|l acc IH]; [reflexivity|].
  destruct acc as [|l' acc]; [simpl; by rewrite app_nil_r|].
  rewrite join_cons.
  change (concat (l :: l' :: acc)) with (l ++ concat (l' :: acc)).
  rewrite !gt_in_app, IH, gt_not_nl. reflexivity.
Qed.

Lemma join_snoc (sep : str) (acc : list str) (l : str) :
  acc <> [] -> join sep (acc ++ [l]) = join sep acc ++ sep ++ l.
Proof.
  induction acc as [|a acc IH]; intros Hne; [done|].
  destruct acc as [|a' acc]; [reflexivity|].
  change ((a :: a' :: acc) ++ [l]) with (a :: (a' :: acc) ++ [l]).
  change ((a' :: acc) ++ [l]) with (a' :: acc ++ [l]) at 1.
  rewrite join_cons. change (a' :: acc ++ [l]) with ((a' :: acc) ++ [l]).
  rewrite IH by done. rewrite join_cons. by rewrite <- !app_assoc.
Qed.

(** The two forms of the inner loop collect the same lines. *)
Lemma grow_grow_tag (rest acc : list str) (i : nat) :
  acc <> [] ->
  grow_tag [nl] (join [nl] acc) i rest
  = (join [nl] (fst (grow acc i rest)), snd (grow acc i rest)).
Proof.
  revert acc i. induction rest as [|l rest IH]; intros acc i Hne; simpl.
  - rewrite gt_concat_join. by destruct (contains gt (join [nl] acc)).
  - rewrite gt_concat_join. destruct (contains gt (join [nl] acc)); [done|].
    rewrite <- IH by (by destruct acc). by rewrite join_snoc.
Qed.

(** What the inner loop returns: the lines taken on, up to the first that
    brings a [>] or to the end of the file. *)
Lemma grow_tag_spec (sep : str) (rest acc : list str) (i : nat) :
  acc <> [] ->
  exists n,
    n <= length rest
    /\ grow_tag sep (join sep acc) i rest
       = (join sep (acc ++ take n rest), i + n)
    /\ (contains gt (join sep (acc ++ take n rest)) = true \/ n = length rest)
    /\ forall m, m < n -> contains gt (join sep (acc ++ take m rest)) = false.
Proof.
  revert acc i. induction rest as [|l rest IH]; intros acc i Hne.
  - exists 0. simpl. rewrite app_nil_r, Nat.add_0_r.
    split; [lia|]. split; [by destruct (contains gt _)|].
    split; [by right | intros m Hm; lia].
  - cbn [grow_tag]. destruct (contains gt (join sep acc)) eqn:E.
    + exists 0. rewrite take_0, app_nil_r, Nat.add_0_r.
      split; [simpl; lia|]. split; [done|]. split; [by left | intros m Hm; lia].
    + rewrite <- join_snoc by done.
      destruct (IH (acc ++ [l]) (S i)) as (n & Hn & Hg & Hstop & Hmin);
        [by destruct acc|].
      exists (S n). rewrite Hg. cbn [take]. rewrite <- !app_assoc. simpl.
      split; [lia|]. split; [f_equal; lia|]. split.
      * destruct Hstop as [H|H]; [left | right; lia].
        by rewrite <- app_assoc in H.
      * intros [|m] Hm; [by rewrite take_0, app_nil_r|].
        specialize (Hmin m ltac:(lia)). by rewrite <- app_assoc in Hmin.
Qed.

(** X6.  The reassembler at a line [i] of the file gives the lines from
    [i] to some [j] joined by the separator, under the number [i + 1]:
    [j] is the first line from [i] on up to which the joined text has a
    [>], or the last line of the file when there is none.  The loop that
    keeps the lines in a list and the loop that keeps them as one string
    give the same. *)
Theorem reassembler_spec (sep : str) (lines : list str) (i : nat) (line : str) :
  lines !! i = Some line ->
  let o := reassemble sep lines i line in
  let j := last_idx o in
  start_line o = i + 1
  /\ i <= j < length lines
  /\ text o = join sep (take (S j - i) (drop i lines))
  /\ (contains gt (text o) = true \/ S j = length lines)
  /\ (forall k, i <= k < j ->
        contains gt (join sep (take (S k - i) (drop i lines))) = false)
  /\ reassemble_list lines i line = reassemble [nl] lines i line.
Proof.
  intros Hl. cbv zeta.
  assert (Hd : drop i lines = line :: drop (S i) lines) by (by apply drop_S).
  assert (Hlen : S i + length (drop (S i) lines) = length lines).
  { rewrite length_drop. apply lookup_lt_Some in Hl. lia. }
  assert (Hagree : reassemble_list lines i line = reassemble [nl] lines i line).
  { unfold reassemble_list, reassemble.
    pose proof (grow_grow_tag (drop (S i) lines) [line] i ltac:(done)) as H.
    simpl join in H at 1. rewrite H.
    by destruct (grow [line] i (drop (S i) lines)). }
  unfold reassemble.
  destruct (grow_tag_spec sep (drop (S i) lines) [line] i ltac:(done))
    as (n & Hn & Hg & Hstop & Hmin).
  simpl join in Hg at 1. rewrite Hg. cbn [start_line text last_idx].
  replace (S (i + n) - i) with (S n) by lia. rewrite Hd. cbn [take].
  split; [done|]. split; [lia|]. split; [done|]. split.
  - destruct Hstop as [H|H]; [by left | right; lia].
  - split; [|exact Hagree]. intros k Hk.
    replace (S k - i) with (S (k - i)) by lia. cbn [take].
    apply (Hmin (k - i)). lia.
Qed.

Lemma reassembler_spec_witness :
  let o := reassemble [nl] tag_on_three_lines 1 (lit "<input") in
  last_idx o = 3
  /\ text o
     = lit "<input" ++ [nl] ++ lit "  type='text'" ++ [nl] ++ lit "  class='a'>"
  /\ reassemble_list tag_on_three_lines 1 (lit "<input") = o.
Proof.
  destruct (reassembler_spec [nl] tag_on_three_lines 1 (lit "<input")
              eq_refl) as (_ & _ & _ & _ & _ & H).
  cbv zeta. rewrite H. repeat split.
Defined.

End ReassemblerSpecFacts.

(** ** What is left as it is *)

Module UntouchedFacts.
Import Py Re Common Cases PyFacts LinesFacts LoopFacts FrameFacts.

(** As long as nothing was counted, the lines are those of the file. *)
Lemma comprehensive_step_count (file_path : str) (s : ComprehensiveFix.st)
    line :
  ComprehensiveFix.fixed_count (ComprehensiveFix.step file_path s line) = 0 ->
  ComprehensiveFix.fixed_count s = 0
  /\ ComprehensiveFix.lines (ComprehensiveFix.step file_path s line)
     = ComprehensiveFix.lines s.
Proof.
  unfold ComprehensiveFix.step.
  destruct (contains marker line); [|done].
  destruct (contains hidden _); [done|].
  destruct (negb _ && negb _); [|done].
  destruct (ComprehensiveFix.generate_smart_id _ _ _) as [id_val name_val].
  destruct (search re_input_ws _); [|done]. simpl. discriminate.
Qed.

Lemma final_step_count (s : FinalFix.st) line :
  FinalFix.fixed_count (FinalFix.step s line) = 0 ->
  FinalFix.fixed_count s = 0
  /\ FinalFix.lines (FinalFix.step s line) = FinalFix.lines s.
Proof.
  unfold FinalFix.step.
  destruct (contains marker line); [|done].
  destruct (negb _); [|done]. simpl. discriminate.
Qed.

(** X7.  When [comprehensive_fix.py] or [final_comprehensive_fix.py] counts
    no patched tag in a file, the text it would write is the text it
    read. *)
Theorem unpatched_text_unchanged (content file_path : str) :
  (fst (ComprehensiveFix.fix_input_in_content content file_path) = content
   \/ 0 < snd (ComprehensiveFix.fix_input_in_content content file_path))
  /\ (fst (FinalFix.fix_content content) = content
      \/ 0 < snd (FinalFix.fix_content content)).
Proof.
  split.
  - unfold ComprehensiveFix.fix_input_in_content, ComprehensiveFix.loop.
    cbn [fst snd].
    pose proof (while_line_inv
      (fun s => ComprehensiveFix.lines s !! ComprehensiveFix.idx s)
      (ComprehensiveFix.step file_path)
      (fun s => ComprehensiveFix.fixed_count s = 0 ->
                ComprehensiveFix.lines s = split nl content)) as H.
    specialize (H (fun s0 line _ IH Hc =>
      let '(conj H0 Hl) := comprehensive_step_count file_path s0 line Hc in
      eq_trans Hl (IH H0))
      (length (split nl content))
      (ComprehensiveFix.St (split nl content) 0 0) (fun _ => eq_refl)).
    destruct (ComprehensiveFix.fixed_count _) eqn:E.
    + left. rewrite (H E). apply join_split.
    + right. lia.
  - unfold FinalFix.fix_content, FinalFix.loop. cbn [fst snd].
    pose proof (while_line_inv
      (fun s => FinalFix.lines s !! FinalFix.idx s) FinalFix.step
      (fun s => FinalFix.fixed_count s = 0 ->
                FinalFix.lines s = split nl content)) as H.
    specialize (H (fun s0 line _ IH Hc =>
      let '(conj H0 Hl) := final_step_count s0 line Hc in
      eq_trans Hl (IH H0))
      (length (split nl content))
      (FinalFix.St (split nl content) 0 0) (fun _ => eq_refl)).
    destruct (FinalFix.fixed_count _) eqn:E.
    + left. rewrite (H E). apply join_split.
    + right. lia.
Qed.


(** A text that is in no part of a file is in none of its lines. *)
Lemma absent_in_lines (p content : str) :
  contains p content = false ->
  Forall (fun l => contains p l = false) (split nl content).
Proof.
  intros H. apply Forall_forall. intros l Hl%list_elem_of_In.
  destruct (contains p l) eqn:E; [|reflexivity].
  rewrite <- (join_split nl content) in H.
  by rewrite (contains_join_elem p [nl] l _ Hl E) in H.
Qed.

Lemma concat_readlines (s : str) : concat (readlines s) = s.
Proof.
  induction s as [|a s IH]; [reflexivity|]. simpl.
  destruct (chr_eqb a nl); [simpl; by rewrite IH|].
  destruct (readlines s) as [|l ls]; simpl in *; by rewrite <- IH.
Qed.

Lemma absent_in_readlines (p content : str) :
  contains p content = false ->
  Forall (fun l => contains p l = false) (readlines content).
Proof.
  rewrite <- (concat_readlines content) at 1.
  induction (readlines content) as [|l ls IH]; intros H; [constructor|].
  simpl in H. constructor.
  - destruct (contains p l) eqn:E; [|reflexivity].
    by rewrite (contains_app_l p l (concat ls) E) in H.
  - apply IH. destruct (contains p (concat ls)) eqn:E; [|reflexivity].
    by rewrite (contains_app_r p l (concat ls) E) in H.
Qed.

(** Lines without the marker are passed over one by one; the loop of
    [batch_fix_inputs.py] copies them. *)
Lemma comprehensive_skips (file_path : str) (lines : list str) (n i c : nat) :
  (forall j l, i <= j < i + n -> lines !! j = Some l ->
     contains marker l = false) ->
  i + n <= length lines ->
  ComprehensiveFix.loop n file_path (ComprehensiveFix.St lines i c)
  = ComprehensiveFix.St lines (i + n) c.
Proof.
  unfold ComprehensiveFix.loop. revert i.
  induction n as [|n IH]; intros i Hfree Hlen; simpl.
  - by rewrite Nat.add_0_r.
  - destruct (lookup_lt_is_Some_2 lines i) as [l Hl]; [lia|]. rewrite Hl.
    unfold ComprehensiveFix.step at 2. simpl.
    rewrite (Hfree i l) by (done || lia).
    replace (i + S n) with (S i + n) by lia. apply IH; [|lia].
    intros j l' Hj. apply Hfree. lia.
Qed.

Lemma final_skips (lines : list str) (n i c : nat) :
  (forall j l, i <= j < i + n -> lines !! j = Some l ->
     contains marker l = false) ->
  i + n <= length lines ->
  FinalFix.loop n (FinalFix.St lines i c) = FinalFix.St lines (i + n) c.
Proof.
  unfold FinalFix.loop. revert i.
  induction n as [|n IH]; intros i Hfree Hlen; simpl.
  - by rewrite Nat.add_0_r.
  - destruct (lookup_lt_is_Some_2 lines i) as [l Hl]; [lia|]. rewrite Hl.
    unfold FinalFix.step at 2. simpl.
    rewrite (Hfree i l) by (done || lia).
    replace (i + S n) with (S i + n) by lia. apply IH; [|lia].
    intros j l' Hj. apply Hfree. lia.
Qed.

Lemma batch_skips (lines : list str) (content : str) (n i c : nat) new :
  (forall j l, i <= j < i + n -> lines !! j = Some l ->
     contains marker l = false) ->
  i + n <= length lines ->
  BatchFix.loop n lines content (BatchFix.St i new c)
  = BatchFix.St (i + n) (new ++ take n (drop i lines)) c.
Proof.
  unfold BatchFix.loop. revert i new.
  induction n as [|n IH]; intros i new Hfree Hlen; simpl.
  - by rewrite Nat.add_0_r, take_0, app_nil_r.
  - destruct (lookup_lt_is_Some_2 lines i) as [l Hl]; [lia|]. rewrite Hl.
    unfold BatchFix.step at 2. simpl.
    rewrite (Hfree i l) by (done || lia). simpl.
    rewrite IH; [|intros j l' Hj; apply Hfree; lia | lia].
    rewrite (drop_S _ _ _ Hl). simpl. rewrite <- app_assoc.
    f_equal. lia.
Qed.

(** X8.  A file without the text [<input] goes through the three patchers
    unchanged and uncounted, and the two scanners report nothing in it. *)
Theorem file_without_marker (content file_path : str) :
  contains marker content = false ->
  ComprehensiveFix.fix_input_in_content content file_path = (content, 0)
  /\ FinalFix.fix_content content = (content, 0)
  /\ BatchFix.fix_content content = (content, 0)
  /\ EnhancedScan.check_input_violations content = []
  /\ FixFormFields.find_inputs_without_id_name content = [].
Proof.
  intros H.
  assert (Hs : forall j l, 0 <= j < 0 + length (split nl content) ->
            split nl content !! j = Some l -> contains marker l = false).
  { intros j l _ Hl. pose proof (absent_in_lines _ _ H) as Hf.
    rewrite Forall_forall in Hf. apply Hf.
    by apply list_elem_of_lookup_2 in Hl. }
  assert (Hr : forall j l, 0 <= j < 0 + length (readlines content) ->
            readlines content !! j = Some l -> contains marker l = false).
  { intros j l _ Hl. pose proof (absent_in_readlines _ _ H) as Hf.
    rewrite Forall_forall in Hf. apply Hf.
    by apply list_elem_of_lookup_2 in Hl. }
  repeat split.
  - unfold ComprehensiveFix.fix_input_in_content.
    rewrite comprehensive_skips by (exact Hs || lia). simpl.
    by rewrite join_split.
  - unfold FinalFix.fix_content.
    rewrite final_skips by (exact Hs || lia). simpl. by rewrite join_split.
  - unfold BatchFix.fix_content.
    rewrite batch_skips by (exact Hs || lia). simpl.
    by rewrite drop_0, firstn_all, join_split.
  - unfold EnhancedScan.check_input_violations.
    by rewrite ReassemblerFacts.enhanced_scan_skips by (exact Hs || lia).
  - unfold FixFormFields.find_inputs_without_id_name.
    by rewrite ReassemblerFacts.form_fields_scan_skips by (exact Hr || lia).
Qed.

Lemma file_without_marker_witness :
  BatchFix.fix_content plain_form = (plain_form, 0).
Proof.
  apply (file_without_marker plain_form []).
  reflexivity.
Defined.

End UntouchedFacts.

(** ** What the scanners report *)

Module ScanFacts.
Import Py Re Common Cases PyFacts LinesFacts LoopFacts FrameFacts IdFacts.

Lemma marker_lines_mono (lines : list str) (i j : nat) :
  i <= j -> marker_lines (take i lines) <= marker_lines (take j lines).
Proof.
  intros Hij. unfold marker_lines.
  replace j with (i + (j - i)) by lia. rewrite <- take_take_drop.
  rewrite filter_app, length_app. lia.
Qed.

Lemma marker_lines_next (lines : list str) (i j : nat) (l : str) :
  lines !! i = Some l -> contains marker l = true -> i < j ->
  S (marker_lines (take i lines)) <= marker_lines (take j lines).
Proof.
  intros Hl Hm Hij.
  etransitivity; [|apply (marker_lines_mono lines (S i) j); lia].
  unfold marker_lines. rewrite (take_S_r _ _ _ Hl), filter_app, length_app.
  rewrite filter_cons. destruct (decide _) as [_|Hn]; [simpl; lia | done].
Qed.

Lemma start_line_reassemble (sep : str) (lines : list str) (i : nat) line :
  start_line (reassemble sep lines i line) = i + 1.
Proof.
  unfold reassemble. by destruct (grow_tag sep line i (drop (S i) lines)).
Qed.

Lemma sorted_snoc (ns : list nat) (i n : nat) :
  StronglySorted lt ns -> Forall (fun m => m <= i) ns -> i < n ->
  StronglySorted lt (ns ++ [n]).
Proof.
  intros Hs Hb Hn.
  apply StronglySorted_app_2; [|exact Hs | repeat constructor].
  intros x y Hx Hy. apply list_elem_of_singleton in Hy as ->.
  rewrite Forall_forall in Hb. specialize (Hb x Hx). lia.
Qed.

Lemma scanned_on (lines : list str) (i j : nat) (ns : list nat) :
  i <= j -> scanned lines i ns -> scanned lines j ns.
Proof.
  intros Hij (Hf & Hs & Hn). split; [|split; [exact Hs|]].
  - eapply Forall_impl; [exact Hf|]. intros n [H1 H2]. split; [lia | exact H2].
  - pose proof (marker_lines_mono lines i j Hij). lia.
Qed.

Lemma scanned_report (lines : list str) (i j : nat) (l : str) (ns : list nat) :
  lines !! i = Some l -> contains marker l = true -> i < j ->
  scanned lines i ns -> scanned lines j (ns ++ [i + 1]).
Proof.
  intros Hl Hm Hij (Hf & Hs & Hn). split; [|split].
  - apply Forall_app. split.
    + eapply Forall_impl; [exact Hf|]. intros n [H1 H2].
      split; [lia | exact H2].
    + constructor; [|constructor]. split; [lia|]. split; [lia|].
      exists l. replace (i + 1 - 1) with i by lia. done.
  - apply (sorted_snoc ns i); [exact Hs | | lia].
    eapply Forall_impl; [exact Hf|]. by intros n [H1 _].
  - rewrite length_app. simpl.
    pose proof (marker_lines_next lines i j l Hl Hm Hij). lia.
Qed.

Lemma enhanced_step_scanned (lines : list str) (s : EnhancedScan.st) line :
  lines !! EnhancedScan.idx s = Some line ->
  scanned lines (EnhancedScan.idx s)
    (map EnhancedScan.v_line (EnhancedScan.violations s)) ->
  scanned lines (EnhancedScan.idx (EnhancedScan.step lines s line))
    (map EnhancedScan.v_line
       (EnhancedScan.violations (EnhancedScan.step lines s line))).
Proof.
  intros Hl Hs. unfold EnhancedScan.step.
  pose proof (reassemble_idx [nl] lines (EnhancedScan.idx s) line) as Hi.
  destruct (contains marker line) eqn:Hm;
    [|simpl; eapply scanned_on; [|exact Hs]; lia].
  destruct (contains hidden _);
    [simpl; eapply scanned_on; [|exact Hs]; lia|].
  cbn [EnhancedScan.v_issues].
  destruct (EnhancedScan.issues_of _);
    [simpl; eapply scanned_on; [|exact Hs]; lia|].
  cbn [EnhancedScan.idx EnhancedScan.violations].
  rewrite map_app. cbn [map EnhancedScan.v_line].
  rewrite start_line_reassemble.
  apply (scanned_report lines _ _ line); [exact Hl | exact Hm | lia | exact Hs].
Qed.

Lemma form_fields_step_scanned (lines : list str) (s : FixFormFields.st) line :
  lines !! FixFormFields.idx s = Some line ->
  scanned lines (FixFormFields.idx s) (map fst (FixFormFields.violations s)) ->
  scanned lines (FixFormFields.idx (FixFormFields.step lines s line))
    (map fst (FixFormFields.violations (FixFormFields.step lines s line))).
Proof.
  intros Hl Hs. unfold FixFormFields.step.
  pose proof (reassemble_idx [] lines (FixFormFields.idx s) line) as Hi.
  destruct (contains marker line) eqn:Hm;
    [|simpl; eapply scanned_on; [|exact Hs]; lia].
  destruct (_ && _);
    [|simpl; eapply scanned_on; [|exact Hs]; lia].
  cbn [FixFormFields.idx FixFormFields.violations].
  rewrite map_app. cbn [map fst].
  rewrite start_line_reassemble.
  apply (scanned_report lines _ _ line); [exact Hl | exact Hm | lia | exact Hs].
Qed.

Lemma scanned_start (lines : list str) : scanned lines 0 [].
Proof.
  split; [constructor|]. split; [constructor|]. simpl. lia.
Qed.

Lemma scanned_end (lines : list str) (i : nat) (ns : list nat) :
  scanned lines i ns ->
  StronglySorted lt ns
  /\ Forall (marker_line_number lines) ns
  /\ length ns <= marker_lines lines.
Proof.
  intros (Hf & Hs & Hn). split; [exact Hs|]. split.
  - eapply Forall_impl; [exact Hf|]. by intros n [_ H].
  - etransitivity; [exact Hn|]. unfold marker_lines.
    rewrite <- (take_drop i lines) at 2. rewrite filter_app, length_app. lia.
Qed.

(** X9.  The two scanners report line numbers in increasing order; each is
    the number of a line of the file that has the marker, and there are at
    most as many reports as lines with the marker. *)
Theorem scanners_report_marker_lines (content : str) :
  (let ns := map EnhancedScan.v_line
               (EnhancedScan.check_input_violations content) in
   StronglySorted lt ns
   /\ Forall (marker_line_number (split nl content)) ns
   /\ length ns <= marker_lines (split nl content))
  /\ (let ns := map fst (FixFormFields.find_inputs_without_id_name content) in
      StronglySorted lt ns
      /\ Forall (marker_line_number (readlines content)) ns
      /\ length ns <= marker_lines (readlines content)).
Proof.
  split; cbv zeta.
  - unfold EnhancedScan.check_input_violations, EnhancedScan.loop.
    eapply scanned_end.
    apply (while_line_inv
             (fun s => split nl content !! EnhancedScan.idx s)
             (EnhancedScan.step (split nl content))
             (fun s => scanned (split nl content) (EnhancedScan.idx s)
                         (map EnhancedScan.v_line
                            (EnhancedScan.violations s)))).
    + intros s line. apply enhanced_step_scanned.
    + apply scanned_start.
  - unfold FixFormFields.find_inputs_without_id_name, FixFormFields.loop.
    eapply scanned_end.
    apply (while_line_inv
             (fun s => readlines content !! FixFormFields.idx s)
             (FixFormFields.step (readlines content))
             (fun s => scanned (readlines content) (FixFormFields.idx s)
                         (map fst (FixFormFields.violations s)))).
    + intros s line. apply form_fields_step_scanned.
    + apply scanned_start.
Qed.

End ScanFacts.

(** ** The console-call rewriter, run twice *)

Module ConsoleRunFacts.
Import Py Re Common IO Cases PyFacts ReFacts PatternFacts ReplaceFacts.
Import LinesFacts ConsoleFacts FixConsole.

Lemma contains_count (p s : str) :
  p <> [] -> contains p s = true -> 0 < count p s.
Proof.
  intros Hp. induction s as [|c s IH]; cbn [count contains].
  - rewrite orb_false_r. by destruct p.
  - destruct (startswith p (c :: s)); [lia|]. simpl. intros H.
    apply IH in H. lia.
Qed.

(** What the pattern of [fix_file] reads. *)
Lemma matches_console prev w rest :
  matches re_console prev w rest ->
  exists x, In x ["debug"; "error"; "warn"; "info"; "log"]%string
            /\ w = lit "console." ++ lit x ++ [lp].
Proof.
  unfold re_console. intros H. inv_matches.
  repeat match goal with
  | H : matches (Alt _ _) _ _ _ |- _ => inversion H; subst; clear H
  end; inv_matches.
  - exists "debug"%string. split; [simpl; tauto | reflexivity].
  - exists "error"%string. split; [simpl; tauto | reflexivity].
  - exists "warn"%string. split; [simpl; tauto | reflexivity].
  - exists "info"%string. split; [simpl; tauto | reflexivity].
  - exists "log"%string. split; [simpl; tauto | reflexivity].
Qed.

(** None of the five calls is left after the five replacements. *)
Lemma rcs_counts (s : str) (x : string) :
  In x ["debug"; "error"; "warn"; "info"; "log"]%string ->
  count (lit "console." ++ lit x ++ [lp]) (replace_console_statements s) = 0.
Proof.
  intros Hx. unfold replace_console_statements.
  change (lit "console.debug(") with (lit "console.debug" ++ [lp]).
  change (lit "console.error(") with (lit "console.error" ++ [lp]).
  change (lit "console.warn(") with (lit "console.warn" ++ [lp]).
  change (lit "console.info(") with (lit "console.info" ++ [lp]).
  change (lit "console.log(") with (lit "console.log" ++ [lp]).
  change (lit "logger.debug(") with (lit "logger.debug" ++ [lp]).
  change (lit "logger.error(") with (lit "logger.error" ++ [lp]).
  change (lit "logger.warn(") with (lit "logger.warn" ++ [lp]).
  change (lit "logger.info(") with (lit "logger.info" ++ [lp]).
  simpl in Hx. destruct Hx as [<-|[<-|[<-|[<-|[<-|[]]]]]].
  - change (lit "console." ++ lit "debug" ++ [lp])
      with (lit "console.debug" ++ [lp]).
    rewrite !count_replace_other by decided.
    apply count_replace_gone; decided.
  - change (lit "console." ++ lit "error" ++ [lp])
      with (lit "console.error" ++ [lp]).
    rewrite !count_replace_other by decided.
    apply count_replace_gone; decided.
  - change (lit "console." ++ lit "warn" ++ [lp])
      with (lit "console.warn" ++ [lp]).
    rewrite !count_replace_other by decided.
    apply count_replace_gone; decided.
  - change (lit "console." ++ lit "info" ++ [lp])
      with (lit "console.info" ++ [lp]).
    rewrite !count_replace_other by decided.
    apply count_replace_gone; decided.
  - change (lit "console." ++ lit "log" ++ [lp])
      with (lit "console.log" ++ [lp]).
    apply count_replace_gone; decided.
Qed.

Lemma rcs_no_console (s : str) :
  found re_console (replace_console_statements s) = false.
Proof.
  unfold found. destruct (search re_console _) as [m|] eqn:E; [|reflexivity].
  exfalso. apply search_sound in E as (a & w & rest & Hs & Hm & _).
  apply matches_console in Hm as (x & Hx & ->).
  pose proof (rcs_counts s x Hx) as H0.
  assert (H1 : 0 < count (lit "console." ++ lit x ++ [lp])
                  (replace_console_statements s)).
  { apply contains_count; [done|]. apply contains_spec. by exists a, rest. }
  lia.
Qed.

(** A replacement does not reach into a text without parentheses that ends
    the file, nor over a character that is not in the word replaced. *)
Lemma suffix_past_paren (m u t : str) :
  lp ∉ m -> m `suffix_of` u ++ lp :: t -> m `suffix_of` t.
Proof.
  intros Hm [k Hk]. revert k Hk. induction u as [|c u IH]; intros k Hk.
  - destruct k as [|c' k]; simpl in Hk.
    + exfalso. apply Hm. rewrite <- Hk. by left.
    + injection Hk as _ ->. by exists k.
  - destruct k as [|c' k]; simpl in Hk.
    + exfalso. apply Hm. rewrite <- Hk. right.
      apply elem_of_app. right. by left.
    + injection Hk as _ Hk. by apply (IH k).
Qed.

Lemma replace_keeps_tail (w v m s : str) :
  lp ∉ w -> w <> [] -> lp ∉ m -> m `suffix_of` s ->
  m `suffix_of` replace (w ++ [lp]) (v ++ [lp]) s.
Proof.
  intros Hw Hne Hm. induction s as [s Hs|u t Hu IH] using chunk_ind.
  - by rewrite replace_free.
  - intros H%suffix_past_paren; [|exact Hm].
    rewrite replace_chunk by done.
    apply suffix_app_r, suffix_cons_r. by apply IH.
Qed.

Lemma replace_keeps (w v m s : str) (c : ascii) :
  lp ∉ w -> w <> [] -> lp ∉ m -> c ∉ w ++ [lp] ->
  contains (m ++ [c]) s = true ->
  contains (m ++ [c]) (replace (w ++ [lp]) (v ++ [lp]) s) = true.
Proof.
  intros Hw Hne Hm Hc (a & b & ->)%contains_spec.
  rewrite <- !app_assoc. rewrite app_assoc. simpl.
  rewrite replace_app_sep by (done || by destruct w).
  destruct (replace_keeps_tail w v m (a ++ m) Hw Hne Hm) as [a' Ha'];
    [by apply suffix_app_r|].
  rewrite Ha'. apply contains_spec.
  exists a', (replace (w ++ [lp]) (v ++ [lp]) b). by rewrite <- !app_assoc.
Qed.

Lemma rcs_keeps (m s : str) (c : ascii) :
  lp ∉ m -> c ∉ lit "console.debugerrorwarninfolog(" ->
  contains (m ++ [c]) s = true ->
  contains (m ++ [c]) (replace_console_statements s) = true.
Proof.
  intros Hm Hc H. unfold replace_console_statements.
  change (lit "console.debug(") with (lit "console.debug" ++ [lp]).
  change (lit "console.error(") with (lit "console.error" ++ [lp]).
  change (lit "console.warn(") with (lit "console.warn" ++ [lp]).
  change (lit "console.info(") with (lit "console.info" ++ [lp]).
  change (lit "console.log(") with (lit "console.log" ++ [lp]).
  change (lit "logger.debug(") with (lit "logger.debug" ++ [lp]).
  change (lit "logger.error(") with (lit "logger.error" ++ [lp]).
  change (lit "logger.warn(") with (lit "logger.warn" ++ [lp]).
  change (lit "logger.info(") with (lit "logger.info" ++ [lp]).
  assert (Hin : forall w : str,
            Forall (fun a => a ∈ lit "console.debugerrorwarninfolog(") w ->
            c ∉ w).
  { intros w Hw Hcw. rewrite Forall_forall in Hw. by apply Hc, Hw. }
  repeat (apply replace_keeps;
          [decided | decided | exact Hm | apply Hin; decided |]).
  exact H.
Qed.

Lemma rcs_keeps_import (s : str) :
  has_logger_import s = true ->
  has_logger_import (replace_console_statements s) = true.
Proof.
  unfold has_logger_import. intros [H|H]%orb_true_iff; apply orb_true_iff.
  - left. apply (rcs_keeps (lit "from '$lib/utils/logger") s sq);
      [decided | decided | exact H].
  - right.
    apply (rcs_keeps (lit "from " ++ [dq] ++ lit "$lib/utils/logger") s dq);
      [decided | decided|].
    by rewrite <- !app_assoc.
Qed.

Lemma add_logger_import_has (s : str) :
  has_logger_import (add_logger_import s) = true.
Proof.
  destruct (add_logger_import_spec s) as (pre & post & _ & -> & _).
  unfold has_logger_import. apply orb_true_iff. left.
  apply (contains_join_elem _ _ import_line); [|reflexivity].
  apply in_or_app. right. by left.
Qed.

(** X10.  After [fix_console.py] has rewritten a file, none of the five
    console calls is left in it and the file imports the logger: a second
    run finds nothing to do. *)
Theorem console_rewrite_settles (content out : str) :
  rewrite content = Some out ->
  found re_console out = false
  /\ has_logger_import out = true
  /\ rewrite out = None.
Proof.
  unfold rewrite at 1. destruct (negb (found re_console content)); [done|].
  intros [= <-].
  assert (H : found re_console
                (replace_console_statements
                   (if negb (has_logger_import content)
                    then add_logger_import content else content)) = false)
    by apply rcs_no_console.
  split; [exact H|]. split.
  - apply rcs_keeps_import.
    destruct (has_logger_import content) eqn:E; [exact E|].
    apply add_logger_import_has.
  - unfold rewrite. by rewrite H.
Qed.

Lemma console_rewrite_settles_witness :
  exists out, rewrite three_logs = Some out /\ rewrite out = None.
Proof.
  eexists. split; [reflexivity|].
  apply (console_rewrite_settles three_logs); reflexivity.
Defined.

End ConsoleRunFacts.

(** ** What a run writes *)

Module RunFacts.
Import Py Re Common IO Cases PyFacts FileFacts.

Lemma written_app (t1 t2 : list effect) :
  written (t1 ++ t2) = written t1 ++ written t2.
Proof.
  induction t1 as [|[p d|m] t1 IH]; simpl; [done | by rewrite IH | exact IH].
Qed.

Lemma fixed_counts_app (t1 t2 : list effect) :
  fixed_counts (t1 ++ t2) = fixed_counts t1 ++ fixed_counts t2.
Proof.
  induction t1 as [|[p d|[]] t1 IH]; simpl; try done; by rewrite IH.
Qed.

Lemma console_fixed_app (t1 t2 : list effect) :
  console_fixed (t1 ++ t2) = console_fixed t1 ++ console_fixed t2.
Proof.
  induction t1 as [|[p d|[]] t1 IH]; simpl; try done; by rewrite IH.
Qed.

Lemma touches_only_refl (path : string) (w : world) : touches_only path w w.
Proof. by split. Qed.

Lemma touches_only_print (path : string) (w : world) (t : list effect) :
  touches_only path w (World (fs w) t).
Proof. by split. Qed.

(** Writing over a file that is there touches that file only. *)
Lemma touches_only_insert (path : string) (w : world) (f f' : file) t :
  fs w !! path = Some f ->
  touches_only path w (World (<[path := f']> (fs w)) t).
Proof.
  intros Hf. split; simpl.
  - apply dom_insert_lookup_L. by exists f.
  - intros p Hp. by apply lookup_insert_ne.
Qed.

(** What one call of [process_file] does. *)
Lemma comprehensive_process_file_spec (path : string) (w : world) :
  exists n t w',
    ComprehensiveFix.process_file path w = (inr n, w')
    /\ trace w' = trace w ++ t
    /\ touches_only path w w'
    /\ ((n = 0 /\ written t = [] /\ fixed_counts t = [])
        \/ (0 < n /\ written t = [path] /\ fixed_counts t = [n])).
Proof.
  unfold ComprehensiveFix.process_file, try_except, mbind, M_bind, mret, M_ret,
    read_file, write_file, print.
  destruct (fs w !! path) as [f|] eqn:Hf.
  2:{ eexists 0, [_], _. split; [reflexivity|]. simpl.
      split; [reflexivity|]. split; [apply touches_only_print | by left]. }
  destruct (f_read_err f).
  { eexists 0, [_], _. split; [reflexivity|]. simpl.
    split; [reflexivity|]. split; [apply touches_only_print | by left]. }
  destruct (ComprehensiveFix.fix_input_in_content _ _) as [c n].
  destruct (0 <? n) eqn:En.
  2:{ apply Nat.ltb_ge in En. exists n, [], w. rewrite app_nil_r.
      split; [reflexivity|]. split; [reflexivity|].
      split; [apply touches_only_refl | left; simpl; repeat split; lia]. }
  apply Nat.ltb_lt in En. simpl. rewrite Hf.
  destruct (f_write_err f).
  { eexists 0, [_], _. split; [reflexivity|]. simpl.
    split; [reflexivity|]. split; [apply touches_only_print | by left]. }
  simpl. eexists n, [_; _], _. split; [reflexivity|]. simpl.
  split; [by rewrite <- app_assoc|].
  split; [by apply (touches_only_insert path w f) | right; by repeat split].
Qed.

Lemma final_process_file_spec (path : string) (w : world) :
  exists n t w',
    FinalFix.process_file path w = (inr n, w')
    /\ trace w' = trace w ++ t
    /\ touches_only path w w'
    /\ ((n = 0 /\ written t = [] /\ fixed_counts t = [])
        \/ (0 < n /\ written t = [path] /\ fixed_counts t = [n])).
Proof.
  unfold FinalFix.process_file, try_except, mbind, M_bind, mret, M_ret,
    read_file, write_file, print.
  destruct (fs w !! path) as [f|] eqn:Hf.
  2:{ eexists 0, [_], _. split; [reflexivity|]. simpl.
      split; [reflexivity|]. split; [apply touches_only_print | by left]. }
  destruct (f_read_err f).
  { eexists 0, [_], _. split; [reflexivity|]. simpl.
    split; [reflexivity|]. split; [apply touches_only_print | by left]. }
  destruct (FinalFix.fix_content _) as [c n].
  destruct (0 <? n) eqn:En.
  2:{ apply Nat.ltb_ge in En. exists n, [], w. rewrite app_nil_r.
      split; [reflexivity|]. split; [reflexivity|].
      split; [apply touches_only_refl | left; simpl; repeat split; lia]. }
  apply Nat.ltb_lt in En. simpl. rewrite Hf.
  destruct (f_write_err f).
  { eexists 0, [_], _. split; [reflexivity|]. simpl.
    split; [reflexivity|]. split; [apply touches_only_print | by left]. }
  simpl. eexists n, [_; _], _. split; [reflexivity|]. simpl.
  split; [by rewrite <- app_assoc|].
  split; [by apply (touches_only_insert path w f) | right; by repeat split].
Qed.

Lemma console_fix_file_spec (path : string) (w : world) :
  exists b t w',
    FixConsole.fix_file path w = (inr b, w')
    /\ trace w' = trace w ++ t
    /\ touches_only path w w'
    /\ console_fixed t = []
    /\ written t = (if b : bool then [path] else []).
Proof.
  unfold FixConsole.fix_file, try_except, mbind, M_bind, mret, M_ret,
    read_file, write_file, print.
  destruct (fs w !! path) as [f|] eqn:Hf.
  2:{ eexists false, [_], _. split; [reflexivity|]. simpl.
      split; [reflexivity|]. split; [apply touches_only_print | done]. }
  destruct (f_read_err f).
  { eexists false, [_], _. split; [reflexivity|]. simpl.
    split; [reflexivity|]. split; [apply touches_only_print | done]. }
  destruct (FixConsole.rewrite _) as [c|].
  2:{ exists false, [], w. rewrite app_nil_r. split; [reflexivity|].
      split; [reflexivity|]. split; [apply touches_only_refl | done]. }
  simpl. rewrite Hf. destruct (f_write_err f).
  { eexists false, [_], _. split; [reflexivity|]. simpl.
    split; [reflexivity|]. split; [apply touches_only_print | done]. }
  simpl. eexists true, [_], _. split; [reflexivity|]. simpl.
  split; [reflexivity|].
  split; [by apply (touches_only_insert path w f) | done].
Qed.

Lemma batch_fix_file_spec (path : string) (dry_run : bool) (w : world) :
  exists r t w',
    BatchFix.fix_file path dry_run w = (r, w')
    /\ trace w' = trace w ++ t
    /\ touches_only path w w'
    /\ (written t = [] \/ (written t = [path] /\ dry_run = false))
    /\ (written t = [] -> fs w' = fs w).
Proof.
  unfold BatchFix.fix_file, mbind, M_bind, mret, M_ret, read_file, write_file.
  destruct (fs w !! path) as [f|] eqn:Hf.
  2:{ eexists _, [], w. rewrite app_nil_r. split; [reflexivity|].
      split; [reflexivity|]. split; [apply touches_only_refl | auto]. }
  destruct (f_read_err f).
  { eexists _, [], w. rewrite app_nil_r. split; [reflexivity|].
    split; [reflexivity|]. split; [apply touches_only_refl | auto]. }
  destruct (BatchFix.fix_content _) as [c n].
  destruct ((0 <? n) && negb dry_run) eqn:En.
  2:{ eexists _, [], w. rewrite app_nil_r. split; [reflexivity|].
      split; [reflexivity|]. split; [apply touches_only_refl | auto]. }
  apply andb_true_iff in En as [_ Hd]. apply negb_true_iff in Hd.
  simpl. rewrite Hf. destruct (f_write_err f).
  { eexists _, [], w. rewrite app_nil_r. split; [reflexivity|].
    split; [reflexivity|]. split; [apply touches_only_refl | auto]. }
  simpl. eexists _, [_], _. split; [reflexivity|]. simpl.
  split; [reflexivity|].
  split; [by apply (touches_only_insert path w f)|].
  split; [by right | done].
Qed.


(** The loop of [main] of [fix_console.py], from any count. *)
Lemma fix_all_spec (files : list string) : forall (n : nat) (w : world),
  exists n' t w',
    for_each files
      (fun fixed filepath =>
         ok ← FixConsole.fix_file filepath;
         if ok : bool
         then print (ConsoleFixed filepath);; mret (fixed + 1)
         else mret fixed) n w = (inr n', w')
    /\ trace w' = trace w ++ t
    /\ n' = n + length (written t)
    /\ console_fixed t = written t
    /\ sublist (written t) files
    /\ dom (fs w') = dom (fs w)
    /\ forall p, ~ In p files -> fs w' !! p = fs w !! p.
Proof.
  match goal with |- context [for_each _ ?b] => set (body := b) end.
  induction files as [|f files IH]; intros n w.
  - exists n, [], w. simpl. rewrite app_nil_r. unfold mret, M_ret.
    repeat split; [lia | constructor].
  - cbn [for_each]. unfold mbind, M_bind. unfold body at 1. cbv beta.
    unfold mbind, M_bind.
    destruct (console_fix_file_spec f w)
      as (b & t1 & w1 & -> & Ht1 & [Hd1 Ho1] & Hc1 & Hw1).
    destruct b.
    + unfold print, mret, M_ret. cbn [fs trace].
      destruct (IH (n + 1)
                  (World (fs w1) (trace w1 ++ [Printed (ConsoleFixed f)])))
        as (n' & t2 & w2 & -> & Ht2 & Hn & Hc2 & Hs2 & Hd2 & Ho2).
      cbn [fs trace] in *.
      exists n', (t1 ++ [Printed (ConsoleFixed f)] ++ t2), w2.
      split; [reflexivity|]. split; [by rewrite Ht2, Ht1, <- !app_assoc|].
      rewrite !written_app, !console_fixed_app, Hw1, Hc1, Hc2. simpl.
      split; [lia|]. split; [reflexivity|].
      split; [by apply sublist_skip|]. split; [by rewrite Hd2|].
      intros p Hp. rewrite Ho2 by tauto. apply Ho1. intros ->. tauto.
    + unfold mret, M_ret.
      destruct (IH n w1)
        as (n' & t2 & w2 & -> & Ht2 & Hn & Hc2 & Hs2 & Hd2 & Ho2).
      exists n', (t1 ++ t2), w2.
      split; [reflexivity|]. split; [by rewrite Ht2, Ht1, <- !app_assoc|].
      rewrite !written_app, !console_fixed_app, Hw1, Hc1, Hc2. simpl.
      split; [lia|]. split; [reflexivity|].
      split; [by apply sublist_cons|]. split; [by rewrite Hd2|].
      intros p Hp. rewrite Ho2 by tauto. apply Ho1. intros ->. tauto.
Qed.

(** X11.  The loop of [fix_console.py] over the files never raises.  The
    number it reports is the number of files it has written; these are
    files of the list, in the order of the list, each reported as fixed;
    no file is created and no file outside the list is changed. *)
Theorem console_run_counts (files : list string) (w : world) :
  exists n t w',
    FixConsole.fix_all files w = (inr n, w')
    /\ trace w' = trace w ++ t
    /\ n = length (written t)
    /\ console_fixed t = written t
    /\ sublist (written t) files
    /\ dom (fs w') = dom (fs w)
    /\ forall p, ~ In p files -> fs w' !! p = fs w !! p.
Proof.
  destruct (fix_all_spec files 0 w) as (n & t & w' & H & Ht & Hn & Hrest).
  exists n, t, w'. split; [exact H|]. split; [exact Ht|].
  split; [lia | exact Hrest].
Qed.

(** The loops of the two directory scans, from any totals. *)
Lemma comprehensive_scan_spec (files : list string) :
  forall (acc : list (string * nat) * nat * nat) (w : world),
  exists results total_files total_fixed t w',
    for_each files
      (fun '(results, total_files, total_fixed) file_path =>
         count ← ComprehensiveFix.process_file file_path;
         if 0 <? count
         then mret (results ++ [(file_path, count)],
                    total_files + 1, total_fixed + count)
         else mret (results, total_files, total_fixed)) acc w
    = (inr (results, total_files, total_fixed), w')
    /\ trace w' = trace w ++ t
    /\ total_files = snd (fst acc) + length (written t)
    /\ total_fixed = snd acc + list_sum (fixed_counts t)
    /\ sublist (written t) files
    /\ dom (fs w') = dom (fs w)
    /\ forall p, ~ In p files -> fs w' !! p = fs w !! p.
Proof.
  match goal with |- context [for_each _ ?b] => set (body := b) end.
  induction files as [|f files IH]; intros [[rs tf] tx] w.
  - exists rs, tf, tx, [], w. simpl. rewrite app_nil_r. unfold mret, M_ret.
    repeat split; [lia | lia | constructor].
  - cbn [for_each]. unfold mbind, M_bind. unfold body at 1. cbv beta iota.
    unfold mbind, M_bind.
    destruct (comprehensive_process_file_spec f w)
      as (n & t1 & w1 & -> & Ht1 & [Hd1 Ho1] & Hcases).
    destruct Hcases as [(-> & Hw1 & Hc1)|(Hn & Hw1 & Hc1)].
    + simpl. unfold mret, M_ret.
      destruct (IH (rs, tf, tx) w1)
        as (rs' & tf' & tx' & t2 & w2 & -> & Ht2 & Hf & Hx & Hs2 & Hd2 & Ho2).
      exists rs', tf', tx', (t1 ++ t2), w2.
      split; [reflexivity|]. split; [by rewrite Ht2, Ht1, <- !app_assoc|].
      rewrite !written_app, !fixed_counts_app, Hw1, Hc1. simpl in *.
      split; [lia|]. split; [lia|].
      split; [by apply sublist_cons|]. split; [by rewrite Hd2|].
      intros p Hp. rewrite Ho2 by tauto. apply Ho1. intros ->. tauto.
    + assert (En : (0 <? n) = true) by (by apply Nat.ltb_lt). rewrite En.
      unfold mret, M_ret.
      destruct (IH (rs ++ [(f, n)], tf + 1, tx + n) w1)
        as (rs' & tf' & tx' & t2 & w2 & -> & Ht2 & Hf & Hx & Hs2 & Hd2 & Ho2).
      exists rs', tf', tx', (t1 ++ t2), w2.
      split; [reflexivity|]. split; [by rewrite Ht2, Ht1, <- !app_assoc|].
      rewrite !written_app, !fixed_counts_app, Hw1, Hc1. simpl in *.
      split; [lia|]. split; [lia|].
      split; [by apply sublist_skip|]. split; [by rewrite Hd2|].
      intros p Hp. rewrite Ho2 by tauto. apply Ho1. intros ->. tauto.
Qed.

Lemma final_scan_spec (files : list string) :
  forall (acc : nat * nat) (w : world),
  exists total_files total_fixed t w',
    for_each files
      (fun '(total_files, total_fixed) file_path =>
         count ← FinalFix.process_file file_path;
         if 0 <? count
         then mret (total_files + 1, total_fixed + count)
         else mret (total_files, total_fixed)) acc w
    = (inr (total_files, total_fixed), w')
    /\ trace w' = trace w ++ t
    /\ total_files = fst acc + length (written t)
    /\ total_fixed = snd acc + list_sum (fixed_counts t)
    /\ sublist (written t) files
    /\ dom (fs w') = dom (fs w)
    /\ forall p, ~ In p files -> fs w' !! p = fs w !! p.
Proof.
  match goal with |- context [for_each _ ?b] => set (body := b) end.
  induction files as [|f files IH]; intros [tf tx] w.
  - exists tf, tx, [], w. simpl. rewrite app_nil_r. unfold mret, M_ret.
    repeat split; [lia | lia | constructor].
  - cbn [for_each]. unfold mbind, M_bind. unfold body at 1. cbv beta iota.
    unfold mbind, M_bind.
    destruct (final_process_file_spec f w)
      as (n & t1 & w1 & -> & Ht1 & [Hd1 Ho1] & Hcases).
    destruct Hcases as [(-> & Hw1 & Hc1)|(Hn & Hw1 & Hc1)].
    + simpl. unfold mret, M_ret.
      destruct (IH (tf, tx) w1)
        as (tf' & tx' & t2 & w2 & -> & Ht2 & Hf & Hx & Hs2 & Hd2 & Ho2).
      exists tf', tx', (t1 ++ t2), w2.
      split; [reflexivity|]. split; [by rewrite Ht2, Ht1, <- !app_assoc|].
      rewrite !written_app, !fixed_counts_app, Hw1, Hc1. simpl in *.
      split; [lia|]. split; [lia|].
      split; [by apply sublist_cons|]. split; [by rewrite Hd2|].
      intros p Hp. rewrite Ho2 by tauto. apply Ho1. intros ->. tauto.
    + assert (En : (0 <? n) = true) by (by apply Nat.ltb_lt). rewrite En.
      unfold mret, M_ret.
      destruct (IH (tf + 1, tx + n) w1)
        as (tf' & tx' & t2 & w2 & -> & Ht2 & Hf & Hx & Hs2 & Hd2 & Ho2).
      exists tf', tx', (t1 ++ t2), w2.
      split; [reflexivity|]. split; [by rewrite Ht2, Ht1, <- !app_assoc|].
      rewrite !written_app, !fixed_counts_app, Hw1, Hc1. simpl in *.
      split; [lia|]. split; [lia|].
      split; [by apply sublist_skip|]. split; [by rewrite Hd2|].
      intros p Hp. rewrite Ho2 by tauto. apply Ho1. intros ->. tauto.
Qed.

(** X12.  The totals of the two directory scans are what was done: the
    number of files modified is the number of files written, and the
    number of inputs fixed is the sum of the counts printed for them.  The
    files written are [.svelte] files of the tree, in the order of the
    walk; no file is created and no other file is changed. *)
Theorem scan_totals_are_writes (tree : list (string * list string))
    (w : world) :
  (exists results total_files total_fixed t w',
     ComprehensiveFix.scan_and_fix_directory tree w
     = (inr (results, total_files, total_fixed), w')
     /\ trace w' = trace w ++ t
     /\ total_files = length (written t)
     /\ total_fixed = list_sum (fixed_counts t)
     /\ sublist (written t) (walked tree)
     /\ dom (fs w') = dom (fs w)
     /\ forall p, ~ In p (walked tree) -> fs w' !! p = fs w !! p)
  /\ (exists total_files total_fixed t w',
        FinalFix.scan_and_fix_directory tree w
        = (inr (total_files, total_fixed), w')
        /\ trace w' = trace w ++ t
        /\ total_files = length (written t)
        /\ total_fixed = list_sum (fixed_counts t)
        /\ sublist (written t) (walked tree)
        /\ dom (fs w') = dom (fs w)
        /\ forall p, ~ In p (walked tree) -> fs w' !! p = fs w !! p).
Proof.
  split.
  - destruct (comprehensive_scan_spec (walked tree) ([], 0, 0) w)
      as (rs & tf & tx & t & w' & H & Ht & Hf & Hx & Hrest).
    exists rs, tf, tx, t, w'. split; [exact H|]. split; [exact Ht|].
    simpl in Hf, Hx. split; [lia|]. split; [lia | exact Hrest].
  - destruct (final_scan_spec (walked tree) (0, 0) w)
      as (tf & tx & t & w' & H & Ht & Hf & Hx & Hrest).
    exists tf, tx, t, w'. split; [exact H|]. split; [exact Ht|].
    simpl in Hf, Hx. split; [lia|]. split; [lia | exact Hrest].
Qed.

(** The loop of [batch_fix_inputs.py] on a dry run, from any total and
    whether it ends or raises. *)
Lemma batch_dry_run_spec (files : list string) : forall (n : nat) (w : world),
  exists r t w',
    for_each files
      (fun total_fixed file_path =>
         present ← path_exists file_path;
         if present : bool then
           print (BatchFile file_path);;
           count ← BatchFix.fix_file file_path true;
           print (BatchFixed count);;
           mret (total_fixed + count)
         else
           print (BatchNotFound file_path);;
           mret total_fixed) n w = (r, w')
    /\ trace w' = trace w ++ t
    /\ written t = []
    /\ fs w' = fs w.
Proof.
  match goal with |- context [for_each _ ?b] => set (body := b) end.
  induction files as [|f files IH]; intros n w.
  - exists (inr n), [], w. simpl. by rewrite app_nil_r.
  - cbn [for_each]. unfold mbind, M_bind. unfold body at 1. cbv beta.
    unfold path_exists, mbind, M_bind.
    destruct (bool_decide (is_Some (fs w !! f))).
    + unfold print at 1. cbn [fs trace].
      destruct (batch_fix_file_spec f true
                  (World (fs w) (trace w ++ [Printed (BatchFile f)])))
        as (r & t1 & w1 & -> & Ht1 & _ & Hw1 & Hfs1).
      cbn [fs trace] in *.
      destruct Hw1 as [Hw1|[_ ?]]; [|done]. specialize (Hfs1 Hw1).
      destruct r as [e|count].
      * exists (inl e), (Printed (BatchFile f) :: t1), w1.
        split; [reflexivity|]. split; [by rewrite Ht1, <- app_assoc|].
        by split.
      * unfold print, mret, M_ret. cbn [fs trace].
        destruct (IH (n + count)
                    (World (fs w1) (trace w1 ++ [Printed (BatchFixed count)])))
          as (r & t2 & w2 & -> & Ht2 & Hw2 & Hfs2).
        cbn [fs trace] in *.
        exists r, (Printed (BatchFile f) :: t1
                   ++ Printed (BatchFixed count) :: t2), w2.
        split; [reflexivity|].
        split; [rewrite Ht2, Ht1, <- !app_assoc; by simpl|].
        split; [|congruence].
        simpl. rewrite written_app, Hw1. simpl. exact Hw2.
    + unfold print, mret, M_ret. cbn [fs trace].
      destruct (IH n (World (fs w) (trace w ++ [Printed (BatchNotFound f)])))
        as (r & t2 & w2 & -> & Ht2 & Hw2 & Hfs2).
      cbn [fs trace] in *.
      exists r, (Printed (BatchNotFound f) :: t2), w2.
      split; [reflexivity|]. split; [by rewrite Ht2, <- app_assoc|].
      by split.
Qed.

(** X13.  A dry run of [batch_fix_inputs.py] writes nothing: however the
    run ends, the files are as they were and the effects added are lines
    printed. *)
Theorem batch_dry_run_writes_nothing (files : list string) (w : world) :
  (exists r t w',
     BatchFix.fix_files files true w = (r, w')
     /\ trace w' = trace w ++ t /\ written t = [] /\ fs w' = fs w)
  /\ fs (snd (BatchFix.main true w)) = fs w.
Proof.
  split; [apply batch_dry_run_spec|].
  unfold BatchFix.main, BatchFix.fix_files.
  destruct (batch_dry_run_spec BatchFix.priority_files 0 w)
    as (r & t & w' & -> & _ & _ & H).
  exact H.
Qed.

(** X14.  Each of the four scripts that write works on one file at a time:
    a call on a path creates and removes no file and leaves every other
    file as it is. *)
Theorem one_file_at_a_time (path : string) (dry_run : bool) (w : world) :
  touches_only path w (snd (ComprehensiveFix.process_file path w))
  /\ touches_only path w (snd (FinalFix.process_file path w))
  /\ touches_only path w (snd (BatchFix.fix_file path dry_run w))
  /\ touches_only path w (snd (FixConsole.fix_file path w)).
Proof.
  destruct (comprehensive_process_file_spec path w)
    as (? & ? & ? & -> & _ & H1 & _).
  destruct (final_process_file_spec path w) as (? & ? & ? & -> & _ & H2 & _).
  destruct (batch_fix_file_spec path dry_run w)
    as (? & ? & ? & -> & _ & H3 & _).
  destruct (console_fix_file_spec path w) as (? & ? & ? & -> & _ & H4 & _).
  done.
Qed.

End RunFacts.

(** ** The identifier of [batch_fix_inputs.py] *)

Module BatchIdFacts.
Import Py Re Common Cases PyFacts IdFacts.

(** What the clean-up of an identifier keeps. *)
Lemma sub_cls_keeps (p : ascii -> bool) (s : str) (a : ascii) :
  a ∈ s -> p a = false -> a ∈ sub_cls p [] s.
Proof.
  intros Ha Hp. induction s as [|c s IH]; [by apply elem_of_nil in Ha|].
  simpl. apply elem_of_cons in Ha as [<-|Ha].
  - rewrite Hp. by left.
  - destruct (p c); [by apply IH | right; by apply IH].
Qed.

Lemma sub_run_keeps (b : bool) (p : ascii -> bool) (new s : str) (a : ascii) :
  a ∈ s -> p a = false -> a ∈ sub_run_from b p new s.
Proof.
  intros Ha Hp. revert b.
  induction s as [|c s IH]; intros b; [by apply elem_of_nil in Ha|].
  simpl. apply elem_of_cons in Ha as [<-|Ha].
  - rewrite Hp. by left.
  - destruct (p c); [apply elem_of_app; right | right]; by apply IH.
Qed.

Lemma lstrip_keeps (p : ascii -> bool) (s : str) (a : ascii) :
  a ∈ s -> p a = false -> a ∈ lstrip p s.
Proof.
  intros Ha Hp. induction s as [|c s IH]; [by apply elem_of_nil in Ha|].
  simpl. destruct (p c) eqn:E; [|exact Ha].
  apply elem_of_cons in Ha as [->|Ha]; [congruence | by apply IH].
Qed.

Lemma strip_keeps (p : ascii -> bool) (s : str) (a : ascii) :
  a ∈ s -> p a = false -> a ∈ strip p s.
Proof.
  intros Ha Hp. unfold strip, rstrip.
  apply list_elem_of_In. rewrite <- in_rev. apply list_elem_of_In.
  apply lstrip_keeps; [|exact Hp].
  apply list_elem_of_In. rewrite <- in_rev. apply list_elem_of_In.
  by apply lstrip_keeps.
Qed.

Lemma clean_keeps (x : str) (a : ascii) :
  a ∈ x -> is_lower a = true ->
  a ∈ strip BatchFix.is_hyphen
        (sub_run BatchFix.is_hyphen (lit "-")
           (sub_cls (fun c => negb (BatchFix.id_char c)) [] (lower x))).
Proof.
  intros Ha Hl.
  assert (Hh : BatchFix.is_hyphen a = false).
  { revert Hl. destruct a as [[] [] [] [] [] [] [] []]; done. }
  apply strip_keeps; [|exact Hh]. apply sub_run_keeps; [|exact Hh].
  apply sub_cls_keeps.
  - unfold lower. apply list_elem_of_In, in_map_iff. exists a.
    split; [|by apply list_elem_of_In].
    unfold lower_chr. revert Hl. destruct a as [[] [] [] [] [] [] [] []]; done.
  - unfold BatchFix.id_char. by rewrite Hl.
Qed.

(** X15.  The identifier that [batch_fix_inputs.py] makes up is never
    empty: it is made of lowercase letters, digits and hyphens and has a
    letter in it, and the name is the same text. *)
Theorem batch_id_well_formed (input_tag : str) (line_num : nat)
    (file_context : str) :
  let id := fst (BatchFix.generate_id_from_context input_tag line_num
                   file_context) in
  id <> []
  /\ Forall (fun c => BatchFix.id_char c = true) id
  /\ (exists c, c ∈ id /\ is_lower c = true)
  /\ snd (BatchFix.generate_id_from_context input_tag line_num file_context)
     = id.
Proof.
  cbv zeta.
  assert (H : exists c,
            c ∈ fst (BatchFix.generate_id_from_context input_tag line_num
                       file_context) /\ is_lower c = true).
  { unfold BatchFix.generate_id_from_context. cbv zeta. cbn [fst].
    destruct (group1_or BatchFix.re_bind input_tag []).
    2:{ exists "i"%char. split; [|reflexivity].
        apply clean_keeps; [|reflexivity]. apply elem_of_app. left. by left. }
    destruct (group1_or re_placeholder input_tag []).
    2:{ exists "i"%char. split; [|reflexivity].
        apply clean_keeps; [|reflexivity]. apply elem_of_app. left. by left. }
    destruct (_ || _).
    { exists "s"%char. split; [|reflexivity].
      apply clean_keeps; [|reflexivity]. apply elem_of_app. left. by left. }
    destruct (contains (lit "checkbox") _).
    { exists "c"%char. split; [|reflexivity].
      apply clean_keeps; [|reflexivity]. apply elem_of_app. left. by left. }
    destruct (contains (lit "radio") _).
    { exists "r"%char. split; [|reflexivity].
      apply clean_keeps; [|reflexivity]. apply elem_of_app. left. by left. }
    destruct (contains (lit "date") _).
    { exists "d"%char. split; [|reflexivity].
      apply clean_keeps; [|reflexivity]. apply elem_of_app. left. by left. }
    exists "i"%char. split; [|reflexivity]. apply clean_keeps; [|reflexivity].
    apply elem_of_app. right. apply elem_of_app. left. right. by left. }
  split.
  - destruct H as (c & Hc & _). intros E. rewrite E in Hc.
    by apply elem_of_nil in Hc.
  - split; [apply batch_id_shape|]. split; [exact H | reflexivity].
Qed.

End BatchIdFacts.

(** ** [batch_fix_inputs.py] on tags that close on their line *)

Module BatchLineFacts.
Import Py Re Common Cases PyFacts LinesFacts IdFacts PatternFacts.
Import SplicerFacts ReassemblerFacts FrameFacts ConsoleFacts.

Lemma reassemble_closed (lines : list str) (i : nat) (l : str) :
  contains gt l = true -> reassemble [nl] lines i l = Occ (i + 1) l i.
Proof.
  intros H. unfold reassemble. by rewrite grow_tag_stop.
Qed.

Lemma id_char_not_nl (s : str) :
  Forall (fun c => BatchFix.id_char c = true) s -> nl ∉ s.
Proof.
  intros H Hn. rewrite Forall_forall in H. apply H in Hn. done.
Qed.

Lemma gt_spliced (a ins b : str) :
  contains gt (a ++ b) = true -> contains gt (a ++ ins ++ b) = true.
Proof.
  rewrite !gt_in_app. intros [H|H]%orb_true_iff; rewrite H;
    by rewrite ?orb_true_r.
Qed.

(** The patched line: on one line still, with a [name] that is found, and
    closed. *)
Lemma batch_line_patched (i : nat) (l f : str) :
  batch_line i l = Some f -> nl ∉ l -> closes_on_line l ->
  (nl ∉ f) /\ found re_has_name f = true /\ contains gt f = true.
Proof.
  unfold batch_line, closes_on_line. intros H Hl Hc.
  destruct (contains marker l && _) eqn:Hm; [|done].
  apply andb_true_iff in Hm as [Hm _]. specialize (Hc Hm).
  destruct (negb (found re_has_id l) && _) eqn:Hn; [|done].
  apply andb_true_iff in Hn as [Hi Hn].
  apply negb_true_iff in Hi, Hn.
  pose proof (batch_id_shape l (i + 1) []) as (Hid & _).
  destruct (BatchFix.generate_id_from_context l (i + 1) [])
    as [id_name name_attr] eqn:Eg.
  assert (Hname : name_attr = id_name).
  { unfold BatchFix.generate_id_from_context in Eg.
    by injection Eg as <- <-. }
  cbn [fst] in Hid. subst name_attr.
  destruct (negb _); [|done]. injection H as <-.
  apply (found_false_iff "id" l word_head_id) in Hi.
  apply (found_false_iff "name" l word_head_name) in Hn.
  destruct (batch_after_marker l id_name id_name ltac:(tauto) Hm)
    as (pre & ws & post & toks & (-> & Hws & _) & Ht & ->).
  destruct Ht as [(? & _)|[(_ & ? & _)|(_ & _ & ->)]]; [done | done |].
  apply id_char_not_nl in Hid.
  repeat split.
  - cbn [join]. unfold attr.
    rewrite !not_elem_of_app in *.
    destruct Hl as (? & ? & ? & ?).
    repeat split; try done; decided.
  - apply (found_has_attr "name"); [reflexivity|].
    exists (pre ++ marker ++ ws ++ attr "id" id_name ++ lit " "), [],
      ([dq] ++ id_name ++ [dq] ++ lit " " ++ post).
    split; [|split; [constructor | by rewrite !last_app]].
    cbn [join]. unfold attr. by rewrite <- !app_assoc.
  - replace (pre ++ marker ++ ws ++ post)
      with ((pre ++ marker ++ ws) ++ post) in Hc
      by (by rewrite <- !app_assoc).
    replace (pre ++ marker ++ ws
             ++ join (lit " ") [attr "id" id_name; attr "name" id_name]
             ++ lit " " ++ post)
      with ((pre ++ marker ++ ws)
            ++ (join (lit " ") [attr "id" id_name; attr "name" id_name]
                ++ lit " ") ++ post)
      by (by rewrite <- !app_assoc).
    by apply gt_spliced.
Qed.

(** A line whose [name] is found is not patched. *)
Lemma batch_line_named (i : nat) (l : str) :
  found re_has_name l = true -> batch_line i l = None.
Proof.
  intros H. unfold batch_line. rewrite H.
  destruct (contains marker l && _); [|done]. by rewrite andb_false_r.
Qed.

(** One pass of the loop at a line on which the tag closes. *)
Lemma batch_step_line (lines : list str) (content : str) (i c : nat)
    (new : list str) (l : str) :
  closes_on_line l -> nl ∉ l -> length new = i ->
  BatchFix.step lines content (BatchFix.St i new c) l
  = match batch_line i l with
    | Some fixed_tag => BatchFix.St (S i) (new ++ [fixed_tag]) (S c)
    | None => BatchFix.St (S i) (new ++ [l]) c
    end.
Proof.
  intros Hc Hl Hn.
  pose proof (batch_line_patched i l) as Hp.
  unfold BatchFix.step, batch_line in *. cbn [BatchFix.idx BatchFix.new_lines
    BatchFix.fixed_count].
  destruct (contains marker l && _) eqn:Hm; [|done].
  pose proof Hm as [Hm' _]%andb_true_iff.
  rewrite (reassemble_closed lines i l (Hc Hm')).
  cbn [text last_idx start_line].
  destruct (negb (found re_has_id l) && _); [|done].
  change (BatchFix.generate_id_from_context l (i + 1) content)
    with (BatchFix.generate_id_from_context l (i + 1) []).
  destruct (BatchFix.generate_id_from_context l (i + 1) [])
    as [id_name name_attr].
  destruct (negb (eqb_str _ l)); [|done].
  destruct (Hp _ eq_refl Hl Hc) as (Hf & _).
  rewrite (split_free_line nl _ Hf). cbn [length BatchFix.put_all].
  unfold BatchFix.put.
  replace (i <? length new) with false by (symmetry; apply Nat.ltb_ge; lia).
  f_equal. lia.
Qed.

Lemma batch_loop_lines (lines : list str) (content : str) (n : nat) :
  forall i c new,
    Forall closes_on_line lines -> Forall (fun l => nl ∉ l) lines ->
    length new = i -> i + n <= length lines ->
    BatchFix.loop n lines content (BatchFix.St i new c)
    = BatchFix.St (i + n)
        (new ++ fst (batch_lines i (take n (drop i lines))))
        (c + snd (batch_lines i (take n (drop i lines)))).
Proof.
  unfold BatchFix.loop.
  induction n as [|n IH]; intros i c new Hc Hl Hn Hlen; cbn [while_line].
  - rewrite take_0. cbn [batch_lines fst snd].
    by rewrite app_nil_r, !Nat.add_0_r.
  - destruct (lookup_lt_is_Some_2 lines i) as [l Hi]; [lia|].
    cbn [BatchFix.idx]. rewrite Hi.
    assert (Hcl : closes_on_line l).
    { rewrite Forall_forall in Hc. apply Hc.
      by apply list_elem_of_lookup_2 in Hi. }
    assert (Hll : nl ∉ l).
    { rewrite Forall_forall in Hl. apply Hl.
      by apply list_elem_of_lookup_2 in Hi. }
    rewrite (batch_step_line lines content i c new l Hcl Hll Hn).
    rewrite (drop_S _ _ _ Hi). cbn [take batch_lines].
    destruct (batch_lines (S i) (take n (drop (S i) lines)))
      as [out k] eqn:Eb.
    destruct (batch_line i l) as [f|].
    + rewrite IH by (done || (rewrite length_app; simpl; lia) || lia).
      rewrite Eb. cbn [fst snd]. rewrite <- app_assoc.
      f_equal; [lia | lia].
    + rewrite IH by (done || (rewrite length_app; simpl; lia) || lia).
      rewrite Eb. cbn [fst snd]. rewrite <- app_assoc.
      f_equal; lia.
Qed.

Lemma batch_lines_length (ls : list str) : forall i,
  length (fst (batch_lines i ls)) = length ls.
Proof.
  induction ls as [|l ls IH]; intros i; [reflexivity|]. cbn [batch_lines].
  specialize (IH (S i)). destruct (batch_lines (S i) ls) as [out k].
  destruct (batch_line i l); simpl in *; by rewrite IH.
Qed.

Lemma batch_lines_kept (ls : list str) : forall i k l,
  ls !! k = Some l -> batch_line (i + k) l = None ->
  fst (batch_lines i ls) !! k = Some l.
Proof.
  induction ls as [|l0 ls IH]; intros i k l Hk Hb; [done|].
  cbn [batch_lines]. specialize (IH (S i)).
  destruct (batch_lines (S i) ls) as [out n]. destruct k as [|k].
  - injection Hk as ->. rewrite Nat.add_0_r in Hb. by rewrite Hb.
  - simpl in Hk. specialize (IH k l Hk).
    replace (S i + k) with (i + S k) in IH by lia. specialize (IH Hb).
    by destruct (batch_line i l0).
Qed.

(** The lines that come out are lines on which the tags close, and a
    second pass patches none of them. *)
Lemma batch_lines_settled (ls : list str) : forall i,
  Forall closes_on_line ls -> Forall (fun l => nl ∉ l) ls ->
  Forall closes_on_line (fst (batch_lines i ls))
  /\ Forall (fun l => nl ∉ l) (fst (batch_lines i ls))
  /\ batch_lines i (fst (batch_lines i ls)) = (fst (batch_lines i ls), 0).
Proof.
  induction ls as [|l ls IH]; intros i Hc Hl; [by repeat split|].
  inversion Hc as [|? ? Hc1 Hc2]; subst. inversion Hl as [|? ? Hl1 Hl2]; subst.
  destruct (IH (S i) Hc2 Hl2) as (IH1 & IH2 & IH3).
  cbn [batch_lines]. destruct (batch_lines (S i) ls) as [out k].
  cbn [fst] in *. destruct (batch_line i l) as [f|] eqn:Eb; cbn [fst].
  - destruct (batch_line_patched i l f Eb Hl1 Hc1) as (Hf1 & Hf2 & Hf3).
    split; [constructor; [by intros _ | exact IH1]|].
    split; [by constructor|].
    cbn [batch_lines]. rewrite IH3. by rewrite (batch_line_named i f Hf2).
  - split; [by constructor|]. split; [by constructor|].
    cbn [batch_lines]. rewrite IH3. by rewrite Eb.
Qed.

(** X16.  On a file in which every tag closes on the line it starts on,
    [batch_fix_inputs.py] keeps the number of lines, leaves the lines
    without a tag as they are, and patches nothing on a second run. *)
Theorem batch_settles_on_closed_tags (content : str) :
  Forall closes_on_line (split nl content) ->
  let first := BatchFix.fix_content content in
  length (split nl (fst first)) = length (split nl content)
  /\ (forall k l,
        split nl content !! k = Some l -> contains marker l = false ->
        split nl (fst first) !! k = Some l)
  /\ BatchFix.fix_content (fst first) = (fst first, 0).
Proof.
  intros Hc. cbv zeta.
  assert (Hl : Forall (fun l => nl ∉ l) (split nl content))
    by apply split_free.
  assert (Hrun : forall ls content',
            Forall closes_on_line ls -> Forall (fun l => nl ∉ l) ls ->
            BatchFix.loop (length ls) ls content' (BatchFix.St 0 [] 0)
            = BatchFix.St (length ls) (fst (batch_lines 0 ls))
                (snd (batch_lines 0 ls))).
  { intros ls content' H1 H2.
    rewrite (batch_loop_lines ls content' (length ls) 0 0 [] H1 H2 eq_refl)
      by lia.
    by rewrite drop_0, firstn_all. }
  destruct (batch_lines_settled (split nl content) 0 Hc Hl)
    as (Hc' & Hl' & Hagain).
  assert (Hne : fst (batch_lines 0 (split nl content)) <> []).
  { intros E. pose proof (batch_lines_length (split nl content) 0) as H.
    rewrite E in H. pose proof (split_not_nil nl content).
    destruct (split nl content); [done | discriminate]. }
  assert (Hfirst : BatchFix.fix_content content
                   = (join [nl] (fst (batch_lines 0 (split nl content))),
                      snd (batch_lines 0 (split nl content)))).
  { unfold BatchFix.fix_content. by rewrite (Hrun _ _ Hc Hl). }
  rewrite Hfirst. cbn [fst]. rewrite (split_join nl _ Hne Hl').
  split; [apply batch_lines_length|]. split.
  - intros k l Hk Hm. apply batch_lines_kept; [exact Hk|].
    unfold batch_line. by rewrite Hm.
  - unfold BatchFix.fix_content. rewrite (split_join nl _ Hne Hl').
    rewrite (Hrun _ _ Hc' Hl'). by rewrite Hagain.
Qed.

Lemma batch_settles_on_closed_tags_witness :
  BatchFix.fix_content (fst (BatchFix.fix_content closed_tags))
  = (fst (BatchFix.fix_content closed_tags), 0).
Proof.
  apply (batch_settles_on_closed_tags closed_tags).
  repeat constructor; intros _; reflexivity.
Defined.

End BatchLineFacts.

(** ** Tags without whitespace after the marker *)

Module BareMarkerFacts.
Import Py Re Common Cases PyFacts PatternFacts SplicerFacts.

Lemma no_marker_space_search (tag : str) :
  ~ has_marker_space tag -> search re_input_ws tag = None.
Proof.
  intros H. pose proof (search_input_ws tag) as Hs.
  destruct (search re_input_ws tag) as [m|]; [|reflexivity].
  destruct Hs as (pre & ws & post & (-> & Hws & _) & Hne & _).
  exfalso. apply H. destruct ws as [|c ws]; [done|].
  exists pre, c, (ws ++ post). split; [reflexivity|]. by inversion Hws.
Qed.

(** X17.  A tag of ASCII text in which [<input] is nowhere followed by
    whitespace, as in [<input>]: [comprehensive_fix.py] does not patch it,
    and neither does [final_comprehensive_fix.py] unless the tag has a
    quoted [id]; [batch_fix_inputs.py] puts its attributes right behind
    the leftmost marker, with nothing in between. *)
Theorem marker_without_space (tag : str) :
  ascii_text tag ->
  ~ has_marker_space tag ->
  (forall file_path s line,
     text (reassemble_list (ComprehensiveFix.lines s)
             (ComprehensiveFix.idx s) line) = tag ->
     ComprehensiveFix.lines (ComprehensiveFix.step file_path s line)
       = ComprehensiveFix.lines s
     /\ ComprehensiveFix.fixed_count (ComprehensiveFix.step file_path s line)
        = ComprehensiveFix.fixed_count s)
  /\ (~ has_quoted_id tag -> FinalFix.fix_input_tag tag = tag)
  /\ (forall id_name name_attr,
        contains marker tag = true ->
        ~ has_attribute "id" tag -> ~ has_attribute "name" tag ->
        exists pre post,
          tag = pre ++ marker ++ post
          /\ (forall pre' post',
                tag = pre' ++ marker ++ post' -> length pre <= length pre')
          /\ BatchFix.fix_input_tag tag id_name name_attr
             = pre ++ marker ++ attr "id" id_name ++ lit " "
               ++ attr "name" name_attr ++ lit " " ++ post).
Proof.
  intros _ Hns. split; [|split].
  - intros file_path s line Ht. unfold ComprehensiveFix.step.
    destruct (contains marker line); [|done]. rewrite Ht.
    destruct (contains hidden tag); [done|].
    destruct (negb _ && negb _); [|done].
    destruct (ComprehensiveFix.generate_smart_id _ _ _) as [id_val name_val].
    by rewrite (no_marker_space_search tag Hns).
  - intros Hq. unfold FinalFix.fix_input_tag.
    destruct (contains hidden tag); [done|]. by apply final_unchanged.
  - intros id_name name_attr Hm Hi Hn.
    destruct (batch_after_marker_first tag id_name name_attr ltac:(tauto) Hm)
      as (pre & ws & post & toks & (Htag & Hws & _) & Hfirst & Ht & Hout).
    destruct Hfirst as [[Hne _]|(-> & _ & Hfirst)].
    { exfalso. apply Hns. destruct ws as [|c ws]; [done|].
      exists pre, c, (ws ++ post). split; [exact Htag|]. by inversion Hws. }
    destruct Ht as [(? & _)|[(_ & ? & _)|(_ & _ & ->)]]; [done | done |].
    exists pre, post. split; [exact Htag|]. split; [exact Hfirst|].
    rewrite Hout. cbn [join]. by rewrite <- !app_assoc.
Qed.

Lemma bare_input_no_space : ~ has_marker_space bare_input.
Proof.
  pose proof (search_input_ws bare_input) as H.
  by destruct (search re_input_ws bare_input) eqn:E; [vm_compute in E|].
Qed.

Lemma marker_without_space_witness :
  ascii_text bare_input
  /\ exists pre post,
       bare_input = pre ++ marker ++ post
       /\ BatchFix.fix_input_tag bare_input (lit "a") (lit "a")
          = pre ++ marker ++ attr "id" (lit "a") ++ lit " "
            ++ attr "name" (lit "a") ++ lit " " ++ post.
Proof.
  split; [reflexivity|].
  destruct (marker_without_space bare_input eq_refl bare_input_no_space)
    as (_ & _ & H).
  destruct (H (lit "a") (lit "a")) as (pre & post & Ht & _ & Hout).
  - reflexivity.
  - intros H1. apply (found_has_attr "id") in H1; [discriminate H1|reflexivity].
  - intros H1. apply (found_has_attr "name") in H1;
      [discriminate H1|reflexivity].
  - exists pre, post. split; [exact Ht | exact Hout].
Defined.

End BareMarkerFacts.

(** ** The attributes that [final_comprehensive_fix.py] adds *)

Module AutocompleteFacts.
Import Py Re Common Cases PyFacts PatternFacts SplicerFacts.

Lemma mem_spec (x : str) (l : list string) :
  mem x l = true <-> exists y, In y l /\ x = lit y.
Proof.
  unfold mem, eqb_str. rewrite existsb_exists. split.
  - intros (y & Hy & H). apply bool_decide_eq_true in H. eauto.
  - intros (y & Hy & ->). exists y. split; [exact Hy|].
    by apply bool_decide_eq_true.
Qed.

(** X18.  [final_comprehensive_fix.py] adds a [name] or an [autocomplete],
    nothing else; the [autocomplete] is one of four values and goes to
    inputs of type [password], [email] or [tel] only, so the table for text
    inputs is never used by the patcher.  An input of type [username]
    without [autocomplete] is flagged by [enhanced_scan.py] and gets none
    from the patcher. *)
Theorem final_autocomplete_values (tag : str) :
  (forall t, In t (FinalFix.attrs_to_add tag) ->
     (exists v, t = attr "name" v)
     \/ (exists v : string,
           t = attr "autocomplete" (lit v)
           /\ In v ["new-password"; "current-password"; "email"; "tel"]%string
           /\ exists ty, In ty ["password"; "email"; "tel"]%string
                         /\ group1_or re_type tag (lit "text") = lit ty))
  /\ (group1_or re_type tag (lit "text") = lit "username" ->
      found re_has_autocomplete tag = false ->
      In (lit "missing_autocomplete_username") (EnhancedScan.issues_of tag)
      /\ forall t, In t (FinalFix.attrs_to_add tag) ->
           exists v, t = attr "name" v).
Proof.
  assert (H1 : forall t, In t (FinalFix.attrs_to_add tag) ->
     (exists v, t = attr "name" v)
     \/ (exists v : string,
           t = attr "autocomplete" (lit v)
           /\ In v ["new-password"; "current-password"; "email"; "tel"]%string
           /\ exists ty, In ty ["password"; "email"; "tel"]%string
                         /\ group1_or re_type tag (lit "text") = lit ty)).
  { intros t. unfold FinalFix.attrs_to_add. cbv zeta.
    intros [Ht|Ht]%in_app_or.
    - left. destruct (negb _ && negb _); [|done].
      destruct Ht as [<-|[]]. eauto.
    - right. destruct (negb _ && mem _ _) eqn:E; [|done].
      apply andb_true_iff in E as [_ (ty & Hty & E)%mem_spec].
      rewrite E in Ht |- *.
      assert (Hv : exists v : string,
                FinalFix.get_autocomplete_value tag (lit ty)
                  match search FinalFix.re_id_value tag with
                  | Some m => group 1 tag m
                  | None => []
                  end = lit v
                /\ In v ["new-password"; "current-password"; "email";
                         "tel"]%string).
      { unfold FinalFix.get_autocomplete_value.
        simpl in Hty. destruct Hty as [<-|[<-|[<-|[]]]].
        - change (eqb_str (lit "password") (lit "password")) with true.
          cbv iota. destruct (_ || _).
          + exists "new-password"%string. simpl. tauto.
          + exists "current-password"%string. simpl. tauto.
        - exists "email"%string. split; [reflexivity | simpl; tauto].
        - exists "tel"%string. split; [reflexivity | simpl; tauto]. }
      destruct Hv as (v & Hv & Hin). rewrite Hv in Ht.
      exists v. split; [|split; [exact Hin | by exists ty]].
      destruct (lit v) eqn:Ev; [done|]. by destruct Ht as [<-|[]]. }
  split; [exact H1|]. intros Hty Hac. split.
  - unfold EnhancedScan.issues_of. cbv zeta. rewrite Hty, Hac.
    apply in_or_app. right. by left.
  - intros t Ht. destruct (H1 t Ht) as [H|(v & _ & _ & ty & Hin & E)];
      [exact H|].
    exfalso. rewrite Hty in E. simpl in Hin.
    destruct Hin as [<-|[<-|[<-|[]]]]; discriminate E.
Qed.

Lemma final_autocomplete_values_witness :
  In (lit "missing_autocomplete_username")
    (EnhancedScan.issues_of username_field)
  /\ forall t, In t (FinalFix.attrs_to_add username_field) ->
       exists v, t = attr "name" v.
Proof.
  apply (final_autocomplete_values username_field); reflexivity.
Defined.

End AutocompleteFacts.

Module FinalSeenFacts.
Import Py Re Common Cases PyFacts PatternFacts SplicerFacts FrameFacts.

(** Where a token stands in the tokens joined by blanks: at the start,
    or after a blank. *)
Lemma join_at (l1 l2 : list str) (t : str) :
  exists A B,
    join (lit " ") (l1 ++ t :: l2) = A ++ t ++ B
    /\ (A = [] \/ last A = Some " "%char).
Proof.
  induction l1 as [|x l1 (A & B & IH & HA)].
  - exists []. destruct l2 as [|y l2].
    + exists []. split; [by rewrite app_nil_r | by left].
    + exists (lit " " ++ join (lit " ") (y :: l2)).
      split; [reflexivity | by left].
  - exists (x ++ lit " " ++ A), B. split.
    + change ((x :: l1) ++ t :: l2) with (x :: (l1 ++ t :: l2)).
      destruct (l1 ++ t :: l2) as [|y l] eqn:E; [by destruct l1|].
      rewrite LinesFacts.join_cons, IH. by rewrite <- !app_assoc.
    + right. destruct HA as [->|HA].
      * by rewrite app_nil_r, last_app.
      * by rewrite !last_app, HA.
Qed.

Lemma seen_in_join (key : string) (v X Y : str) (attrs : list str) :
  word_opt (last X) = false -> In (attr key v) attrs ->
  has_attribute key (X ++ join (lit " ") attrs ++ Y).
Proof.
  intros HX (l1 & l2 & ->)%in_split.
  destruct (join_at l1 l2 (attr key v)) as (A & B & -> & HA).
  exists (X ++ A), [], ([dq] ++ v ++ [dq] ++ B ++ Y).
  split; [unfold attr; by rewrite <- !app_assoc|].
  split; [constructor|].
  destruct HA as [->|HA]; [by rewrite app_nil_r|]. by rewrite last_app, HA.
Qed.

(** X19.  What [final_comprehensive_fix.py] adds to a tag is found in the
    patched tag by the detectors of the scanners and patchers: a [name]
    added is a [name] found, an [autocomplete] added is an [autocomplete]
    found. *)
Theorem final_patch_is_seen (tag : str) :
  FinalFix.fix_input_tag tag <> tag ->
  forall key v,
    In key ["name"; "autocomplete"]%string ->
    In (attr key v) (FinalFix.attrs_to_add tag) ->
    found (has_attr key) (FinalFix.fix_input_tag tag) = true.
Proof.
  unfold FinalFix.fix_input_tag. destruct (contains hidden tag); [done|].
  intros Hch key v Hkey Hin.
  assert (Hw : word_opt (head (lit key)) = true).
  { simpl in Hkey. by destruct Hkey as [<-|[<-|[]]]. }
  apply (found_has_attr key _ Hw).
  assert (Hne : FinalFix.attrs_to_add tag <> [])
    by (by intros E; rewrite E in Hin).
  pose proof (search_id_value tag) as Hid.
  destruct (search FinalFix.re_id_value tag) as [m|] eqn:Em.
  - assert (Hq : has_quoted_id tag).
    { destruct Hid as (pre & a & post & H & _). by exists pre, a, post. }
    destruct (final_after_id tag _ Hne Hq) as (pre & a & post & _ & _ & ->).
    replace (pre ++ a ++ lit " " ++ join (lit " ") (FinalFix.attrs_to_add tag)
             ++ post)
      with ((pre ++ a ++ lit " ") ++ join (lit " ") (FinalFix.attrs_to_add tag)
            ++ post) by (by rewrite <- !app_assoc).
    apply (seen_in_join key v); [|exact Hin]. by rewrite !last_app.
  - pose proof (search_input_ws tag) as Hws.
    destruct (search re_input_ws tag) as [m|] eqn:Es.
    + assert (Hs : has_marker_space tag).
      { destruct Hws as (pre & ws & post & (-> & Hsp & _) & Hn & _).
        destruct ws as [|c ws]; [done|]. exists pre, c, (ws ++ post).
        split; [reflexivity | by inversion Hsp]. }
      destruct (final_after_marker tag _ Hne Hid Hs)
        as (pre & ws & post & (_ & Hsp & _) & Hn & _ & ->).
      replace (pre ++ marker ++ ws
               ++ join (lit " ") (FinalFix.attrs_to_add tag) ++ lit " "
               ++ post)
        with ((pre ++ marker ++ ws)
              ++ join (lit " ") (FinalFix.attrs_to_add tag) ++ lit " "
              ++ post)
        by (by rewrite <- !app_assoc).
      apply (seen_in_join key v); [|exact Hin].
      rewrite app_assoc. by apply last_spaces_not_word.
    + exfalso. apply Hch. by apply final_unchanged.
Qed.

Lemma final_patch_is_seen_witness :
  found re_has_autocomplete (FinalFix.fix_input_tag email_field) = true.
Proof.
  apply (final_patch_is_seen email_field ltac:(discriminate) "autocomplete"
           (lit "email")).
  - simpl. tauto.
  - vm_compute. tauto.
Defined.

End FinalSeenFacts.

(** ** The directory scans of the scanners *)

Module ScanRunFacts.
Import Py Re Common IO Cases PyFacts FileFacts FrameFacts.

Lemma read_file_cases (path : string) (w : world) :
  (exists e, read_file path w = (inl e, w)) \/ readable w path.
Proof.
  unfold readable, read_file. destruct (fs w !! path) as [f|]; [|eauto].
  destruct (f_read_err f); eauto.
Qed.

Lemma readable_not_raised (path : string) (w : world) e :
  read_file path w = (inl e, w) -> ~ readable w path.
Proof. intros H [c Hc]. congruence. Qed.

(** A loop that reads each file and keeps a result: it leaves the world as
    it is, and it ends if and only if every file can be read. *)
Lemma reading_loop {A R} (check : str -> A) (keep : R -> string -> A -> R)
    (files : list string) : forall (acc : R) (w : world),
  snd (for_each files
         (fun results file_path =>
            x ← (content ← read_file file_path; mret (check content));
            mret (keep results file_path x)) acc w) = w
  /\ ((exists r, for_each files
         (fun results file_path =>
            x ← (content ← read_file file_path; mret (check content));
            mret (keep results file_path x)) acc w = (inr r, w))
      <-> Forall (readable w) files).
Proof.
  match goal with |- context [for_each _ ?b] => set (body := b) end.
  induction files as [|f files IH]; intros acc w.
  - simpl. split; [reflexivity|]. split; [constructor | eauto].
  - cbn [for_each]. unfold mbind, M_bind. unfold body at 1 3. cbv beta.
    unfold mbind, M_bind, mret, M_ret.
    destruct (read_file_cases f w) as [[e He]|[c Hc]].
    + rewrite He. simpl. split; [reflexivity|]. split.
      * intros [r Hr]. discriminate Hr.
      * intros H. inversion H as [|? ? Hf _]; subst.
        by apply (readable_not_raised f w e He) in Hf.
    + rewrite Hc. destruct (IH (keep acc f (check c)) w) as [IH1 IH2].
      split; [exact IH1|]. rewrite IH2. split.
      * intros H. constructor; [by exists c | exact H].
      * intros H. by inversion H.
Qed.

Lemma for_each_ext {A S} (b1 b2 : S -> A -> M S) (l : list A) :
  (forall s x w, b1 s x w = b2 s x w) ->
  forall s w, for_each l b1 s w = for_each l b2 s w.
Proof.
  intros Hb. induction l as [|x l IH]; intros s w; [reflexivity|].
  cbn [for_each]. unfold mbind, M_bind. rewrite Hb.
  destruct (b2 s x w) as [[e|s'] w']; [reflexivity | apply IH].
Qed.

Lemma for_each_inv {A S} (P : S -> Prop) (body : S -> A -> M S) (l : list A) :
  (forall s x w s' w', P s -> body s x w = (inr s', w') -> P s') ->
  forall s w s' w', P s -> for_each l body s w = (inr s', w') -> P s'.
Proof.
  intros Hb. induction l as [|x l IH]; intros s w s' w' Hs.
  - simpl. unfold mret, M_ret. by intros [= <- _].
  - cbn [for_each]. unfold mbind, M_bind.
    destruct (body s x w) as [[e|s1] w1] eqn:E; [done|].
    apply IH. by apply (Hb s x w s1 w1).
Qed.

Lemma enhanced_scan_reads (tree : list (string * list string)) (w : world) :
  EnhancedScan.scan_all_files tree w
  = for_each (walked tree)
      (fun results file_path =>
         x ← (content ← read_file file_path;
              mret (EnhancedScan.check_input_violations content));
         mret (match x with
               | _ :: _ => results ++ [(file_path, x)]
               | [] => results
               end)) [] w.
Proof.
  unfold EnhancedScan.scan_all_files. apply for_each_ext.
  intros s x w0. unfold EnhancedScan.check_input_violations_in, mbind, M_bind.
  destruct (read_file x w0) as [[e|c] w1]; [reflexivity|].
  unfold mret, M_ret. by destruct (EnhancedScan.check_input_violations c).
Qed.

Lemma form_fields_scan_reads (tree : list (string * list string))
    (w : world) :
  FixFormFields.scan_directory tree w
  = for_each (walked tree)
      (fun results file_path =>
         x ← (content ← read_file file_path;
              mret (FixFormFields.find_inputs_without_id_name content));
         mret (match x with
               | _ :: _ => results ++ [(file_path, x)]
               | [] => results
               end)) [] w.
Proof.
  unfold FixFormFields.scan_directory. apply for_each_ext.
  intros s x w0.
  unfold FixFormFields.find_inputs_without_id_name_in, mbind, M_bind.
  destruct (read_file x w0) as [[e|c] w1]; [reflexivity|].
  unfold mret, M_ret.
  by destruct (FixFormFields.find_inputs_without_id_name c).
Qed.

(** X20.  The directory scans of [enhanced_scan.py] and
    [fix_form_fields.py] only read: however a scan ends, no file has
    changed and nothing was printed.  Neither catches an error, so a scan
    comes to its end if and only if every [.svelte] file of the walk can be
    read. *)
Theorem scanners_only_read (tree : list (string * list string)) (w : world) :
  snd (EnhancedScan.scan_all_files tree w) = w
  /\ snd (FixFormFields.scan_directory tree w) = w
  /\ ((exists results, EnhancedScan.scan_all_files tree w = (inr results, w))
      <-> Forall (readable w) (walked tree))
  /\ ((exists results, FixFormFields.scan_directory tree w = (inr results, w))
      <-> Forall (readable w) (walked tree)).
Proof.
  rewrite enhanced_scan_reads, form_fields_scan_reads.
  destruct (reading_loop EnhancedScan.check_input_violations
              (fun results file_path x =>
                 match x with
                 | _ :: _ => results ++ [(file_path, x)]
                 | [] => results
                 end) (walked tree) [] w) as [H1 H2].
  destruct (reading_loop FixFormFields.find_inputs_without_id_name
              (fun results file_path x =>
                 match x with
                 | _ :: _ => results ++ [(file_path, x)]
                 | [] => results
                 end) (walked tree) [] w) as [H3 H4].
  done.
Qed.

Lemma autocomplete_fold (file_path : string) (v : EnhancedScan.violation)
    (issues : list str) : forall c,
  let c' :=
    fold_left
      (fun c issue =>
         if contains (lit "missing_autocomplete") issue
         then EnhancedScan.Categories (EnhancedScan.missing_id_name c)
                (EnhancedScan.missing_name_only c)
                (EnhancedScan.missing_autocomplete c
                 ++ [(file_path, v, issue)])
         else c) issues c in
  EnhancedScan.missing_id_name c' = EnhancedScan.missing_id_name c
  /\ EnhancedScan.missing_name_only c' = EnhancedScan.missing_name_only c
  /\ length (EnhancedScan.missing_autocomplete c')
     = length (EnhancedScan.missing_autocomplete c)
       + autocomplete_issues issues.
Proof.
  unfold autocomplete_issues.
  induction issues as [|i issues IH]; intros c; cbv zeta.
  - simpl. repeat split. lia.
  - cbn [fold_left]. rewrite filter_cons.
    destruct (contains (lit "missing_autocomplete") i) eqn:E.
    + destruct (decide (true = true)) as [_|]; [|done].
      specialize (IH (EnhancedScan.Categories (EnhancedScan.missing_id_name c)
                        (EnhancedScan.missing_name_only c)
                        (EnhancedScan.missing_autocomplete c
                         ++ [(file_path, v, i)]))).
      cbv zeta in IH. destruct IH as (-> & -> & ->). cbn.
      rewrite length_app. simpl. repeat split. lia.
    + destruct (decide (false = true)) as [|_]; [done|]. apply IH.
Qed.

Lemma categorize_violation_size (file_path : string)
    (c : EnhancedScan.categories) (v : EnhancedScan.violation) :
  let c' := EnhancedScan.categorize_violation file_path c v in
  length (EnhancedScan.missing_id_name c')
  + length (EnhancedScan.missing_name_only c')
  + length (EnhancedScan.missing_autocomplete c')
  = length (EnhancedScan.missing_id_name c)
    + length (EnhancedScan.missing_name_only c)
    + length (EnhancedScan.missing_autocomplete c)
    + (if EnhancedScan.has_issue "missing_id_and_name" v
          || EnhancedScan.has_issue "missing_name" v
       then 1 else 0)
    + autocomplete_issues (EnhancedScan.v_issues v).
Proof.
  cbv zeta. unfold EnhancedScan.categorize_violation.
  match goal with
  | |- context [fold_left ?f ?l ?c0] =>
      destruct (autocomplete_fold file_path v l c0) as (-> & -> & ->)
  end.
  destruct (EnhancedScan.has_issue "missing_id_and_name" v); cbn.
  - rewrite length_app. simpl. lia.
  - destruct (EnhancedScan.has_issue "missing_name" v); cbn.
    + rewrite length_app. simpl. lia.
    + lia.
Qed.

(** Of the issues of a tag, all but [missing_id] are counted. *)
Lemma issues_of_counted (tag : str) (v : EnhancedScan.violation) :
  EnhancedScan.v_issues v = EnhancedScan.issues_of tag ->
  (if EnhancedScan.has_issue "missing_id_and_name" v
      || EnhancedScan.has_issue "missing_name" v
   then 1 else 0)
  + autocomplete_issues (EnhancedScan.v_issues v)
  + (if EnhancedScan.has_issue "missing_id" v then 1 else 0)
  = length (EnhancedScan.v_issues v).
Proof.
  unfold EnhancedScan.has_issue, autocomplete_issues. intros ->.
  unfold EnhancedScan.issues_of. cbv zeta.
  generalize (group1_or re_type tag (lit "text")). intros ty.
  destruct (found re_has_id tag), (found re_has_name tag),
    (mem ty _ && negb _); vm_compute; reflexivity.
Qed.

(** Every violation of a scan holds the issues of its tag. *)
Lemma violations_of_tags (content : str) :
  Forall (fun v => exists tag,
            EnhancedScan.v_issues v = EnhancedScan.issues_of tag)
    (EnhancedScan.check_input_violations content).
Proof.
  unfold EnhancedScan.check_input_violations, EnhancedScan.loop.
  apply (while_line_inv
           (fun s => split nl content !! EnhancedScan.idx s)
           (EnhancedScan.step (split nl content))
           (fun s => Forall (fun v => exists tag,
                               EnhancedScan.v_issues v
                               = EnhancedScan.issues_of tag)
                       (EnhancedScan.violations s))); [|constructor].
  intros s line _ Hs. unfold EnhancedScan.step.
  destruct (contains marker line); [|exact Hs].
  destruct (contains hidden _); [exact Hs|]. cbn [EnhancedScan.v_issues].
  destruct (EnhancedScan.issues_of _) eqn:E; [exact Hs|].
  cbn [EnhancedScan.violations]. apply Forall_app. split; [exact Hs|].
  constructor; [|constructor]. eexists. cbn [EnhancedScan.v_issues].
  symmetry. exact E.
Qed.

Lemma categorize_file (file_path : string)
    (vs : list EnhancedScan.violation) : forall c,
  Forall (fun v => exists tag,
            EnhancedScan.v_issues v = EnhancedScan.issues_of tag) vs ->
  let c' := fold_left (EnhancedScan.categorize_violation file_path) vs c in
  length (EnhancedScan.missing_id_name c')
  + length (EnhancedScan.missing_name_only c')
  + length (EnhancedScan.missing_autocomplete c')
  + length (filter (fun v => EnhancedScan.has_issue "missing_id" v = true) vs)
  = length (EnhancedScan.missing_id_name c)
    + length (EnhancedScan.missing_name_only c)
    + length (EnhancedScan.missing_autocomplete c)
    + list_sum (map (fun v => length (EnhancedScan.v_issues v)) vs).
Proof.
  induction vs as [|v vs IH]; intros c Hvs; cbv zeta.
  - simpl. lia.
  - inversion Hvs as [|? ? [tag Hv] Hvs']; subst.
    cbn [fold_left map]. change (list_sum (?x :: ?l)) with (x + list_sum l).
    specialize (IH (EnhancedScan.categorize_violation file_path c v) Hvs').
    cbv zeta in IH.
    pose proof (categorize_violation_size file_path c v) as Hc.
    cbv zeta in Hc.
    pose proof (issues_of_counted tag v Hv) as Hi.
    rewrite filter_cons.
    destruct (EnhancedScan.has_issue "missing_id" v).
    + destruct (decide (true = true)) as [_|]; [|done]. simpl length. lia.
    + destruct (decide (false = true)) as [|_]; [done|]. lia.
Qed.

Lemma categorize_results
    (results : list (string * list EnhancedScan.violation)) : forall c,
  Forall (fun '(_, vs) =>
            Forall (fun v => exists tag,
                      EnhancedScan.v_issues v = EnhancedScan.issues_of tag) vs)
    results ->
  let c' :=
    fold_left
      (fun c '(file_path, violations) =>
         fold_left (EnhancedScan.categorize_violation file_path) violations c)
      results c in
  length (EnhancedScan.missing_id_name c')
  + length (EnhancedScan.missing_name_only c')
  + length (EnhancedScan.missing_autocomplete c')
  + only_id_missing results
  = length (EnhancedScan.missing_id_name c)
    + length (EnhancedScan.missing_name_only c)
    + length (EnhancedScan.missing_autocomplete c)
    + issues_reported results.
Proof.
  unfold only_id_missing, issues_reported.
  induction results as [|[p vs] results IH]; intros c Hr; cbv zeta.
  - simpl. lia.
  - inversion Hr as [|? ? Hvs Hr']; subst.
    cbn [fold_left map]. change (list_sum (?x :: ?l)) with (x + list_sum l).
    specialize (IH (fold_left (EnhancedScan.categorize_violation p) vs c) Hr').
    cbv zeta in IH.
    pose proof (categorize_file p vs c Hvs) as Hc. cbv zeta in Hc. lia.
Qed.

(** X21.  The number that [enhanced_scan.py] prints as the total of
    violations to fix counts every issue of the scan but [missing_id]: a
    tag that has a [name] and lacks only its [id] is in none of the three
    lists of the summary. *)
Theorem total_leaves_out_missing_id (tree : list (string * list string))
    (w w' : world) (results : list (string * list EnhancedScan.violation)) :
  EnhancedScan.scan_all_files tree w = (inr results, w') ->
  EnhancedScan.total_violations results + only_id_missing results
  = issues_reported results.
Proof.
  intros Hs.
  assert (Hr : Forall (fun '(_, vs) =>
                  Forall (fun v => exists tag,
                            EnhancedScan.v_issues v
                            = EnhancedScan.issues_of tag) vs) results).
  { revert Hs. unfold EnhancedScan.scan_all_files.
    apply for_each_inv; [|constructor].
    intros s x w0 s' w1 Hs.
    unfold EnhancedScan.check_input_violations_in, mbind, M_bind.
    destruct (read_file x w0) as [[e|c] w2]; [done|].
    unfold mret, M_ret.
    pose proof (violations_of_tags c) as Hv.
    destruct (EnhancedScan.check_input_violations c) as [|v vs];
      intros [= <- _]; [exact Hs|].
    apply Forall_app. split; [exact Hs|]. by constructor. }
  pose proof (categorize_results results (EnhancedScan.Categories [] [] []) Hr)
    as H.
  cbv zeta in H. unfold EnhancedScan.total_violations, EnhancedScan.categorize.
  cbv zeta. simpl in H. lia.
Qed.

Lemma total_leaves_out_missing_id_witness :
  exists results,
    EnhancedScan.scan_all_files name_only_tree name_only_file
    = (inr results, name_only_file)
    /\ issues_reported results = 1
    /\ EnhancedScan.total_violations results + only_id_missing results = 1.
Proof.
  exists [("src/routes/+page.svelte"%string,
           [EnhancedScan.Violation 1 (lit "<input name='q' type='text'>")
              [lit "missing_id"]])].
  split; [reflexivity|]. split; [reflexivity|].
  apply (total_leaves_out_missing_id name_only_tree name_only_file
           name_only_file).
  reflexivity.
Defined.

End ScanRunFacts.

(** ** The report of [fix_form_fields.py] *)

Module SortFacts.
Import Py Re Common Cases PyFacts.

Section Sorting.
Context {A : Type} (le : A -> A -> bool).
Hypothesis le_total : forall x y, le x y = true \/ le y x = true.
Hypothesis le_trans : forall x y z,
  le x y = true -> le y z = true -> le x z = true.

Lemma insert_by_perm (x : A) (l : list A) : insert_by le x l ≡ₚ x :: l.
Proof using Type.
  induction l as [|y l IH]; [reflexivity|]. simpl.
  destruct (le x y); [reflexivity|]. rewrite IH. apply Permutation_swap.
Qed.

Lemma sort_by_perm (l : list A) : sort_by le l ≡ₚ l.
Proof using Type.
  induction l as [|x l IH]; [reflexivity|]. simpl.
  by rewrite insert_by_perm, IH.
Qed.

Lemma insert_by_sorted (x : A) (l : list A) :
  StronglySorted (fun a b => le a b = true) l ->
  StronglySorted (fun a b => le a b = true) (insert_by le x l).
Proof using le_total le_trans.
  induction 1 as [|y l Hl IH Hy]; simpl; [by repeat constructor|].
  destruct (le x y) eqn:E.
  - constructor; [by constructor|]. constructor; [exact E|].
    eapply Forall_impl; [exact Hy|]. intros z. by apply le_trans.
  - constructor; [exact IH|].
    rewrite insert_by_perm. constructor; [|exact Hy].
    destruct (le_total x y); congruence.
Qed.

Lemma sort_by_sorted (l : list A) :
  StronglySorted (fun a b => le a b = true) (sort_by le l).
Proof using le_total le_trans.
  induction l as [|x l IH]; simpl; [constructor | by apply insert_by_sorted].
Qed.

End Sorting.

Lemma str_leb_total (a b : str) : str_leb a b = true \/ str_leb b a = true.
Proof.
  revert b. induction a as [|x a IH]; intros [|y b]; simpl; auto.
  destruct (nat_of_ascii x <? nat_of_ascii y) eqn:E1; [by left|].
  destruct (nat_of_ascii y <? nat_of_ascii x) eqn:E2; [by right|]. apply IH.
Qed.

Lemma str_leb_trans (a b c : str) :
  str_leb a b = true -> str_leb b c = true -> str_leb a c = true.
Proof.
  revert b c. induction a as [|x a IH]; intros [|y b] [|z c]; simpl; try done.
  destruct (nat_of_ascii x <? nat_of_ascii y) eqn:E1;
    destruct (nat_of_ascii y <? nat_of_ascii x) eqn:E2;
    destruct (nat_of_ascii y <? nat_of_ascii z) eqn:E3;
    destruct (nat_of_ascii z <? nat_of_ascii y) eqn:E4;
    destruct (nat_of_ascii x <? nat_of_ascii z) eqn:E5;
    destruct (nat_of_ascii z <? nat_of_ascii x) eqn:E6;
    try done;
    rewrite ?Nat.ltb_lt, ?Nat.ltb_ge in *; try lia.
  apply IH.
Qed.

Lemma str_leb_antisym (a b : str) :
  str_leb a b = true -> str_leb b a = true -> a = b.
Proof.
  revert b. induction a as [|x a IH]; intros [|y b]; simpl; try done.
  destruct (nat_of_ascii x <? nat_of_ascii y) eqn:E1;
    destruct (nat_of_ascii y <? nat_of_ascii x) eqn:E2; try done.
  - rewrite ?Nat.ltb_lt in *. lia.
  - rewrite ?Nat.ltb_ge in *. intros H1 H2. f_equal; [|by apply IH].
    rewrite <- (ascii_nat_embedding x), <- (ascii_nat_embedding y).
    f_equal. lia.
Qed.

Lemma lit_inj (p q : string) : lit p = lit q -> p = q.
Proof.
  unfold lit. intros H.
  rewrite <- (string_of_list_ascii_of_string p),
    <- (string_of_list_ascii_of_string q). by rewrite H.
Qed.

Lemma list_sum_perm (l1 l2 : list nat) :
  l1 ≡ₚ l2 -> list_sum l1 = list_sum l2.
Proof.
  induction 1; simpl; lia.
Qed.

(** Sorted by path, the items of a dictionary stand in one order only. *)
Lemma sort_by_path_perm (l1 l2 : list (string * list (nat * str))) :
  l1 ≡ₚ l2 -> NoDup (map fst l1) ->
  sort_by FixFormFields.by_path l1 = sort_by FixFormFields.by_path l2.
Proof.
  intros Hp Hn.
  assert (Htot : forall x y, FixFormFields.by_path x y = true
                             \/ FixFormFields.by_path y x = true).
  { intros x y. apply str_leb_total. }
  assert (Htr : forall x y z, FixFormFields.by_path x y = true ->
                  FixFormFields.by_path y z = true ->
                  FixFormFields.by_path x z = true).
  { intros x y z. apply str_leb_trans. }
  apply (StronglySorted_unique_strong
           (fun a b => FixFormFields.by_path a b = true)).
  - intros x1 x2 H1 H2 Hle Hge.
    rewrite sort_by_perm in H1. rewrite sort_by_perm, <- Hp in H2.
    assert (Hk : fst x1 = fst x2).
    { apply lit_inj. by apply str_leb_antisym. }
    clear Hle Hge Hp.
    induction l1 as [|y l IH]; [by apply elem_of_nil in H1|].
    simpl in Hn. apply NoDup_cons in Hn as [Hy Hn].
    apply elem_of_cons in H1 as [->|H1]; apply elem_of_cons in H2 as [->|H2].
    + reflexivity.
    + exfalso. apply Hy. rewrite Hk. by apply list_elem_of_fmap_2.
    + exfalso. apply Hy. rewrite <- Hk. by apply list_elem_of_fmap_2.
    + by apply IH.
  - by apply sort_by_sorted.
  - by apply sort_by_sorted.
  - by rewrite !sort_by_perm.
Qed.

(** X22.  The report of [fix_form_fields.py] does not depend on the order
    in which the walk found the files: results with the same files and
    violations give the same text. *)
Theorem report_is_canonical
    (results results' : list (string * list (nat * str))) :
  results ≡ₚ results' -> NoDup (map fst results) ->
  FixFormFields.generate_report results
  = FixFormFields.generate_report results'.
Proof.
  intros Hp Hn.
  unfold FixFormFields.generate_report, FixFormFields.report_lines.
  cbv zeta. rewrite (sort_by_path_perm _ _ Hp Hn).
  rewrite (Permutation_length Hp).
  rewrite (list_sum_perm _ (map (fun '(_, v) => length v) results')); [done|].
  by apply Permutation_map.
Qed.

Lemma report_is_canonical_witness :
  FixFormFields.generate_report two_reports
  = FixFormFields.generate_report (rev two_reports).
Proof.
  apply (report_is_canonical two_reports (rev two_reports)).
  - apply Permutation_swap.
  - apply (bool_decide_unpack _). vm_compute. exact I.
Defined.

Lemma sorted_impl {A} (R1 R2 : A -> A -> Prop) (l : list A) :
  (forall x y, R1 x y -> R2 x y) ->
  StronglySorted R1 l -> StronglySorted R2 l.
Proof.
  intros HR. induction 1 as [|x l Hl IH Hx]; constructor; [exact IH|].
  eapply Forall_impl; [exact Hx|]. intros y. apply HR.
Qed.

(** X23.  The priority list of [fix_form_fields.py] is the head of the
    files ordered by their number of violations, the most first: the ten
    first of them, or all when there are fewer. *)
Theorem priority_files_are_top_ten
    (results : list (string * list (nat * str))) :
  exists rest,
    FixFormFields.priority_files results ++ rest ≡ₚ results
    /\ length (FixFormFields.priority_files results)
       = min 10 (length results)
    /\ StronglySorted (fun a b => length (snd b) <= length (snd a))
         (FixFormFields.priority_files results ++ rest).
Proof.
  unfold FixFormFields.priority_files.
  exists (drop 10 (sort_by FixFormFields.by_count results)).
  rewrite take_drop, length_take.
  rewrite (Permutation_length (sort_by_perm FixFormFields.by_count results)).
  split; [apply sort_by_perm|]. split; [reflexivity|].
  apply (sorted_impl (fun a b => FixFormFields.by_count a b = true)).
  - intros x y H. by apply Nat.leb_le in H.
  - apply sort_by_sorted.
    + intros x y. unfold FixFormFields.by_count.
      destruct (Nat.le_ge_cases (length (snd y)) (length (snd x)));
        [left | right]; by apply Nat.leb_le.
    + intros x y z. unfold FixFormFields.by_count.
      rewrite !Nat.leb_le. lia.
Qed.

End SortFacts.

(** ** The files that [fix_console.py] works on *)

Module LintFacts.
Import Py Re Common IO Cases PyFacts SortFacts.

Lemma set_add_NoDup (x : str) (files : list str) :
  NoDup files -> NoDup (FixConsole.set_add x files).
Proof.
  intros H. unfold FixConsole.set_add.
  destruct (bool_decide (x ∈ files)) eqn:E; [exact H|].
  apply bool_decide_eq_false in E. apply NoDup_app.
  split; [exact H|]. split; [|apply NoDup_singleton].
  intros y Hy Hx. apply list_elem_of_singleton in Hx as ->. done.
Qed.

Lemma set_add_elem (x y : str) (files : list str) :
  y ∈ FixConsole.set_add x files -> y = x \/ y ∈ files.
Proof.
  unfold FixConsole.set_add. destruct (bool_decide (x ∈ files)); [auto|].
  intros [H|H]%elem_of_app; [auto|]. left. by apply list_elem_of_singleton.
Qed.

Lemma gather_loop (lines : list str) : forall (files : list str) (w : world),
  gathered w files ->
  exists files',
    for_each lines
      (fun files line =>
         if startswith FixConsole.frontend_dir line then
           let filepath := strip_space line in
           let rel_path := replace FixConsole.frontend_dir [] filepath in
           match rel_path with
           | _ :: _ =>
               present ← path_exists (string_of_list_ascii rel_path);
               if present : bool
               then mret (FixConsole.set_add rel_path files)
               else mret files
           | [] => mret files
           end
         else mret files) files w = (inr files', w)
    /\ gathered w files'.
Proof.
  match goal with |- context [for_each _ ?b] => set (body := b) end.
  induction lines as [|l lines IH]; intros files w Hg.
  - exists files. by split.
  - cbn [for_each]. unfold mbind, M_bind. unfold body at 1. cbv beta zeta.
    destruct (startswith FixConsole.frontend_dir l);
      [|unfold mret, M_ret; by apply IH].
    destruct (replace FixConsole.frontend_dir [] (strip_space l))
      as [|c r] eqn:Er; [unfold mret, M_ret; by apply IH|].
    unfold mbind, M_bind, path_exists.
    destruct (bool_decide (is_Some (fs w !! string_of_list_ascii (c :: r))))
      eqn:Ep; [|unfold mret, M_ret; by apply IH].
    unfold mret, M_ret. apply IH. destruct Hg as [Hn Hf]. split.
    + by apply set_add_NoDup.
    + apply Forall_forall. intros y [->|Hy]%set_add_elem.
      * split; [done|]. by apply bool_decide_eq_true in Ep.
      * rewrite Forall_forall in Hf. by apply Hf.
Qed.

Lemma sorted_map {A B} (f : A -> B) (R : A -> A -> Prop)
    (R' : B -> B -> Prop) (l : list A) :
  (forall x y, R x y -> R' (f x) (f y)) ->
  StronglySorted R l -> StronglySorted R' (map f l).
Proof.
  intros HR. induction 1 as [|x l Hl IH Hx]; simpl; constructor; [exact IH|].
  apply Forall_map. eapply Forall_impl; [exact Hx|]. intros y. apply HR.
Qed.

(** X24.  From what the linter printed, [fix_console.py] gathers paths
    that exist, none of them empty or listed twice, in the order of
    [sorted]; gathering them raises no error and changes nothing, and the
    run over them comes to its end. *)
Theorem lint_files_exist_once (stdout stderr : str) (w : world) :
  (exists files,
     FixConsole.get_files_with_console stdout stderr w = (inr files, w)
     /\ NoDup files
     /\ StronglySorted (fun a b => str_leb (lit a) (lit b) = true) files
     /\ Forall (fun p => p <> ""%string /\ is_Some (fs w !! p)) files)
  /\ exists n w', FixConsole.main stdout stderr w = (inr n, w').
Proof.
  assert (H : exists files,
     FixConsole.get_files_with_console stdout stderr w = (inr files, w)
     /\ NoDup files
     /\ StronglySorted (fun a b => str_leb (lit a) (lit b) = true) files
     /\ Forall (fun p => p <> ""%string /\ is_Some (fs w !! p)) files).
  { unfold FixConsole.get_files_with_console.
    destruct (gather_loop (split nl stdout ++ split nl stderr) [] w)
      as (files & Hloop & Hn & Hf).
    { split; [apply NoDup_nil_2 | constructor]. }
    match goal with
    | |- context [for_each ?l ?b ?s] => set (loop := for_each l b s) in *
    end.
    unfold mbind, M_bind. rewrite Hloop.
    unfold mret, M_ret. eexists. split; [reflexivity|].
    pose proof (sort_by_perm str_leb files) as Hp.
    split; [|split].
    - apply NoDup_fmap_2.
      + intros x y Hxy.
        rewrite <- (list_ascii_of_string_of_list_ascii x),
          <- (list_ascii_of_string_of_list_ascii y). by rewrite Hxy.
      + by rewrite Hp.
    - apply (sorted_map _ (fun a b => str_leb a b = true)).
      + intros x y. unfold lit.
        by rewrite !list_ascii_of_string_of_list_ascii.
      + apply sort_by_sorted; [apply str_leb_total | apply str_leb_trans].
    - apply Forall_map. rewrite Hp. eapply Forall_impl; [exact Hf|].
      intros p [Hne Hs]. split; [|exact Hs]. by destruct p. }
  split; [exact H|]. destruct H as (files & Hg & _).
  unfold FixConsole.main, mbind, M_bind. rewrite Hg.
  destruct (FileFacts.for_each_returns
              (fun fixed filepath =>
                 ok ← FixConsole.fix_file filepath;
                 if ok : bool
                 then print (ConsoleFixed filepath);; mret (fixed + 1)
                 else mret fixed) files) with (s := 0) (w := w)
    as (n & w' & Hr).
  { intros s x w0. unfold mbind, M_bind.
    destruct (RunFacts.console_fix_file_spec x w0) as (b & t & w1 & -> & _).
    destruct b; unfold print, mret, M_ret; eauto. }
  exists n, w'. exact Hr.
Qed.

End LintFacts.

(** ** The table for text inputs, and identifiers by directory *)

Module TableFacts.
Import Py Re Common Cases PyFacts AutocompleteFacts.

Lemma first_key_none (table : list (string * string)) (id_lower : str) :
  Forall (fun kv => lit (snd kv) <> []) table ->
  FinalFix.first_key table id_lower = []
  <-> Forall (fun key => contains (lit key) id_lower = false) (map fst table).
Proof.
  induction table as [|[k v] table IH]; intros Hv; simpl.
  - split; [constructor | reflexivity].
  - inversion Hv as [|? ? Hv1 Hv2]; subst. simpl in Hv1.
    destruct (contains (lit k) id_lower) eqn:E.
    + split; [done|]. intros H. inversion H; subst. congruence.
    + rewrite (IH Hv2). split; [by constructor | by inversion 1].
Qed.

(** X25.  For a text input [get_autocomplete_value] takes the first entry
    of its table whose key is in the lowercased [id]: an [id] with
    [username] in it gives [username], any other [id] with [name] in it
    gives [name] (and so never [given-name] or [family-name]), and the
    result is empty exactly when no key of the table is in the [id].  A
    type other than [password], [email], [tel] and [text] gives the empty
    value. *)
Theorem text_table_order (input_tag id_val : str) :
  let r := FinalFix.get_autocomplete_value input_tag (lit "text") id_val in
  (contains (lit "username") (lower id_val) = true -> r = lit "username")
  /\ (contains (lit "username") (lower id_val) = false ->
      contains (lit "name") (lower id_val) = true -> r = lit "name")
  /\ (r = []
      <-> Forall (fun key => contains (lit key) (lower id_val) = false)
            (map fst FinalFix.AUTOCOMPLETE_MAP_text))
  /\ (forall ty,
        ~ In ty (map lit ["password"; "email"; "tel"; "text"]%string) ->
        FinalFix.get_autocomplete_value input_tag ty id_val = []).
Proof.
  cbv zeta.
  change (FinalFix.get_autocomplete_value input_tag (lit "text") id_val)
    with (FinalFix.first_key FinalFix.AUTOCOMPLETE_MAP_text (lower id_val)).
  split; [|split; [|split]].
  - intros H. unfold FinalFix.AUTOCOMPLETE_MAP_text. cbn [FinalFix.first_key].
    by rewrite H.
  - intros H1 H2. unfold FinalFix.AUTOCOMPLETE_MAP_text.
    cbn [FinalFix.first_key]. by rewrite H1, H2.
  - apply first_key_none. by repeat constructor.
  - intros ty Hty. unfold FinalFix.get_autocomplete_value, eqb_str.
    rewrite !bool_decide_eq_false_2; [reflexivity | | | |];
      intros ->; apply Hty; simpl; tauto.
Qed.

Lemma text_table_order_witness :
  FinalFix.get_autocomplete_value [] (lit "text") (lit "firstName")
  = lit "name".
Proof.
  apply (text_table_order [] (lit "firstName")); reflexivity.
Defined.

(** X26.  In the directories [blog], [courses], [products], [videos] and
    [boards] the identifier of [comprehensive_fix.py] starts with the name
    of the directory. *)
Theorem id_starts_with_directory (input_tag file_path : str)
    (line_num : nat) :
  mem (parent_name file_path)
    ["blog"; "courses"; "products"; "videos"; "boards"]%string = true ->
  startswith (parent_name file_path)
    (fst (ComprehensiveFix.generate_smart_id input_tag file_path line_num))
  = true.
Proof.
  intros H. unfold ComprehensiveFix.generate_smart_id,
    ComprehensiveFix.id_parts. cbv zeta. rewrite H. cbn [fst].
  apply mem_spec in H as (d & Hd & ->).
  match goal with
  | |- context [[lit d] ++ ?m] => generalize m
  end.
  intros meaning. cbn [app].
  simpl in Hd. destruct Hd as [<-|[<-|[<-|[<-|[<-|[]]]]]];
    destruct meaning as [|m ms]; reflexivity.
Qed.

Lemma id_starts_with_directory_witness :
  startswith (lit "blog")
    (fst (ComprehensiveFix.generate_smart_id bare_input blog_page 1)) = true.
Proof.
  apply (id_starts_with_directory bare_input blog_page 1). reflexivity.
Defined.

End TableFacts.

(** ** A tag on three lines *)

Module ThreeLineFacts.
Import Py Re Common IO Cases PyFacts LinesFacts ReassemblerFacts LoopFacts.
Import FrameFacts UntouchedFacts ScanFacts.




(** The loops of the two scanners have the same course: a line without the
    marker is passed over, a line with it starts a tag, and what is
    reported of the tag bears the number of that line. *)
Section Scanner.
Context {State V : Type}.
Variables (sep : str) (lines : list str).
Variables (idx : State -> nat) (found : State -> list V) (line_of : V -> nat).
Variable step : State -> str -> State.

Hypothesis step_plain : forall s l,
  contains marker l = false ->
  idx (step s l) = S (idx s) /\ found (step s l) = found s.

Hypothesis step_tag : forall s l,
  contains marker l = true ->
  idx (step s l) = S (last_idx (reassemble sep lines (idx s) l))
  /\ exists new,
       found (step s l) = found s ++ new
       /\ Forall (fun v => line_of v = idx s + 1) new.

Abbreviation loop := (while_line (fun s => lines !! idx s) step).





End Scanner.








End ThreeLineFacts.
